(** * Variational Combinatorial SMC (vcsmc.py): a shallow embedding

    The particle filter of [src/vcsmc.py] is written with TensorFlow
    tensors.  The embedding keeps the shape of the program:

    - a rank-1 tensor is a [list], a rank-2 tensor a list of rows, the
      [core] of partial likelihoods a list (particles) of lists (forest
      nodes) of matrices (sites x alphabet);
    - [int32] tensors are [Z] with the wrap-around of the products written
      out ([wrap32]); positions in a list are [nat];
    - [float64] tensors are idealised as the reals [R] of the Standard
      Library, the perturbed scores handed to [tf.nn.top_k] as rationals
      [Q] so that the selection can be evaluated;
    - an operation that TensorFlow rejects (a gather out of range, a
      top-k larger than the row, a range whose limit lies below its start,
      a reshape or a concatenation of the wrong size) returns [None]; the
      shapes of the arithmetic operations are taken as they are built;
    - the random draws ([tf.random.uniform] turned into Gumbel noise,
      [tf.random.categorical]) and the library routine [tf.linalg.expm]
      are inputs of the model. *)

From Stdlib Require Import String.
From Stdlib Require Import List Arith ZArith QArith Reals Psatz Bool.
From Stdlib Require Import Permutation.
From Stdlib Require Import Sorted.
Import ListNotations.

Close Scope Q_scope.
Close Scope R_scope.
Open Scope nat_scope.

Set Implicit Arguments.

(** ** Errors: the option monad *)

Definition bind {A B : Type} (m : option A) (f : A -> option B) : option B :=
  match m with
  | Some a => f a
  | None => None
  end.

Notation "x <- m ;; k" := (bind m (fun x => k))
  (at level 61, m at next level, right associativity).
Notation "' p <- m ;; k" := (bind m (fun x => match x with p => k end))
  (at level 61, p pattern, m at next level, right associativity).

Fixpoint mapM {A B : Type} (f : A -> option B) (l : list A) : option (list B) :=
  match l with
  | [] => Some []
  | x :: l' =>
      y <- f x ;;
      ys <- mapM f l' ;;
      Some (y :: ys)
  end.

(** ** Tensor primitives *)

Module TF.

(** [tf.gather params i] for one index: an index out of range is an error. *)
Definition gather1 {A : Type} (params : list A) (i : nat) : option A :=
  nth_error params i.

(** [tf.gather params indices] along axis 0 with a vector of indices. *)
Definition gather {A : Type} (params : list A) (indices : list nat)
  : option (list A) :=
  mapM (gather1 params) indices.

(** [tf.gather params indices] with a Python list of indices: the list is
    converted to a tensor first, and an empty list becomes a [float32]
    tensor, which [tf.gather] does not take as indices. *)
Definition gather_pylist {A : Type} (params : list A) (indices : list nat)
  : option (list A) :=
  match indices with
  | [] => None
  | _ :: _ => gather params indices
  end.

(** [tf.gather params indices] with a matrix of indices: the result has the
    shape of [indices]. *)
Definition gather2 {A : Type} (params : list A) (indices : list (list nat))
  : option (list (list A)) :=
  mapM (gather params) indices.

(** [tf.gather_nd t [[k, j]]] followed by [tf.squeeze] on a tensor whose
    two leading axes are lists. *)
Definition gather_nd2 {A : Type} (t : list (list A)) (k j : nat) : option A :=
  row <- gather1 t k ;; gather1 row j.

(** [tf.range lo hi] on integers: the limit may not lie below the start. *)
Definition range (lo hi : Z) : option (list Z) :=
  if (lo <=? hi)%Z
  then Some (map (fun i => (lo + Z.of_nat i)%Z) (seq 0 (Z.to_nat (hi - lo))))
  else None.

(** [tf.range lo hi] used as a list of positions. *)
Definition range_nat (lo hi : nat) : list nat := seq lo (hi - lo).

(** Signed 32-bit wrap-around. *)
Definition wrap32 (z : Z) : Z := ((z + 2 ^ 31) mod 2 ^ 32 - 2 ^ 31)%Z.

(** [tf.reduce_prod] of an [int32] vector. *)
Definition reduce_prod (l : list Z) : Z :=
  fold_left (fun acc x => wrap32 (acc * x)) l 1%Z.

(** [tf.reduce_sum] of a [float64] vector. *)
Definition reduce_sum (l : list R) : R := fold_right Rplus 0%R l.

(** [tf.while_loop cond body loop_vars]: [fuel] bounds the number of
    iterations of the model; running out of it is reported as [None]. *)
Fixpoint while_loop {S : Type} (fuel : nat) (cond : S -> bool)
  (body : S -> option S) (st : S) : option S :=
  if cond st then
    match fuel with
    | O => None
    | Datatypes.S fuel' =>
        st' <- body st ;;
        while_loop fuel' cond body st'
    end
  else Some st.

(** A vector cut into [rows] rows of [cols] entries. *)
Fixpoint chunks {A : Type} (flat : list A) (rows cols : nat) : list (list A) :=
  match rows with
  | O => []
  | S rows' => firstn cols flat :: chunks (skipn cols flat) rows' cols
  end.

(** [tf.reshape flat (rows, cols)] of a vector: the number of elements has
    to be [rows * cols]. *)
Definition reshape {A : Type} (flat : list A) (rows cols : nat)
  : option (list (list A)) :=
  if length flat =? rows * cols then Some (chunks flat rows cols) else None.

(** [tf.reshape t [rows * cols, ...]] of a tensor given as a list of rows. *)
Definition flatten {A : Type} (t : list (list A)) : list A := concat t.

(** [tf.reshape t [size, ...]] merging the two leading axes: the number of
    elements has to be [size]. *)
Definition reshape_flat {A : Type} (t : list (list A)) (size : nat)
  : option (list A) :=
  if length (flatten t) =? size then Some (flatten t) else None.

(** [tf.concat [a, b] axis=1]: row-wise concatenation of two tensors with
    the same number of rows. *)
Fixpoint concat1 {A : Type} (a b : list (list A)) : option (list (list A)) :=
  match a, b with
  | [], [] => Some []
  | ra :: a', rb :: b' =>
      rest <- concat1 a' b' ;;
      Some ((ra ++ rb) :: rest)
  | _, _ => None
  end.

(** [tf.expand_dims v axis=1]. *)
Definition expand_dims1 {A : Type} (v : list A) : list (list A) :=
  map (fun x => [x]) v.

(** [tf.linalg.set_diag m d]: the diagonal of [m] replaced by [d]. *)
Fixpoint set_nth {A : Type} (l : list A) (i : nat) (x : A) : list A :=
  match l, i with
  | [], _ => []
  | _ :: l', O => x :: l'
  | y :: l', S i' => y :: set_nth l' i' x
  end.

Fixpoint set_diag_from {A : Type} (i : nat) (m : list (list A)) (d : list A)
  : list (list A) :=
  match m, d with
  | row :: m', x :: d' => set_nth row i x :: set_diag_from (S i) m' d'
  | _, _ => m
  end.

Definition set_diag {A : Type} (m : list (list A)) (d : list A) : list (list A) :=
  set_diag_from 0 m d.

(** Number of columns of a matrix (its static shape). *)
Definition ncols {A : Type} (m : list (list A)) : nat := length (hd [] m).

(** [tf.transpose] of a matrix. *)
Definition transpose (m : list (list R)) : list (list R) :=
  map (fun j => map (fun row => nth j row 0%R) m) (seq 0 (ncols m)).

Definition dot (u v : list R) : R :=
  reduce_sum (map (fun p => (fst p * snd p)%R) (combine u v)).

(** [tf.matmul a b]: rows of [a] against columns of [b]. *)
Definition matmul (a b : list (list R)) : list (list R) :=
  map (fun ra => map (fun cb => dot ra cb) (transpose b)) a.

(** [tf.matmul a b transpose_b=True]. *)
Definition matmul_transpose_b (a b : list (list R)) : list (list R) :=
  matmul a (transpose b).

(** [tf.multiply] of two matrices of the same shape. *)
Definition multiply (a b : list (list R)) : list (list R) :=
  map (fun p => map (fun q => (fst q * snd q)%R) (combine (fst p) (snd p)))
      (combine a b).

(** A matrix times a scalar ([Q * branch]). *)
Definition scale (m : list (list R)) (c : R) : list (list R) :=
  map (map (fun x => (x * c)%R)) m.

(** [tf.reduce_logsumexp] of a vector. *)
Definition reduce_logsumexp (l : list R) : R := ln (reduce_sum (map exp l)).

(** *** [tf.nn.top_k]

    The [k] largest entries of a vector, largest first; of two equal
    entries the one at the lower position comes first.  Asking for more
    entries than the vector has is an error. *)
Section TopK.
Variable A : Type.
Variable leb : A -> A -> bool.

Fixpoint insert_desc (x : A * nat) (l : list (A * nat)) : list (A * nat) :=
  match l with
  | [] => [x]
  | y :: l' =>
      if leb (fst y) (fst x) then x :: y :: l'
      else y :: insert_desc x l'
  end.

Definition sort_desc (xs : list A) : list (A * nat) :=
  fold_right insert_desc [] (combine xs (seq 0 (length xs))).

Definition top_k (xs : list A) (k : nat) : option (list A * list nat) :=
  if k <=? length xs then
    let top := firstn k (sort_desc xs) in
    Some (map fst top, map snd top)
  else None.
End TopK.

End TF.

(** ** [ncr] *)

(** [ncr n r]: both products are taken on [int32] tensors, the quotient is
    Python's true division, which casts the two integers to [float64]. *)
Definition ncr (n r : Z) : option R :=
  factors <- TF.range (TF.wrap32 (TF.wrap32 (n - r) + 1)) (TF.wrap32 (n + 1)) ;;
  let numer := TF.reduce_prod factors in
  factors <- TF.range 1 (r + 1) ;;
  let denom := TF.reduce_prod factors in
  Some (IZR numer / IZR denom)%R.

(** The proposal probability of [extend_partial_state]:
    [q = 1 / ncr(self.n - r, 2)]. *)
Definition proposal_q (n r : nat) : option R :=
  pairs <- ncr (Z.of_nat n - Z.of_nat r) 2 ;;
  Some (1 / pairs)%R.

(** ** The [VCSMC] object *)

Definition matrix : Type := list (list R).

(** The fields a [VCSMC] instance holds once [sample_phylogenies] has been
    called: the data, the current values of the trainable variables and the
    number of particles. *)
Record VCSMC : Type := mkVCSMC {
  taxa : list string;
  genome_NxSxA : list (list (list R));
  y_q_var : matrix;
  y_station : list R;
  K : nat;
  left_branches : matrix;
  right_branches : matrix
}.

(** What the run takes from outside the program: the matrix exponential and
    the random draws.  [gumbel r k j] is the noise
    [-log(-log(uniform))] of step [r] at particle [k] and position [j];
    [categorical r d] is the [d]-th index drawn by [tf.random.categorical]
    at step [r]. *)
Record World : Type := mkWorld {
  expm : matrix -> matrix;
  gumbel : nat -> nat -> nat -> Q;
  categorical : nat -> nat -> nat;
  fuel : nat
}.

(** [self.n], [self.s], [self.a]: the three dimensions of the genome array
    (the constructor reads them off its first taxon and site). *)
Definition n (self : VCSMC) : nat := length (genome_NxSxA self).
Definition s (self : VCSMC) : nat := length (nth 0 (genome_NxSxA self) []).
Definition a (self : VCSMC) : nat :=
  length (nth 0 (nth 0 (genome_NxSxA self) []) []).

Definition zeros (len : nat) : list R := repeat 0%R len.

(** [self.y_q]: the variable with its diagonal set to zero. *)
Definition y_q (self : VCSMC) : matrix :=
  TF.set_diag (y_q_var self) (zeros (a self)).

Definition get_stationary_probs (self : VCSMC) : matrix :=
  let denom := TF.reduce_sum (map exp (y_station self)) in
  [map (fun y => (exp y / denom)%R) (y_station self)].

Definition get_Q (self : VCSMC) : matrix :=
  let e := TF.set_diag (map (map exp) (y_q self)) (zeros (a self)) in
  let denom := map TF.reduce_sum e in
  let denom := map (fun d => repeat d (a self)) denom in
  let q_entry := TF.multiply e (map (map (fun d => (1 / d)%R)) denom) in
  let hyphens := map TF.reduce_sum q_entry in
  TF.set_diag q_entry (map Ropp hyphens).

Definition stationary_probs (self : VCSMC) : matrix := get_stationary_probs self.
Definition Qmatrix (self : VCSMC) : matrix := get_Q self.

(** *** Resampling *)

Definition resample {A : Type} (self : VCSMC) (w : World) (r : nat)
  (JC_K : list A) (log_weights : list R) : option (list A * list nat) :=
  let indices := map (categorical w r) (seq 0 (K self)) in
  resampled_JC_K <- TF.gather JC_K indices ;;
  Some (resampled_JC_K, indices).

(** *** Extending the partial states *)

(** [data]: [range((n-r)*K)] reshaped to [K] rows, reduced modulo [n-r]
    and cast to floating point. *)
Definition score_data (self : VCSMC) (r : nat) : option (list (list Q)) :=
  let m := n self - r in
  flat <- TF.range 0 (TF.wrap32 (Z.of_nat m * Z.of_nat (K self))) ;;
  data <- TF.reshape flat (K self) m ;;
  let data := map (map (fun x => (x mod Z.of_nat m)%Z)) data in
  Some (map (map inject_Z) data).

(** The noise tensor, of the shape of [data]. *)
Definition noise (w : World) (r : nat) (data : list (list Q)) : list (list Q) :=
  map (fun kr => map (fun j => gumbel w r (fst kr) j) (seq 0 (length (snd kr))))
      (combine (seq 0 (length data)) data).

Definition add_noise (data z : list (list Q)) : list (list Q) :=
  map (fun p => map (fun q => Qplus (fst q) (snd q)) (combine (fst p) (snd p)))
      (combine data z).

Record Extension : Type := mkExtension {
  particle1 : list string;
  particle2 : list string;
  particle_coalesced : list string;
  coalesced_indices : list (list nat);
  remaining_indices : list (list nat);
  ext_q : R;
  ext_JCK : list (list string)
}.

Definition extend_partial_state (self : VCSMC) (w : World)
  (JCK : list (list string)) (r : nat) : option Extension :=
  q <- proposal_q (n self) r ;;
  data <- score_data self r ;;
  let z := noise w r data in
  let scores := add_noise data z in
  top <- mapM (fun row => TF.top_k Qle_bool row 2) scores ;;
  let coalesced_indices := map snd top in
  bottom <- mapM (fun row => TF.top_k Qle_bool (map Qopp row) (n self - r - 2))
                 scores ;;
  let remaining_indices := map snd bottom in
  flat <- TF.reshape_flat JCK (K self * (n self - r)) ;;
  JC_keep <- TF.gather2 flat remaining_indices ;;
  particles <- TF.gather2 flat coalesced_indices ;;
  particle1 <- mapM (fun row => TF.gather1 row 0) particles ;;
  particle2 <- mapM (fun row => TF.gather1 row 1) particles ;;
  let particle_coalesced :=
    map (fun p => (fst p ++ "+" ++ snd p)%string) (combine particle1 particle2) in
  JCK <- TF.concat1 JC_keep (TF.expand_dims1 particle_coalesced) ;;
  Some (mkExtension particle1 particle2 particle_coalesced coalesced_indices
                    remaining_indices q JCK).

(** *** Likelihoods *)

Definition conditional_likelihood (self : VCSMC) (w : World)
  (l_data r_data : matrix) (l_branch r_branch : R) : matrix :=
  let left_Pmatrix := expm w (TF.scale (Qmatrix self) l_branch) in
  let right_Pmatrix := expm w (TF.scale (Qmatrix self) r_branch) in
  let left_prob := TF.matmul l_data left_Pmatrix in
  let right_prob := TF.matmul r_data right_Pmatrix in
  TF.multiply left_prob right_prob.

Definition compute_tree_likelihood (self : VCSMC) (data : matrix) : R :=
  let tree_likelihood := TF.matmul_transpose_b (stationary_probs self) data in
  TF.reduce_sum (map ln (TF.flatten tree_likelihood)).

(** *** The overcounting correction *)

Definition overcounting_correct (self : VCSMC) (v : R) (indices : list nat)
  (i : nat) : option R :=
  idx1 <- TF.gather1 indices 0 ;;
  idx2 <- TF.gather1 indices 1 ;;
  let threshold := (Z.of_nat (n self) - Z.of_nat i - 1)%Z in
  let cond_greater :=
    if ((Z.of_nat idx1 >? threshold) && (Z.of_nat idx2 >? threshold))%Z%bool
    then (-1)%R else 0%R in
  let result :=
    if ((Z.of_nat idx1 <? threshold) && (Z.of_nat idx2 <? threshold))%Z%bool
    then 1%R else cond_greater in
  let v := (v + result)%R in
  Some (1 / v)%R.

Definition compute_log_ZSMC (self : VCSMC) (log_weights : matrix) : R :=
  TF.reduce_sum
    (map (fun row =>
            TF.reduce_logsumexp (map (fun x => (x - ln (INR (K self)))%R) row))
         log_weights).

(** *** The loop that builds the merged nodes *)

(** Loop variables [(new_data, core, coalesced_indices, i, k)]. *)
Definition DataVars : Type :=
  (list (list matrix) * list (list matrix) * list (list nat) * nat * nat)%type.

Definition body_update_data (self : VCSMC) (w : World) (vars : DataVars)
  : option DataVars :=
  let '(new_data, core, coalesced_indices, i, k) := vars in
  n1 <- TF.gather_nd2 coalesced_indices k 0 ;;
  n2 <- TF.gather_nd2 coalesced_indices k 1 ;;
  l_data <- TF.gather_nd2 core k n1 ;;
  r_data <- TF.gather_nd2 core k n2 ;;
  l_branch <- TF.gather_nd2 (left_branches self) k i ;;
  r_branch <- TF.gather_nd2 (right_branches self) k i ;;
  let mtx := conditional_likelihood self w l_data r_data l_branch r_branch in
  let mtx_ext := [[mtx]] in
  let new_data := new_data ++ mtx_ext in
  let k := k + 1 in
  Some (new_data, core, coalesced_indices, i, k).

Definition cond_update_data (self : VCSMC) (vars : DataVars) : bool :=
  let '(_, _, _, _, k) := vars in k <? K self.

(** *** The loop over the forest of one particle *)

(** Loop variables [(log_likelihood_i_k, core, i, k, j)]. *)
Definition ForestVars : Type := (R * list (list matrix) * nat * nat * nat)%type.

Definition body_compute_forest (self : VCSMC) (vars : ForestVars)
  : option ForestVars :=
  let '(log_likelihood_i_k, core, i, k, j) := vars in
  node <- TF.gather_nd2 core k j ;;
  let log_likelihood_i_k :=
    (log_likelihood_i_k + compute_tree_likelihood self node)%R in
  let j := j + 1 in
  Some (log_likelihood_i_k, core, i, k, j).

Definition cond_compute_forest (self : VCSMC) (vars : ForestVars) : bool :=
  let '(_, _, i, _, j) := vars in j <? n self - 1 - i.

(** *** The loop over the particles that computes the weights *)

Record WeightVars : Type := mkWeightVars {
  wv_log_weights_i : list R;
  wv_log_likelihood_i : list R;
  wv_log_likelihood_tilda : list R;
  wv_coalesced_indices : list (list nat);
  wv_core : list (list matrix);
  wv_v : list R;
  wv_q : R;
  wv_i : nat;
  wv_k : nat
}.

Definition cond_true_update_weights (self : VCSMC)
  (log_weights_i log_likelihood_i log_likelihood_tilda : list R)
  (coalesced_indices : list (list nat)) (v : list R) (q : R) (i k : nat)
  : option (list R * list R) :=
  v_k <- TF.gather1 v k ;;
  indices_k <- TF.gather1 coalesced_indices k ;;
  corrected <- overcounting_correct self v_k indices_k i ;;
  let v := v ++ [corrected] in
  ll <- TF.gather1 log_likelihood_i (k + 1) ;;
  ll_tilda <- TF.gather1 log_likelihood_tilda k ;;
  v_new <- TF.gather1 v (k + K self) ;;
  let new_log_weight := (ll - ll_tilda + ln v_new - ln q)%R in
  let log_weights_i := log_weights_i ++ [new_log_weight] in
  Some (v, log_weights_i).

Definition cond_false_update_weights (self : VCSMC)
  (log_weights_i log_likelihood_i log_likelihood_tilda : list R)
  (coalesced_indices : list (list nat)) (v : list R) (q : R) (i k : nat)
  : option (list R * list R) :=
  let v := v ++ [1%R] in
  let log_weights_i := log_weights_i ++ [0%R] in
  Some (v, log_weights_i).

Definition body_update_weights (self : VCSMC) (w : World) (vars : WeightVars)
  : option WeightVars :=
  let '(mkWeightVars log_weights_i log_likelihood_i log_likelihood_tilda
                     coalesced_indices core v q i k) := vars in
  '(log_likelihood_i_k, _, _, _, _) <-
     TF.while_loop (fuel w) (cond_compute_forest self) (body_compute_forest self)
                   (0%R, core, i, k, 0) ;;
  let log_likelihood_i := log_likelihood_i ++ [log_likelihood_i_k] in
  '(v, log_weights_i) <-
     (if 0 <? i
      then cond_true_update_weights self log_weights_i log_likelihood_i
             log_likelihood_tilda coalesced_indices v q i k
      else cond_false_update_weights self log_weights_i log_likelihood_i
             log_likelihood_tilda coalesced_indices v q i k) ;;
  let k := k + 1 in
  Some (mkWeightVars log_weights_i log_likelihood_i log_likelihood_tilda
                     coalesced_indices core v q i k).

Definition cond_update_weights (self : VCSMC) (vars : WeightVars) : bool :=
  wv_k vars <? K self.

(** *** The main loop *)

Record MainVars : Type := mkMainVars {
  log_weights : matrix;
  log_likelihood : matrix;
  log_likelihood_tilda : list R;
  jump_chains : list (list string);
  jump_chain_tensor : list (list string);
  core : list (list matrix);
  v : list R;
  r : nat
}.

Definition cond_true_resample (self : VCSMC) (w : World)
  (log_likelihood_tilda : list R) (log_weights log_likelihood : matrix)
  (jump_chains jump_chain_tensor : list (list string)) (r : nat)
  : option (list R * list (list string) * list (list string)) :=
  log_weights_r <- TF.gather1 log_weights r ;;
  '(jump_chain_tensor, indices) <- resample self w r jump_chain_tensor log_weights_r ;;
  gathered <- TF.gather (TF.transpose log_likelihood) indices ;;
  log_likelihood_tilda <-
    mapM (fun k => TF.gather_nd2 gathered k r) (seq 0 (K self)) ;;
  jump_chains <- TF.concat1 jump_chains jump_chain_tensor ;;
  Some (log_likelihood_tilda, jump_chains, jump_chain_tensor).

Definition cond_false_resample (self : VCSMC) (w : World)
  (log_likelihood_tilda : list R) (log_weights log_likelihood : matrix)
  (jump_chains jump_chain_tensor : list (list string)) (r : nat)
  : option (list R * list (list string) * list (list string)) :=
  Some (log_likelihood_tilda, jump_chains, jump_chain_tensor).

Definition body_main (self : VCSMC) (w : World) (vars : MainVars)
  : option MainVars :=
  let '(mkMainVars log_weights log_likelihood log_likelihood_tilda jump_chains
                   jump_chain_tensor core v r) := vars in
  (* Resample *)
  '(log_likelihood_tilda, jump_chains, jump_chain_tensor) <-
     (if 0 <? r
      then cond_true_resample self w log_likelihood_tilda log_weights
             log_likelihood jump_chains jump_chain_tensor r
      else cond_false_resample self w log_likelihood_tilda log_weights
             log_likelihood jump_chains jump_chain_tensor r) ;;
  (* Extend partial states *)
  ext <- extend_partial_state self w jump_chain_tensor r ;;
  let coalesced_indices := coalesced_indices ext in
  let remaining_indices := remaining_indices ext in
  let q := ext_q ext in
  let jump_chain_tensor := ext_JCK ext in
  (* Update partial set data *)
  let new_data := [[repeat (zeros (a self)) (s self)]] in
  '(new_data, _, coalesced_indices, _, _) <-
     TF.while_loop (fuel w) (cond_update_data self) (body_update_data self w)
                   (new_data, core, coalesced_indices, r, 0) ;;
  new_data <- TF.gather new_data (TF.range_nat 1 (K self + 1)) ;;
  flat <- TF.reshape_flat core (K self * (n self - r)) ;;
  core <- TF.gather2 flat remaining_indices ;;
  core <- TF.concat1 core new_data ;;
  (* Compute weights *)
  wv <- TF.while_loop (fuel w) (cond_update_weights self)
          (body_update_weights self w)
          (mkWeightVars [0%R] [0%R] log_likelihood_tilda coalesced_indices
                        core v q r 0) ;;
  log_weights_row <- TF.gather (wv_log_weights_i wv) (TF.range_nat 1 (K self + 1)) ;;
  let log_weights := log_weights ++ [log_weights_row] in
  log_likelihood_row <-
    TF.gather (wv_log_likelihood_i wv) (TF.range_nat 1 (K self + 1)) ;;
  let log_likelihood := log_likelihood ++ [log_likelihood_row] in
  let log_likelihood_tilda := wv_log_likelihood_tilda wv in
  v <- TF.gather (wv_v wv) (TF.range_nat (K self) (2 * K self)) ;;
  let r := r + 1 in
  Some (mkMainVars log_weights log_likelihood log_likelihood_tilda jump_chains
                   jump_chain_tensor core v r).

Definition cond_main (self : VCSMC) (vars : MainVars) : bool :=
  r vars <? n self - 1.

(** The loop variables [sample_phylogenies] starts from. *)
Definition initial_vars (self : VCSMC) : MainVars :=
  mkMainVars [zeros (K self)] [zeros (K self)] (repeat 1%R (K self))
             (repeat [""%string] (K self))
             (repeat (taxa self) (K self))
             (repeat (genome_NxSxA self) (K self))
             (repeat 1%R (K self)) 0.

Record Sample : Type := mkSample {
  final_vars : MainVars;
  sample_log_weights : matrix;
  elbo : R
}.

Definition sample_phylogenies (self : VCSMC) (w : World) : option Sample :=
  vars <- TF.while_loop (fuel w) (cond_main self) (body_main self w)
            (initial_vars self) ;;
  log_weights <-
    TF.gather_pylist (log_weights vars) (TF.range_nat 1 (n self)) ;;
  let elbo := compute_log_ZSMC self log_weights in
  Some (mkSample vars log_weights elbo).

(** ** Reference notions the properties are stated against *)

(** The number of unordered pairs among [m] nodes, as the binomial
    coefficient of the Standard Library. *)
Definition pairs_among (m : nat) : R := C m 2.

(** The perturbed scores [data + z] of step [r]. *)
Definition scores (self : VCSMC) (w : World) (r : nat)
  : option (list (list Q)) :=
  data <- score_data self r ;;
  Some (add_noise data (noise w r data)).

(** The pairs drawn at step [r], one row of [top_k] results per particle. *)
Definition sampled_pairs (self : VCSMC) (w : World) (r : nat)
  : option (list (list Q * list nat)) :=
  perturbed <- scores self w r ;;
  mapM (fun row => TF.top_k Qle_bool row 2) perturbed.

(** The log-likelihood of a forest: the tree likelihoods of its nodes, added
    up from the left. *)
Definition forest_log_likelihood (self : VCSMC) (nodes : list matrix) : R :=
  fold_left (fun acc node => (acc + compute_tree_likelihood self node)%R)
            nodes 0%R.

(** [steps] iterations of the body of the main loop. *)
Fixpoint run_steps (self : VCSMC) (w : World) (steps : nat) (vars : MainVars)
  : option MainVars :=
  match steps with
  | O => Some vars
  | S steps' =>
      vars' <- run_steps self w steps' vars ;;
      body_main self w vars'
  end.

(** A tensor with [rows] rows of [cols] entries. *)
Definition rectangular {A : Type} (rows cols : nat) (t : list (list A)) : Prop :=
  length t = rows /\ Forall (fun row => length row = cols) t.

(** What a run relies on: the taxa match the genome, [n * K] and [n + 1]
    fit the 32-bit integers of the index arithmetic, there is a branch
    length per particle and merge, the categorical draws are particle
    indices, the model loops are given enough fuel, and there are at least
    two particles, sites and letters: [tf.squeeze] then strips exactly the
    axes the program means it to strip (with a single particle, site or
    letter it strips one more and TensorFlow rejects the graph). *)
Record well_formed (self : VCSMC) (w : World) : Prop := mkWellFormed {
  wf_taxa : length (taxa self) = n self;
  wf_int32 : (Z.of_nat (n self) * Z.of_nat (K self) < 2 ^ 31)%Z
             /\ (Z.of_nat (n self) + 1 < 2 ^ 31)%Z;
  wf_left : rectangular (K self) (n self - 1) (left_branches self);
  wf_right : rectangular (K self) (n self - 1) (right_branches self);
  wf_categorical : forall r d, d < K self -> categorical w r d < K self;
  wf_fuel : n self <= fuel w /\ K self <= fuel w;
  wf_squeeze : 2 <= K self /\ 2 <= s self /\ 2 <= a self
}.

(** The shapes of the loop variables when step [r] begins. *)
Record shape (self : VCSMC) (vars : MainVars) : Prop := mkShape {
  sh_r : r vars <= n self - 1;
  sh_jump_chain_tensor :
    rectangular (K self) (n self - r vars) (jump_chain_tensor vars);
  sh_core : rectangular (K self) (n self - r vars) (core vars);
  sh_v : length (v vars) = K self;
  sh_tilda : length (log_likelihood_tilda vars) = K self;
  sh_log_weights : rectangular (r vars + 1) (K self) (log_weights vars);
  sh_log_likelihood : rectangular (r vars + 1) (K self) (log_likelihood vars);
  sh_jump_chains : length (jump_chains vars) = K self
}.

(** The exponentiated logits of row [i], with the diagonal entry zeroed. *)
Definition exp_row (y : matrix) (i : nat) : list R :=
  TF.set_nth (map exp (TF.set_nth (nth i y []) i 0%R)) i 0%R.

(** Row [i] of [q_entry]. *)
Definition rate_row (y : matrix) (i : nat) : list R :=
  map (fun x => (x * (1 / TF.reduce_sum (exp_row y i)))%R) (exp_row y i).

(** The sum of [f 0], ..., [f (len - 1)]. *)
Fixpoint sum_upto (f : nat -> R) (len : nat) : R :=
  match len with
  | O => 0%R
  | S len' => (sum_upto f len' + f len')%R
  end.

(** The stationary distribution as a vector. *)
Definition stationary_vector (self : VCSMC) : list R :=
  nth 0 (stationary_probs self) [].

(** The likelihood of one site at the root: the stationary distribution
    dotted with the partial likelihood of the site. *)
Definition site_likelihood (self : VCSMC) (site : list R) : R :=
  TF.dot (stationary_vector self) site.

(** The reading of the specification of [treeLikelihood] to the letter:
    the logarithm of the likelihood summed across the sequence positions. *)
Definition log_of_summed_likelihood (self : VCSMC) (data : matrix) : R :=
  ln (TF.reduce_sum (map (site_likelihood self) data)).

(** Index rows that hold two distinct positions below [bound]. *)
Definition pair_rows (bound : nat) (indices : list (list nat)) : Prop :=
  Forall (fun row => exists i1 i2, row = [i1; i2] /\ i1 <> i2
                                   /\ i1 < bound /\ i2 < bound) indices.


(** What the weight loop has recorded for particle [k]. *)
Definition weight_entry (self : VCSMC) (core : list (list matrix))
  (tilda : list R) (indices : list (list nat)) (v0 : list R) (q : R) (i : nat)
  (lw ll vnew : list R) (k : nat) : Prop :=
  nth k ll 0%R = forest_log_likelihood self (nth k core [])
  /\ (i = 0 -> nth k vnew 0%R = 1%R /\ nth k lw 0%R = 0%R)
  /\ (0 < i ->
      overcounting_correct self (nth k v0 0%R) (nth k indices []) i
        = Some (nth k vnew 0%R)
      /\ nth k lw 0%R
         = (nth k ll 0%R - nth k tilda 0%R + ln (nth k vnew 0%R) - ln q)%R).


(** ** Concrete runs

    Small data sets on which the definitions are evaluated.  The
    properties below hold for every [expm]; the worlds here take the
    identity map for it. *)

Module Examples.

Definition onehot (i len : nat) : list R :=
  map (fun j => if j =? i then 1%R else 0%R) (seq 0 len).

Definition ones (rows cols : nat) : matrix := repeat (repeat 1%R cols) rows.

(** Three taxa, two sites, an alphabet of two letters, two particles. *)
Definition self3 : VCSMC :=
  mkVCSMC ["A"; "B"; "C"]%string
          [[onehot 0 2; onehot 0 2]; [onehot 0 2; onehot 1 2];
           [onehot 1 2; onehot 1 2]]
          [[0; 0]; [0; 0]]%R [0; 0]%R 2 (ones 2 2) (ones 2 2).

(** At step 0 particle 0 merges A and C, particle 1 merges C and B. *)
Definition gumbel3 (r k j : nat) : Q :=
  match r, k, j with
  | 0, 0, 0 => 5 # 1
  | 0, 1, 2 => 3 # 1
  | _, _, _ => 0 # 1
  end.

Definition world3 : World := mkWorld (fun m => m) gumbel3 (fun r d => d) 4.

(** Four taxa, two particles. *)
Definition self4 : VCSMC :=
  mkVCSMC ["A"; "B"; "C"; "D"]%string
          [[onehot 0 2; onehot 0 2]; [onehot 0 2; onehot 1 2];
           [onehot 1 2; onehot 0 2]; [onehot 1 2; onehot 1 2]]
          [[0; 0]; [0; 0]]%R [0; 0]%R 2 (ones 2 3) (ones 2 3).

(** At step 1 the noise lifts the two first of the three nodes above the
    last one, so that positions 1 and 0 are merged. *)
Definition gumbel4 (r k j : nat) : Q :=
  match r, j with
  | 1, 0 => 3 # 1
  | 1, 1 => 3 # 1
  | _, _ => 0 # 1
  end.

Definition world4 : World := mkWorld (fun m => m) gumbel4 (fun r d => d) 4.

(** A root whose two sites both show the first letter. *)
Definition root2 : matrix := [onehot 0 2; onehot 0 2].

End Examples.


(** ** The rest of the program *)

(** The object [VCSMC(datadict)] builds and [sample_phylogenies(K)] then
    completes: the logits start at [1/a] (the diagonal of [y_q] is set to
    zero when it is read), the branch lengths at 1. *)
Definition VCSMC_init (datadict_taxa : list string)
  (datadict_genome : list (list (list R))) (K : nat) : VCSMC :=
  let n := length datadict_genome in
  let a := length (nth 0 (nth 0 datadict_genome []) []) in
  mkVCSMC datadict_taxa datadict_genome
          (repeat (repeat (0 + 1 / INR a)%R a) a)
          (repeat (0 + 1 / INR a)%R a)
          K
          (repeat (repeat (0 + 1)%R (n - 1)) K)
          (repeat (repeat (0 + 1)%R (n - 1)) K).

(** The object with other values of the rate logits. *)
Definition with_y_q_var (self : VCSMC) (y : matrix) : VCSMC :=
  mkVCSMC (taxa self) (genome_NxSxA self) y (y_station self) (K self)
          (left_branches self) (right_branches self).

(** The node [body_update_data] builds for particle [k] at step [i]: the
    conditional likelihood of the two nodes of its own row that the pair
    [pair] points to. *)
Definition merged_node (self : VCSMC) (w : World) (core : list (list matrix))
  (pair : list nat) (i k : nat) : matrix :=
  conditional_likelihood self w
    (nth (nth 0 pair 0) (nth k core []) [])
    (nth (nth 1 pair 0) (nth k core []) [])
    (nth i (nth k (left_branches self) []) 0%R)
    (nth i (nth k (right_branches self) []) 0%R).

(** A site that shows letter [x] of an alphabet of [len] letters, as the
    genome tensor encodes it. *)
Definition one_hot (x len : nat) : list R :=
  map (fun j => if j =? x then 1%R else 0%R) (seq 0 len).

(** A matrix without negative entries. *)
Definition nonneg_matrix (m : matrix) : Prop :=
  Forall (Forall (fun x => 0 <= x)%R) m.

(** The positions carried forward at step [r], one row of [top_k]
    positions over the negated scores per particle. *)
Definition kept_positions (self : VCSMC) (w : World) (r : nat)
  : option (list (list nat)) :=
  perturbed <- scores self w r ;;
  bottom <- mapM (fun row => TF.top_k Qle_bool (map Qopp row) (n self - r - 2))
                 perturbed ;;
  Some (map snd bottom).

(** A row of scores without two equal entries. *)
Definition no_ties (row : list Q) : Prop :=
  forall i j, i < length row -> j < length row -> i <> j ->
    ~ (nth i row 0 == nth j row 0)%Q.

(** Larger first: the order [tf.nn.top_k] puts its sorted pairs in. *)
Definition desc (p q : Q * nat) : Prop := (fst q <= fst p)%Q.

(** ** [train] *)

(** The learning rate fed to the optimizer at iteration [i]. *)
Definition learning_rate (i : nat) : R :=
  if i <? 20 then (1 / 10)%R
  else if 200 <? i then (1 / 1000)%R
  else (1 / 100)%R.

(** The trainable variables of the graph. *)
Record Variables : Type := mkVariables {
  var_y_q : matrix;
  var_y_station : list R;
  var_left_branches : matrix;
  var_right_branches : matrix
}.

Definition variables (self : VCSMC) : Variables :=
  mkVariables (y_q_var self) (y_station self) (left_branches self)
              (right_branches self).

(** The object read at other values of its variables. *)
Definition assign (self : VCSMC) (vs : Variables) : VCSMC :=
  mkVCSMC (taxa self) (genome_NxSxA self) (var_y_q vs) (var_y_station vs)
          (K self) (var_left_branches vs) (var_right_branches vs).

(** What [train] takes from the TensorFlow session: [minimize lr w] is
    [sess.run([self.optimizer, self.cost], {learning_rate: lr})] with the
    random draws [w], from the variables and the accumulators of RMSProp to
    their new values and the fetched cost; the other fields are the draws
    of the runs that evaluate the sampler. *)
Record Session (Slots : Type) : Type := mkSession {
  minimize : R -> World -> Variables * Slots -> option (Variables * Slots * R);
  init_slots : Slots;
  draws_initial : World;
  draws_train : nat -> World;
  draws_chains : nat -> World
}.

(** The lists [train] appends to. *)
Record History : Type := mkHistory {
  h_elbos : list R;
  h_Qmatrices : list matrix;
  h_left_branches : list matrix;
  h_right_branches : list matrix;
  h_jump_chain_evolution : list (list (list string))
}.

(** [resultDict]. *)
Record Results : Type := mkResults {
  rd_Qmatrices : list matrix;
  rd_cost : list R;
  rd_nParticles : nat;
  rd_nTaxa : nat;
  rd_left_branches : list matrix;
  rd_right_branches : list matrix;
  rd_jump_chain_evolution : list (list (list string))
}.

(** The particles whose branch lengths an epoch prints. *)
Definition printed_particles (K : nat) : list nat :=
  [0; K / 4; K / 2; 3 * K / 4; K - 1].

(** One pass through the body of the training loop. *)
Definition train_iteration {Slots : Type} (sess : Session Slots)
  (self : VCSMC) (i : nat) (st : Variables * Slots * History)
  : option (Variables * Slots * History) :=
  let '(vs, slots, h) := st in
  '(vs, slots, cost) <-
     minimize sess (learning_rate i) (draws_train sess i) (vs, slots) ;;
  let self := assign self vs in
  let elbos := h_elbos h ++ [(- cost)%R] in
  _ <- TF.gather (left_branches self) (printed_particles (K self)) ;;
  _ <- TF.gather (right_branches self) (printed_particles (K self)) ;;
  let Qmat := Qmatrix self in
  let Qmatrices := h_Qmatrices h ++ [Qmat] in
  let left_branches_ := h_left_branches h ++ [left_branches self] in
  let right_branches_ := h_right_branches h ++ [left_branches self] in
  let w := draws_chains sess i in
  final <- TF.while_loop (fuel w) (cond_main self) (body_main self w)
             (initial_vars self) ;;
  let jump_chain_evolution :=
    h_jump_chain_evolution h ++ [jump_chains final] in
  Some (vs, slots,
        mkHistory elbos Qmatrices left_branches_ right_branches_
                  jump_chain_evolution).

(** [for i in range(numIters)], over the list of the iterations left. *)
Fixpoint train_loop {Slots : Type} (sess : Session Slots) (self : VCSMC)
  (iterations : list nat) (st : Variables * Slots * History)
  : option (Variables * Slots * History) :=
  match iterations with
  | [] => Some st
  | i :: iterations' =>
      st' <- train_iteration sess self i st ;;
      train_loop sess self iterations' st'
  end.

(** [train]: the initial evaluation of the ELBO, the training loop and the
    dictionary that is saved.  The plots are left out. *)
Definition train {Slots : Type} (sess : Session Slots) (self : VCSMC)
  (numIters : nat) : option Results :=
  _ <- sample_phylogenies self (draws_initial sess) ;;
  '(vs, _, h) <-
     train_loop sess self (seq 0 numIters)
       (variables self, init_slots sess, mkHistory [] [] [] [] []) ;;
  Some (mkResults (h_Qmatrices h) (h_elbos h) (K self) (n self)
                  (h_left_branches h) (h_right_branches h)
                  (h_jump_chain_evolution h)).

(** The variables have the shapes [sample_phylogenies] gives them. *)
Definition branch_shapes (self : VCSMC) (vs : Variables) : Prop :=
  rectangular (K self) (n self - 1) (var_left_branches vs)
  /\ rectangular (K self) (n self - 1) (var_right_branches vs).

Module MoreExamples.

(** The run of [Examples.world3] in which every draw of the resampling
    picks particle 0. *)
Definition world3_first : World :=
  mkWorld (expm Examples.world3) (gumbel Examples.world3) (fun _ _ => 0)
          (fuel Examples.world3).

(** A world whose matrix exponential is the one of a branch of length 0. *)
Definition world3_identity : World :=
  mkWorld (fun _ => [[1; 0]; [0; 1]]%R) (gumbel Examples.world3)
          (categorical Examples.world3) (fuel Examples.world3).

(** A session whose optimizer leaves the variables where they are. *)
Definition idle_session : Session unit :=
  mkSession (fun _ _ st => Some (st, 0%R)) tt Examples.world3
            (fun _ => Examples.world3) (fun _ => Examples.world3).

End MoreExamples.

(** * Properties *)

(** ** The option monad and lists *)

Lemma bind_Some {A B : Type} (m : option A) (f : A -> option B) (b : B) :
  bind m f = Some b -> exists x, m = Some x /\ f x = Some b.
Proof.
  destruct m as [x|]; simpl; intros H; [exists x; auto | discriminate].
Qed.

(** Splits a successful chain of binds into its steps. *)
Ltac inv_bind H :=
  let x := fresh "x" in
  let Hx := fresh "E" in
  apply bind_Some in H; destruct H as [x [Hx H]].

Tactic Notation "inv_bind_as" hyp(H) ident(x) ident(Hx) :=
  apply bind_Some in H; destruct H as [x [Hx H]].

Lemma mapM_length {A B : Type} (f : A -> option B) (l : list A) (ys : list B) :
  mapM f l = Some ys -> length ys = length l.
Proof.
  revert ys; induction l as [|x l IH]; simpl; intros ys H.
  - injection H as <-; reflexivity.
  - inv_bind H. inv_bind H. injection H as <-. simpl. f_equal. auto.
Qed.

Lemma mapM_nth_error {A B : Type} (f : A -> option B) (l : list A) (ys : list B) :
  mapM f l = Some ys ->
  forall i y, nth_error ys i = Some y ->
  exists x, nth_error l i = Some x /\ f x = Some y.
Proof.
  revert ys; induction l as [|x l IH]; simpl; intros ys H i y Hy.
  - injection H as <-. destruct i; discriminate.
  - inv_bind H. inv_bind H. injection H as <-.
    destruct i as [|i]; simpl in *.
    + injection Hy as <-. exists x; auto.
    + eapply IH; eauto.
Qed.

Lemma mapM_map {A B : Type} (f : A -> option B) (g : A -> B) (l : list A) :
  (forall x, In x l -> f x = Some (g x)) -> mapM f l = Some (map g l).
Proof.
  induction l as [|x l IH]; simpl; intros H; [reflexivity|].
  rewrite (H x) by auto. simpl. rewrite IH by auto. reflexivity.
Qed.

Lemma mapM_total {A B : Type} (f : A -> option B) (l : list A) :
  (forall x, In x l -> exists y, f x = Some y) -> exists ys, mapM f l = Some ys.
Proof.
  induction l as [|x l IH]; simpl; intros H; [eexists; reflexivity|].
  destruct (H x) as [y Hy]; auto.
  destruct IH as [ys Hys]; auto.
  rewrite Hy, Hys. simpl. eexists; reflexivity.
Qed.

Lemma mapM_Forall {A B : Type} (f : A -> option B) (P : B -> Prop)
  (l : list A) (ys : list B) :
  mapM f l = Some ys ->
  (forall x y, In x l -> f x = Some y -> P y) -> Forall P ys.
Proof.
  revert ys; induction l as [|x l IH]; simpl; intros ys H HP.
  - injection H as <-; constructor.
  - inv_bind H. inv_bind H. injection H as <-. constructor; eauto.
Qed.

Lemma gather1_lt {A : Type} (l : list A) (i : nat) :
  i < length l -> exists x, TF.gather1 l i = Some x.
Proof.
  intros H. unfold TF.gather1.
  destruct (nth_error l i) eqn:E; [eauto|].
  apply nth_error_None in E. lia.
Qed.

Lemma gather_length {A : Type} (l : list A) (idx : list nat) (ys : list A) :
  TF.gather l idx = Some ys -> length ys = length idx.
Proof. apply mapM_length. Qed.

Lemma gather_total {A : Type} (l : list A) (idx : list nat) :
  Forall (fun i => i < length l) idx -> exists ys, TF.gather l idx = Some ys.
Proof.
  intros H. apply mapM_total. intros i Hi.
  apply gather1_lt. rewrite Forall_forall in H. auto.
Qed.

Lemma gather_seq {A : Type} (l : list A) (lo len : nat) :
  lo + len <= length l ->
  TF.gather l (seq lo len) = Some (firstn len (skipn lo l)).
Proof.
  revert lo; induction len as [|len IH]; intros lo H; simpl.
  - reflexivity.
  - unfold TF.gather in *. simpl.
    destruct (gather1_lt l (i:=lo)) as [x Hx]; [lia|].
    rewrite Hx. simpl. rewrite (IH (S lo)) by lia. simpl.
    unfold TF.gather1 in Hx.
    assert (Hs : skipn lo l = x :: skipn (S lo) l).
    { clear - Hx. revert lo Hx. induction l as [|y l IHl]; intros [|lo] Hx;
        simpl in *; try discriminate.
      - injection Hx as ->; reflexivity.
      - apply IHl in Hx. rewrite Hx. reflexivity. }
    rewrite Hs. reflexivity.
Qed.

(** ** [tf.while_loop] with a counter *)

Section CountingLoop.
Variable S : Type.
Variable cond : S -> bool.
Variable body : S -> option S.
Variable idx : S -> nat.
Variable bound : nat.
Variable Inv : S -> Prop.

Hypothesis cond_idx : forall st, Inv st -> cond st = (idx st <? bound).
Hypothesis body_step :
  forall st, Inv st -> idx st < bound ->
  exists st', body st = Some st' /\ Inv st' /\ idx st' = Datatypes.S (idx st).

(** A loop whose counter goes up by one per iteration runs until the
    counter meets the bound, keeps its invariant, and needs no more fuel
    than the distance to the bound. *)
Lemma while_loop_counting (fuel : nat) (st : S) :
  Inv st -> idx st <= bound -> bound - idx st <= fuel ->
  exists st', TF.while_loop fuel cond body st = Some st'
              /\ Inv st' /\ idx st' = bound.
Proof.
  revert st; induction fuel as [|fuel IH]; intros st HI Hle Hfuel.
  - assert (idx st = bound) by lia.
    exists st. simpl. rewrite cond_idx by assumption.
    replace (idx st <? bound) with false by (symmetry; apply Nat.ltb_ge; lia).
    auto.
  - simpl. rewrite cond_idx by assumption.
    destruct (idx st <? bound) eqn:E.
    + apply Nat.ltb_lt in E.
      destruct (body_step HI E) as [st' [Hb [HI' Hi']]].
      rewrite Hb. simpl. apply IH; auto; lia.
    + apply Nat.ltb_ge in E. exists st. split; [reflexivity|].
      split; [assumption | lia].
Qed.
End CountingLoop.

(** ** [ncr] and the proposal probability *)

Lemma wrap32_small (z : Z) :
  (- 2 ^ 31 <= z < 2 ^ 31)%Z -> TF.wrap32 z = z.
Proof.
  intros H. unfold TF.wrap32. rewrite Z.mod_small; lia.
Qed.

Lemma range_ok (lo hi : Z) :
  (lo <= hi)%Z ->
  TF.range lo hi
  = Some (map (fun i => (lo + Z.of_nat i)%Z) (seq 0 (Z.to_nat (hi - lo)))).
Proof.
  intros H. unfold TF.range.
  replace (lo <=? hi)%Z with true by (symmetry; apply Z.leb_le; exact H).
  reflexivity.
Qed.

(** [ncr m 2] never fails for [2 <= m < 2^31 - 1]: it divides the wrapped
    product [(m - 1) * m] by 2. *)
Lemma ncr_2_wrapped (m : Z) :
  (2 <= m)%Z -> (m + 1 < 2 ^ 31)%Z ->
  ncr m 2 = Some (IZR (TF.wrap32 ((m - 1) * m)) / 2)%R.
Proof.
  intros Hm Hlt.
  unfold ncr.
  rewrite (wrap32_small (z := (m - 2)%Z)) by lia.
  rewrite (wrap32_small (z := (m - 2 + 1)%Z)) by lia.
  rewrite (wrap32_small (z := (m + 1)%Z)) by lia.
  rewrite range_ok by lia. cbn [bind].
  rewrite range_ok by lia. cbn [bind].
  unfold TF.reduce_prod.
  replace (m + 1 - (m - 2 + 1))%Z with 2%Z by lia.
  replace (2 + 1 - 1)%Z with 2%Z by lia.
  change (Z.to_nat 2) with 2.
  cbn [seq map fold_left].
  change (Z.of_nat 0) with 0%Z. change (Z.of_nat 1) with 1%Z.
  replace (m - 2 + 1 + 0)%Z with (m - 1)%Z by lia.
  replace (m - 2 + 1 + 1)%Z with m by lia.
  rewrite !Z.mul_1_l.
  rewrite (wrap32_small (z := (m - 1)%Z)) by lia.
  change (TF.wrap32 (1 + 1)) with 2%Z.
  reflexivity.
Qed.

Lemma ncr_2 (m : Z) :
  (2 <= m)%Z -> (m * (m - 1) < 2 ^ 31)%Z ->
  ncr m 2 = Some (IZR (m * (m - 1)) / 2)%R.
Proof.
  intros Hm Hprod.
  rewrite ncr_2_wrapped by nia.
  rewrite (wrap32_small (z := ((m - 1) * m)%Z)) by nia.
  replace ((m - 1) * m)%Z with (m * (m - 1))%Z by lia.
  reflexivity.
Qed.

Lemma proposal_q_total (n r : nat) :
  2 <= n - r -> (Z.of_nat n + 1 < 2 ^ 31)%Z ->
  exists q, proposal_q n r = Some q.
Proof.
  intros Hm Hfit. unfold proposal_q.
  rewrite ncr_2_wrapped by lia. cbn [bind]. eexists; reflexivity.
Qed.

Lemma pairs_among_closed (m : nat) :
  2 <= m -> pairs_among m = (INR m * (INR m - 1) / 2)%R.
Proof.
  intros Hm. unfold pairs_among, C.
  destruct m as [|[|k]]; try lia.
  replace (S (S k) - 2) with k by lia.
  change (fact (S (S k))) with (S (S k) * (S k * fact k)).
  rewrite !mult_INR.
  assert (Hf : INR (fact k) <> 0%R) by apply INR_fact_neq_0.
  change (fact 2) with 2. rewrite (S_INR (S k)).
  change (INR 2) with 2%R.
  field. assumption.
Qed.

(** Where the products of [ncr] fit: for [m = n - r >= 2] nodes, as long
    as [m (m - 1)] stays within the signed 32-bit integers in which [ncr]
    multiplies, the proposal probability returned by
    [extend_partial_state] is [1 / C(m,2) = 2 / (m (m - 1))]. *)
Theorem proposal_q_exact_within_int32 (self : VCSMC) (w : World)
  (JCK : list (list string)) (r : nat) :
  2 <= n self - r ->
  (Z.of_nat (n self - r) * (Z.of_nat (n self - r) - 1) < 2 ^ 31)%Z ->
  proposal_q (n self) r = Some (1 / pairs_among (n self - r))%R
  /\ (1 / pairs_among (n self - r)
      = 2 / (INR (n self - r) * (INR (n self - r) - 1)))%R
  /\ (forall ext, extend_partial_state self w JCK r = Some ext ->
                  ext_q ext = (1 / pairs_among (n self - r))%R).
Proof.
  intros Hm Hfit.
  set (m := n self - r) in *.
  assert (Hm2 : (2 <= INR m)%R)
    by (change 2%R with (INR 2); apply le_INR; assumption).
  assert (Hq : proposal_q (n self) r = Some (1 / pairs_among m)%R).
  { unfold proposal_q.
    replace (Z.of_nat (n self) - Z.of_nat r)%Z with (Z.of_nat m)
      by (unfold m; lia).
    rewrite ncr_2 by (try assumption; lia). cbn [bind]. f_equal.
    rewrite pairs_among_closed by assumption.
    rewrite mult_IZR, minus_IZR, <- INR_IZR_INZ. reflexivity. }
  split; [exact Hq|]. split.
  - rewrite pairs_among_closed by assumption. field. split; lra.
  - intros ext H. unfold extend_partial_state in H.
    rewrite Hq in H. cbn [bind] in H.
    repeat inv_bind H. injection H as <-. reflexivity.
Qed.

Lemma proposal_q_exact_within_int32_witness :
  proposal_q 3 0 = Some (1 / pairs_among 3)%R.
Proof.
  apply (proposal_q_exact_within_int32 Examples.self3 Examples.world3
           (repeat (taxa Examples.self3) 2) 0).
  - vm_compute; lia.
  - vm_compute; reflexivity.
Defined.

(** C9 on the code: [ncr] multiplies in signed 32-bit integers.  With
    46342 nodes the product [46341 * 46342] wraps to a negative number, so
    the proposal probability [q = 1 / ncr(m, 2)] is negative and differs
    from [1 / C(m,2) = 2 / (m (m - 1))]. *)
Lemma proposal_q_wraps_at_46342 :
  exists q,
    proposal_q (Z.to_nat 46342) 0 = Some q
    /\ (q < 0)%R
    /\ q <> (2 / (46342 * (46342 - 1)))%R.
Proof.
  assert (Hn : ncr 46342 2 = Some (IZR (-2147432674) / 2)%R).
  { rewrite ncr_2_wrapped by lia. do 3 f_equal. }
  exists (1 / (IZR (-2147432674) / 2))%R.
  assert (Hneg : (1 / (IZR (-2147432674) / 2) < 0)%R).
  { assert (0 < / 2147432674)%R by (apply Rinv_0_lt_compat; lra).
    replace (1 / (-2147432674 / 2))%R with (- (2 * / 2147432674))%R
      by (field; lra).
    lra. }
  split; [|split; [exact Hneg|]].
  - unfold proposal_q. rewrite Z2Nat.id by lia.
    change (Z.of_nat 0) with 0%Z. rewrite Z.sub_0_r, Hn. reflexivity.
  - intros Heq. rewrite Heq in Hneg.
    assert (0 < 2 / (46342 * (46342 - 1)))%R.
    { apply Rdiv_lt_0_compat; lra. }
    lra.
Qed.

(** ** [tf.nn.top_k] *)

Section TopKFacts.
Variable A : Type.
Variable leb : A -> A -> bool.

Lemma insert_desc_perm (x : A * nat) (l : list (A * nat)) :
  Permutation (TF.insert_desc leb x l) (x :: l).
Proof.
  induction l as [|y l IH]; simpl; [reflexivity|].
  destruct (leb (fst y) (fst x)); [reflexivity|].
  rewrite IH. apply perm_swap.
Qed.

Lemma sort_desc_perm (xs : list A) :
  Permutation (TF.sort_desc leb xs) (combine xs (seq 0 (length xs))).
Proof.
  unfold TF.sort_desc.
  induction (combine xs (seq 0 (length xs))) as [|p l IH]; simpl;
    [reflexivity|].
  rewrite insert_desc_perm. constructor. exact IH.
Qed.

Lemma snd_combine_seq (xs : list A) (lo : nat) :
  map snd (combine xs (seq lo (length xs))) = seq lo (length xs).
Proof.
  revert lo; induction xs as [|x xs IH]; intros lo; simpl; [reflexivity|].
  rewrite IH. reflexivity.
Qed.

Lemma sort_desc_positions (xs : list A) :
  Permutation (map snd (TF.sort_desc leb xs)) (seq 0 (length xs)).
Proof.
  rewrite <- (snd_combine_seq xs 0).
  apply Permutation_map, sort_desc_perm.
Qed.

Lemma firstn_In {B : Type} (k : nat) (l : list B) (x : B) :
  In x (firstn k l) -> In x l.
Proof.
  revert k; induction l as [|y l IH]; intros [|k] H; simpl in *;
    try contradiction.
  destruct H as [H|H]; [left; exact H | right; eapply IH; exact H].
Qed.

Lemma NoDup_firstn {B : Type} (k : nat) (l : list B) :
  NoDup l -> NoDup (firstn k l).
Proof.
  revert k; induction l as [|x l IH]; intros [|k] H; simpl;
    try constructor.
  - inversion H; subst. intros Hin. apply firstn_In in Hin. contradiction.
  - inversion H; subst. auto.
Qed.

(** The positions returned by [top_k]: as many as asked for, all inside
    the vector, no position twice. *)
Lemma top_k_positions (xs : list A) (k : nat) (vals : list A) (idx : list nat) :
  TF.top_k leb xs k = Some (vals, idx) ->
  length idx = k /\ k <= length xs
  /\ Forall (fun i => i < length xs) idx /\ NoDup idx.
Proof.
  unfold TF.top_k. destruct (k <=? length xs) eqn:Hk; [|discriminate].
  apply Nat.leb_le in Hk. intros H. injection H as _ <-.
  pose proof (sort_desc_positions xs) as Hp.
  assert (Hlen : length (TF.sort_desc leb xs) = length xs).
  { rewrite <- (length_map snd), (Permutation_length Hp). apply length_seq. }
  rewrite <- firstn_map.
  split; [|split; [|split]].
  - rewrite length_firstn, length_map. lia.
  - exact Hk.
  - apply Forall_forall. intros i Hi. apply firstn_In in Hi.
    apply (Permutation_in _ Hp) in Hi. apply in_seq in Hi. lia.
  - apply NoDup_firstn.
    apply (Permutation_NoDup (Permutation_sym Hp)), seq_NoDup.
Qed.

Lemma top_k_total (xs : list A) (k : nat) :
  k <= length xs -> exists res, TF.top_k leb xs k = Some res.
Proof.
  intros H. unfold TF.top_k.
  replace (k <=? length xs) with true by (symmetry; apply Nat.leb_le; exact H).
  eexists; reflexivity.
Qed.
End TopKFacts.

(** ** The scores of [extend_partial_state] *)

Lemma chunks_rows_eq {A : Type} (flat : list A) (rows cols : nat) :
  length flat = rows * cols ->
  rectangular rows cols (TF.chunks flat rows cols).
Proof.
  revert flat; induction rows as [|rows IH]; intros flat H; simpl.
  - split; [reflexivity | constructor].
  - destruct (IH (skipn cols flat)) as [Hl Hr].
    { rewrite length_skipn. simpl in H. lia. }
    split; [simpl; f_equal; exact Hl|].
    constructor; [|exact Hr].
    rewrite length_firstn. simpl in H. lia.
Qed.

Lemma reshape_shape {A : Type} (flat : list A) (rows cols : nat)
  (t : list (list A)) :
  TF.reshape flat rows cols = Some t -> rectangular rows cols t.
Proof.
  unfold TF.reshape. destruct (length flat =? rows * cols) eqn:E;
    [|discriminate].
  intros H. injection H as <-. apply chunks_rows_eq.
  apply Nat.eqb_eq. exact E.
Qed.

Lemma Forall_map {A B : Type} (f : A -> B) (P : B -> Prop) (l : list A) :
  Forall (fun x => P (f x)) l -> Forall P (map f l).
Proof. induction 1; simpl; constructor; auto. Qed.

Lemma rectangular_map_map {A B : Type} (f : A -> B) (rows cols : nat)
  (t : list (list A)) :
  rectangular rows cols t -> rectangular rows cols (map (map f) t).
Proof.
  intros [Hl Hr]. split; [rewrite length_map; exact Hl|].
  apply Forall_map. eapply Forall_impl; [|exact Hr].
  intros row H. simpl. rewrite length_map. exact H.
Qed.

(** Whenever the scores exist they form a [K] by [n - r] table. *)
Lemma score_data_shape (self : VCSMC) (r : nat) (data : list (list Q)) :
  score_data self r = Some data ->
  rectangular (K self) (n self - r) data.
Proof.
  unfold score_data. intros H. inv_bind H. inv_bind H. injection H as <-.
  apply rectangular_map_map, rectangular_map_map.
  eapply reshape_shape. eassumption.
Qed.

Lemma noise_rows (w : World) (r : nat) (data : list (list Q)) (lo : nat) :
  map (@length Q)
      (map (fun kr => map (fun j => gumbel w r (fst kr) j)
                          (seq 0 (length (snd kr))))
           (combine (seq lo (length data)) data))
  = map (@length Q) data.
Proof.
  revert lo; induction data as [|row data IH]; intros lo; simpl;
    [reflexivity|].
  rewrite length_map, length_seq, IH. reflexivity.
Qed.

Lemma add_noise_rectangular (data z : list (list Q)) (rows cols : nat) :
  rectangular rows cols data ->
  map (@length Q) z = map (@length Q) data ->
  rectangular rows cols (add_noise data z).
Proof.
  intros [Hlen Hrows] Hz. subst rows. unfold add_noise.
  revert z Hz; induction Hrows as [|row data Hrow _ IH]; intros z Hz.
  - split; [reflexivity | constructor].
  - destruct z as [|zr z]; simpl in Hz; [discriminate|].
    injection Hz as Hzr Hz.
    destruct (IH z Hz) as [Hl Hr].
    split; simpl.
    + f_equal. exact Hl.
    + constructor; [|exact Hr].
      rewrite length_map, length_combine. lia.
Qed.

Lemma scores_shape (self : VCSMC) (w : World) (r : nat)
  (perturbed : list (list Q)) :
  scores self w r = Some perturbed ->
  rectangular (K self) (n self - r) perturbed.
Proof.
  unfold scores. intros H. inv_bind H. injection H as <-.
  apply add_noise_rectangular.
  - eapply score_data_shape. eassumption.
  - apply noise_rows.
Qed.

(** The positions chosen among the scores of one step. *)
Lemma sampled_pairs_in_range (self : VCSMC) (w : World) (r : nat)
  (top : list (list Q * list nat)) :
  sampled_pairs self w r = Some top ->
  length top = K self /\ pair_rows (n self - r) (map snd top).
Proof.
  unfold sampled_pairs. intros H. inv_bind_as H perturbed Hsc.
  destruct (scores_shape _ _ _ Hsc) as [Hlen Hrows].
  rewrite Forall_forall in Hrows.
  split; [rewrite (mapM_length _ _ H); exact Hlen|].
  apply Forall_map. eapply mapM_Forall; [exact H|].
  intros row [vals idx] Hin Hk. simpl.
  apply top_k_positions in Hk. destruct Hk as [Hl [_ [Hlt Hnd]]].
  rewrite (Hrows row Hin) in Hlt.
  destruct idx as [|i1 [|i2 [|]]]; simpl in Hl; try discriminate.
  exists i1, i2. inversion Hlt as [|? ? H1 Hlt']; subst.
  inversion Hlt' as [|? ? H2 _]; subst.
  inversion Hnd as [|? ? Hn1 _]; subst.
  repeat split; try assumption.
  intros ->. apply Hn1. left; reflexivity.
Qed.

Lemma extend_partial_state_pairs (self : VCSMC) (w : World)
  (JCK : list (list string)) (r : nat) (ext : Extension) :
  extend_partial_state self w JCK r = Some ext ->
  exists top, sampled_pairs self w r = Some top
              /\ coalesced_indices ext = map snd top.
Proof.
  intros H. unfold extend_partial_state in H.
  inv_bind_as H q Hq. inv_bind_as H data Hdata. inv_bind_as H top Htop.
  repeat inv_bind H. injection H as <-. simpl.
  exists top. split; [|reflexivity].
  unfold sampled_pairs, scores. rewrite Hdata. cbn [bind]. exact Htop.
Qed.

(** The pairs produced by [extend_partial_state]: two distinct positions
    per particle, both below [n - r]. *)
Lemma coalesced_indices_in_range (self : VCSMC) (w : World)
  (JCK : list (list string)) (r : nat) (ext : Extension) :
  extend_partial_state self w JCK r = Some ext ->
  pair_rows (n self - r) (coalesced_indices ext).
Proof.
  intros H.
  destruct (extend_partial_state_pairs _ _ _ _ H) as [top [Htop ->]].
  apply (sampled_pairs_in_range _ _ _ Htop).
Qed.

(** ** The loop over the forest *)

Lemma firstn_snoc {A : Type} (l : list A) (j : nat) (x : A) :
  nth_error l j = Some x -> firstn (S j) l = firstn j l ++ [x].
Proof.
  revert j; induction l as [|y l IH]; intros [|j] H; simpl in *;
    try discriminate.
  - injection H as ->; reflexivity.
  - f_equal. apply IH. exact H.
Qed.

Lemma nth_error_lt {A : Type} (l : list A) (i : nat) :
  i < length l -> exists x, nth_error l i = Some x.
Proof. apply gather1_lt. Qed.

Lemma forest_loop (self : VCSMC) (fuel : nat) (core : list (list matrix))
  (i k : nat) (row : list matrix) :
  nth_error core k = Some row ->
  length row = n self - 1 - i ->
  n self - 1 - i <= fuel ->
  TF.while_loop fuel (cond_compute_forest self) (body_compute_forest self)
                (0%R, core, i, k, 0)
  = Some (forest_log_likelihood self row, core, i, k, n self - 1 - i).
Proof.
  intros Hrow Hlen Hfuel.
  pose (Inv := fun st : ForestVars =>
          exists j, j <= n self - 1 - i /\
            st = (forest_log_likelihood self (firstn j row), core, i, k, j)).
  destruct (@while_loop_counting ForestVars (cond_compute_forest self)
              (body_compute_forest self) (fun st => snd st) (n self - 1 - i) Inv)
    with (fuel := fuel) (st := (0%R, core, i, k, 0)) as [st' [Hrun [HI Hidx]]].
  - intros st [j [_ ->]]. reflexivity.
  - intros st [j [Hj ->]] Hlt. simpl in Hlt.
    destruct (nth_error_lt row (i:=j)) as [node Hnode]; [lia|].
    exists (forest_log_likelihood self (firstn (S j) row), core, i, k, S j).
    split; [|split].
    + unfold body_compute_forest, TF.gather_nd2, TF.gather1.
      rewrite Hrow. cbn [bind]. rewrite Hnode. cbn [bind].
      rewrite Nat.add_1_r, (firstn_snoc row j Hnode).
      unfold forest_log_likelihood.
      rewrite fold_left_app. reflexivity.
    + exists (S j). split; [lia | reflexivity].
    + reflexivity.
  - exists 0. split; [lia | reflexivity].
  - simpl; lia.
  - simpl; lia.
  - rewrite Hrun. destruct HI as [j [Hj ->]]. simpl in Hidx. subst j.
    rewrite <- Hlen, firstn_all. reflexivity.
Qed.

(** ** Rows of a rectangular tensor *)

Lemma rectangular_row {A : Type} (rows cols : nat) (t : list (list A)) (k : nat) :
  rectangular rows cols t -> k < rows ->
  exists row, nth_error t k = Some row /\ length row = cols.
Proof.
  intros [Hlen Hrows] Hk.
  destruct (nth_error_lt t (i:=k)) as [row Hrow]; [lia|].
  exists row. split; [exact Hrow|].
  rewrite Forall_forall in Hrows. apply Hrows.
  eapply nth_error_In; exact Hrow.
Qed.

Lemma nth_error_nth_default {A : Type} (l : list A) (i : nat) (x d : A) :
  nth_error l i = Some x -> nth i l d = x.
Proof. intros H. apply nth_error_nth. exact H. Qed.

Lemma nth_error_snoc {A : Type} (l : list A) (x : A) (i : nat) :
  i = length l -> nth_error (l ++ [x]) i = Some x.
Proof.
  intros ->. rewrite nth_error_app2 by lia. rewrite Nat.sub_diag. reflexivity.
Qed.

(** ** The loop that builds the merged nodes *)

Lemma pair_rows_row (bound : nat) (indices : list (list nat)) (k : nat) :
  pair_rows bound indices -> k < length indices ->
  exists i1 i2, nth_error indices k = Some [i1; i2] /\ i1 < bound /\ i2 < bound.
Proof.
  intros Hp Hk.
  destruct (nth_error_lt indices (i:=k)) as [row Hrow]; [lia|].
  unfold pair_rows in Hp. rewrite Forall_forall in Hp.
  destruct (Hp row (nth_error_In _ _ Hrow)) as [i1 [i2 [-> [_ [H1 H2]]]]].
  exists i1, i2. auto.
Qed.

Lemma data_loop (self : VCSMC) (w : World) (new0 : list (list matrix))
  (core : list (list matrix)) (indices : list (list nat)) (i m : nat) :
  rectangular (K self) m core ->
  length indices = K self -> pair_rows m indices ->
  rectangular (K self) (n self - 1) (left_branches self) ->
  rectangular (K self) (n self - 1) (right_branches self) ->
  i < n self - 1 ->
  K self <= fuel w ->
  exists nd,
    TF.while_loop (fuel w) (cond_update_data self) (body_update_data self w)
                  (new0, core, indices, i, 0)
    = Some (new0 ++ nd, core, indices, i, K self)
    /\ length nd = K self /\ Forall (fun x => length x = 1) nd.
Proof.
  intros Hcore Hlen Hpairs Hleft Hright Hi Hfuel.
  pose (Inv := fun st : DataVars =>
          exists nd, st = (new0 ++ nd, core, indices, i, length nd)
                     /\ Forall (fun x : list matrix => length x = 1) nd).
  destruct (@while_loop_counting DataVars (cond_update_data self)
              (body_update_data self w) (fun st => snd st) (K self) Inv)
    with (fuel := fuel w) (st := (new0, core, indices, i, 0))
    as [st' [Hrun [HI Hidx]]].
  - intros st [nd [-> _]]. reflexivity.
  - intros st [nd [-> Hnd]] Hlt. simpl in Hlt.
    set (k := length nd) in *.
    destruct (pair_rows_row (k:=k) Hpairs) as [n1 [n2 [Hrow [H1 H2]]]]; [lia|].
    destruct (rectangular_row (k:=k) Hcore Hlt) as [crow [Hcrow Hclen]].
    destruct (nth_error_lt crow (i:=n1)) as [l_data Hl]; [lia|].
    destruct (nth_error_lt crow (i:=n2)) as [r_data Hr]; [lia|].
    destruct (rectangular_row (k:=k) Hleft Hlt) as [lrow [Hlrow Hllen]].
    destruct (rectangular_row (k:=k) Hright Hlt) as [rrow [Hrrow Hrlen]].
    destruct (nth_error_lt lrow (i:=i)) as [l_branch Hlb]; [lia|].
    destruct (nth_error_lt rrow (i:=i)) as [r_branch Hrb]; [lia|].
    eexists. split; [|split].
    + unfold body_update_data, TF.gather_nd2, TF.gather1.
      rewrite Hrow. cbn [bind nth_error]. rewrite Hcrow. cbn [bind].
      rewrite Hl, Hr. cbn [bind]. rewrite Hlrow, Hrrow. cbn [bind].
      rewrite Hlb, Hrb. cbn [bind]. rewrite <- app_assoc. reflexivity.
    + eexists. split.
      * f_equal. rewrite length_app. simpl. reflexivity.
      * apply Forall_app. split; [exact Hnd|]. repeat constructor.
    + simpl. fold k. lia.
  - exists []. rewrite app_nil_r. split; [reflexivity | constructor].
  - simpl; lia.
  - simpl; lia.
  - destruct HI as [nd [-> Hnd]]. simpl in Hidx.
    exists nd. rewrite Hrun, Hidx. auto.
Qed.

(** ** The overcounting correction *)

Lemma overcounting_correct_pair (self : VCSMC) (v : R) (idx1 idx2 i : nat) :
  exists c, overcounting_correct self v [idx1; idx2] i = Some c.
Proof. unfold overcounting_correct. simpl. eexists; reflexivity. Qed.

(** ** The loop over the particles that computes the weights *)

Lemma weight_entry_snoc (self : VCSMC) core tilda indices v0 q i lw ll vnew
  (x y z : R) (k : nat) :
  k < length lw -> length ll = length lw -> length vnew = length lw ->
  weight_entry self core tilda indices v0 q i lw ll vnew k ->
  weight_entry self core tilda indices v0 q i (lw ++ [x]) (ll ++ [y])
               (vnew ++ [z]) k.
Proof.
  intros Hk Hll Hv. unfold weight_entry.
  rewrite !app_nth1 by lia. tauto.
Qed.

Lemma weights_loop (self : VCSMC) (w : World) (core : list (list matrix))
  (tilda : list R) (indices : list (list nat)) (v0 : list R) (q : R)
  (i m : nat) :
  rectangular (K self) (n self - 1 - i) core ->
  length tilda = K self -> length v0 = K self ->
  length indices = K self -> pair_rows m indices ->
  n self <= fuel w -> K self <= fuel w ->
  exists lw ll vnew,
    TF.while_loop (fuel w) (cond_update_weights self) (body_update_weights self w)
                  (mkWeightVars [0%R] [0%R] tilda indices core v0 q i 0)
    = Some (mkWeightVars (0%R :: lw) (0%R :: ll) tilda indices core
                         (v0 ++ vnew) q i (K self))
    /\ length lw = K self /\ length ll = K self /\ length vnew = K self
    /\ forall k, k < K self ->
         weight_entry self core tilda indices v0 q i lw ll vnew k.
Proof.
  intros Hcore Htilda Hv0 Hlen Hpairs Hfn HfK.
  pose (Inv := fun st : WeightVars =>
          exists lw ll vnew,
            st = mkWeightVars (0%R :: lw) (0%R :: ll) tilda indices core
                              (v0 ++ vnew) q i (length lw)
            /\ length ll = length lw /\ length vnew = length lw
            /\ forall k, k < length lw ->
                 weight_entry self core tilda indices v0 q i lw ll vnew k).
  destruct (@while_loop_counting WeightVars (cond_update_weights self)
              (body_update_weights self w) wv_k (K self) Inv)
    with (fuel := fuel w)
         (st := mkWeightVars [0%R] [0%R] tilda indices core v0 q i 0)
    as [st' [Hrun [HI Hidx]]].
  - intros st [lw [ll [vnew [-> _]]]]. reflexivity.
  - intros st [lw [ll [vnew [-> [Hll [Hvn Hentries]]]]]] Hlt. simpl in Hlt.
    set (k := length lw) in *.
    destruct (rectangular_row (k:=k) Hcore Hlt) as [crow [Hcrow Hclen]].
    destruct (pair_rows_row (k:=k) Hpairs) as [i1 [i2 [Hrow _]]]; [lia|].
    destruct (nth_error_lt v0 (i:=k)) as [v_k Hvk]; [lia|].
    destruct (nth_error_lt tilda (i:=k)) as [t_k Htk]; [lia|].
    destruct (overcounting_correct_pair self v_k i1 i2 i) as [c Hc].
    set (ll_k := forest_log_likelihood self crow).
    assert (Hforest :
      TF.while_loop (fuel w) (cond_compute_forest self)
        (body_compute_forest self) (0%R, core, i, k, 0)
      = Some (ll_k, core, i, k, n self - 1 - i)).
    { apply forest_loop; auto. lia. }
    assert (Hnew : forall x y z,
      (forall d : R, nth k (lw ++ [x]) d = x)
      /\ (forall d : R, nth k (ll ++ [y]) d = y)
      /\ (forall d : R, nth k (vnew ++ [z]) d = z)).
    { intros x y z. repeat split; intros d.
      - unfold k. apply nth_middle.
      - rewrite <- Hll. apply nth_middle.
      - rewrite <- Hvn. apply nth_middle. }
    destruct (0 <? i) eqn:Hi.
    + (* a step after the first: the weight is corrected *)
      apply Nat.ltb_lt in Hi.
      exists (mkWeightVars (0%R :: lw ++ [(ll_k - t_k + ln c - ln q)%R])
                           (0%R :: ll ++ [ll_k]) tilda indices core
                           (v0 ++ vnew ++ [c]) q i (S k)).
      split; [|split].
      * unfold body_update_weights. rewrite Hforest. cbn [bind].
        replace (0 <? i) with true by (symmetry; apply Nat.ltb_lt; exact Hi).
        unfold cond_true_update_weights, TF.gather1.
        rewrite nth_error_app1 by lia. rewrite Hvk, Hrow. cbn [bind].
        rewrite Hc. cbn [bind].
        rewrite (nth_error_snoc (0%R :: ll) ll_k (i:=k + 1))
          by (simpl; try unfold k; lia).
        cbn [bind]. rewrite Htk. cbn [bind].
        rewrite (nth_error_snoc (v0 ++ vnew) c (i:=k + K self))
          by (rewrite length_app; try unfold k; lia).
        cbn [bind]. rewrite <- app_assoc, Nat.add_1_r. reflexivity.
      * exists (lw ++ [(ll_k - t_k + ln c - ln q)%R]), (ll ++ [ll_k]),
               (vnew ++ [c]).
        rewrite !length_app. simpl length.
        split; [f_equal; fold k; lia|].
        split; [lia|]. split; [lia|].
        intros k' Hk'. fold k in Hk'.
        destruct (Nat.eq_dec k' k) as [->|Hne].
        -- destruct (Hnew (ll_k - t_k + ln c - ln q)%R ll_k c) as [N1 [N2 N3]].
           unfold weight_entry. rewrite N1, N2, N3.
           rewrite (nth_error_nth_default _ _ [] Hcrow).
           rewrite (nth_error_nth_default _ _ 0%R Hvk).
           rewrite (nth_error_nth_default _ _ 0%R Htk).
           rewrite (nth_error_nth_default _ _ [] Hrow).
           split; [reflexivity|]. split; [lia|]. auto.
        -- apply weight_entry_snoc; try lia. apply Hentries. lia.
      * simpl. fold k. lia.
    + (* the first step: weight 0, multiplicity 1 *)
      apply Nat.ltb_ge in Hi.
      exists (mkWeightVars (0%R :: lw ++ [0%R])
                           (0%R :: ll ++ [ll_k]) tilda indices core
                           (v0 ++ vnew ++ [1%R]) q i (S k)).
      split; [|split].
      * unfold body_update_weights. rewrite Hforest. cbn [bind].
        replace (0 <? i) with false by (symmetry; apply Nat.ltb_ge; exact Hi).
        unfold cond_false_update_weights. cbn [bind].
        rewrite <- app_assoc, Nat.add_1_r. reflexivity.
      * exists (lw ++ [0%R]), (ll ++ [ll_k]), (vnew ++ [1%R]).
        rewrite !length_app. simpl length.
        split; [f_equal; fold k; lia|].
        split; [lia|]. split; [lia|].
        intros k' Hk'. fold k in Hk'.
        destruct (Nat.eq_dec k' k) as [->|Hne].
        -- destruct (Hnew 0%R ll_k 1%R) as [N1 [N2 N3]].
           unfold weight_entry. rewrite N1, N2, N3.
           rewrite (nth_error_nth_default _ _ [] Hcrow).
           split; [reflexivity|]. split; [auto | lia].
        -- apply weight_entry_snoc; try lia. apply Hentries. lia.
      * simpl. fold k. lia.
  - exists [], [], []. rewrite app_nil_r.
    split; [reflexivity|]. split; [reflexivity|]. split; [reflexivity|].
    intros k Hk. simpl in Hk. lia.
  - simpl; lia.
  - simpl; lia.
  - destruct HI as [lw [ll [vnew [-> [Hll [Hvn Hentries]]]]]].
    simpl in Hidx. exists lw, ll, vnew.
    rewrite Hrun, <- Hidx. split; [reflexivity|]. split; [reflexivity|].
    split; [exact Hll|]. split; [exact Hvn|].
    exact Hentries.
Qed.

(** ** Shapes of gathered and concatenated tensors *)

Lemma gather2_total {A : Type} (flat : list A) (idx : list (list nat)) :
  Forall (Forall (fun i => i < length flat)) idx ->
  exists t, TF.gather2 flat idx = Some t /\ length t = length idx
            /\ forall c, Forall (fun row => length row = c) idx ->
                         Forall (fun row => length row = c) t.
Proof.
  intros H.
  destruct (mapM_total (TF.gather flat) idx) as [t Ht].
  { intros row Hrow. apply gather_total.
    rewrite Forall_forall in H. apply H. exact Hrow. }
  exists t. split; [exact Ht|]. split; [eapply mapM_length; exact Ht|].
  intros c Hc. eapply mapM_Forall; [exact Ht|].
  intros row out Hin Hout. simpl.
  rewrite (gather_length _ _ Hout).
  rewrite Forall_forall in Hc. apply Hc. exact Hin.
Qed.

Lemma concat1_total {A : Type} (x y : list (list A)) (cx cy : nat) :
  length x = length y ->
  Forall (fun row => length row = cx) x ->
  Forall (fun row => length row = cy) y ->
  exists t, TF.concat1 x y = Some t /\ rectangular (length x) (cx + cy) t.
Proof.
  revert y; induction x as [|rx x IH]; intros [|ry y] Hlen Hx Hy;
    simpl in Hlen; try discriminate.
  - exists []. split; [reflexivity|]. split; [reflexivity | constructor].
  - inversion Hx; subst. inversion Hy; subst.
    destruct (IH y) as [t [Ht [Htl Htr]]]; auto.
    exists ((rx ++ ry) :: t). simpl. rewrite Ht. simpl.
    split; [reflexivity|]. split; [simpl; lia|].
    constructor; [apply length_app | exact Htr].
Qed.

Lemma length_concat_rectangular {A : Type} (rows cols : nat) (t : list (list A)) :
  rectangular rows cols t -> length (concat t) = rows * cols.
Proof.
  intros [Hlen Hrows]. subst rows.
  induction Hrows as [|row t Hrow _ IH]; simpl; [reflexivity|].
  rewrite length_app, IH, Hrow. reflexivity.
Qed.

Lemma reshape_flat_rectangular {A : Type} (rows cols : nat) (t : list (list A)) :
  rectangular rows cols t ->
  TF.reshape_flat t (rows * cols) = Some (concat t).
Proof.
  intros H. unfold TF.reshape_flat, TF.flatten.
  rewrite (length_concat_rectangular H), Nat.eqb_refl. reflexivity.
Qed.

(** ** The scores exist when the sizes fit 32 bits *)

Lemma score_data_total (self : VCSMC) (r : nat) :
  (Z.of_nat (n self) * Z.of_nat (K self) < 2 ^ 31)%Z ->
  exists data, score_data self r = Some data.
Proof.
  intros Hfit. unfold score_data.
  set (m := n self - r).
  assert (Hw : TF.wrap32 (Z.of_nat m * Z.of_nat (K self))
               = Z.of_nat (K self * m)).
  { rewrite wrap32_small; [lia|]. unfold m. nia. }
  rewrite Hw, range_ok by lia. cbn [bind].
  unfold TF.reshape. rewrite length_map, length_seq.
  replace (Z.to_nat (Z.of_nat (K self * m) - 0)) with (K self * m) by lia.
  rewrite Nat.eqb_refl. cbn [bind]. eexists; reflexivity.
Qed.

Lemma scores_total (self : VCSMC) (w : World) (r : nat) :
  (Z.of_nat (n self) * Z.of_nat (K self) < 2 ^ 31)%Z ->
  exists perturbed, scores self w r = Some perturbed.
Proof.
  intros Hfit. destruct (score_data_total self r Hfit) as [data Hdata].
  unfold scores. rewrite Hdata. cbn [bind]. eexists; reflexivity.
Qed.

(** ** [extend_partial_state] on a well-shaped jump chain *)

Lemma expand_dims1_rows {A : Type} (l : list A) :
  length (TF.expand_dims1 l) = length l
  /\ Forall (fun row => length row = 1) (TF.expand_dims1 l).
Proof.
  unfold TF.expand_dims1. split; [apply length_map|].
  apply Forall_map. apply Forall_forall. intros; reflexivity.
Qed.

Lemma extend_partial_state_spec (self : VCSMC) (w : World)
  (JCK : list (list string)) (r : nat) :
  (Z.of_nat (n self) * Z.of_nat (K self) < 2 ^ 31)%Z ->
  (Z.of_nat (n self) + 1 < 2 ^ 31)%Z ->
  2 <= n self - r ->
  rectangular (K self) (n self - r) JCK ->
  exists ext top q,
    extend_partial_state self w JCK r = Some ext
    /\ sampled_pairs self w r = Some top
    /\ proposal_q (n self) r = Some q
    /\ coalesced_indices ext = map snd top
    /\ length (coalesced_indices ext) = K self
    /\ pair_rows (n self - r) (coalesced_indices ext)
    /\ rectangular (K self) (n self - r - 2) (remaining_indices ext)
    /\ Forall (Forall (fun i => i < n self - r)) (remaining_indices ext)
    /\ rectangular (K self) (n self - r - 1) (ext_JCK ext)
    /\ ext_q ext = q.
Proof.
  intros Hfit Hfit1 Hm HJCK.
  set (m := n self - r) in *.
  destruct (@proposal_q_total (n self) r Hm Hfit1) as [q Hq].
  destruct (score_data_total self r Hfit) as [data Hdata].
  set (perturbed := add_noise data (noise w r data)).
  assert (Hsc : scores self w r = Some perturbed).
  { unfold scores. rewrite Hdata. reflexivity. }
  destruct (scores_shape _ _ _ Hsc) as [Hslen Hsrows].
  fold m in Hsrows. rewrite Forall_forall in Hsrows.
  (* the two selections *)
  destruct (mapM_total (fun row => TF.top_k Qle_bool row 2) perturbed)
    as [top Htop].
  { intros row Hrow. apply top_k_total. rewrite (Hsrows row Hrow). exact Hm. }
  destruct (mapM_total (fun row => TF.top_k Qle_bool (map Qopp row) (m - 2))
                       perturbed) as [bottom Hbottom].
  { intros row Hrow. apply top_k_total.
    rewrite length_map, (Hsrows row Hrow). lia. }
  assert (Hpairs_top : sampled_pairs self w r = Some top).
  { unfold sampled_pairs. rewrite Hsc. exact Htop. }
  destruct (sampled_pairs_in_range _ _ _ Hpairs_top) as [Htoplen Hpairs].
  fold m in Hpairs.
  assert (Hbotlen : length bottom = K self)
    by (rewrite (mapM_length _ _ Hbottom); exact Hslen).
  assert (Hrem : Forall (fun idx => length idx = m - 2
                                    /\ Forall (fun i => i < m) idx)
                        (map snd bottom)).
  { apply Forall_map. eapply mapM_Forall; [exact Hbottom|].
    intros row [vals idx] Hin Hk. simpl.
    apply top_k_positions in Hk. destruct Hk as [Hlen [_ [Hlt _]]].
    rewrite length_map, (Hsrows row Hin) in Hlt. auto. }
  assert (Hremlen : Forall (fun idx => length idx = m - 2) (map snd bottom))
    by (eapply Forall_impl; [|exact Hrem]; simpl; tauto).
  assert (Hremlt : Forall (Forall (fun i => i < m)) (map snd bottom))
    by (eapply Forall_impl; [|exact Hrem]; simpl; tauto).
  (* the gathers reach into the flattened jump chain *)
  pose proof (length_concat_rectangular HJCK) as Hflat.
  assert (Hin_flat : forall idx : list (list nat),
            length idx = K self ->
            Forall (Forall (fun i => i < m)) idx ->
            Forall (Forall (fun i => i < length (concat JCK))) idx).
  { intros idx Hlen Hidx. rewrite Hflat.
    destruct (K self) as [|K'] eqn:HK.
    - destruct idx; [constructor | discriminate].
    - eapply Forall_impl; [|exact Hidx]. intros row Hrow.
      eapply Forall_impl; [|exact Hrow]. intros i Hi. simpl in *. nia. }
  destruct (gather2_total (concat JCK) (idx := map snd bottom))
    as [JC_keep [Hkeep [Hkeeplen Hkeeprows]]].
  { apply Hin_flat; [rewrite length_map; exact Hbotlen | exact Hremlt]. }
  destruct (gather2_total (concat JCK) (idx := map snd top))
    as [particles [Hparts [Hpartslen Hpartsrows]]].
  { apply Hin_flat; [rewrite length_map; exact Htoplen|].
    eapply Forall_impl; [|exact Hpairs].
    intros row [i1 [i2 [-> [_ [H1 H2]]]]]. repeat constructor; assumption. }
  assert (Hparts2 : Forall (fun row => length row = 2) particles).
  { apply Hpartsrows. eapply Forall_impl; [|exact Hpairs].
    intros row [i1 [i2 [-> _]]]. reflexivity. }
  destruct (mapM_total (fun row : list string => TF.gather1 row 0) particles)
    as [p1 Hp1].
  { intros row Hrow. apply gather1_lt.
    rewrite Forall_forall in Hparts2. rewrite (Hparts2 row Hrow). lia. }
  destruct (mapM_total (fun row : list string => TF.gather1 row 1) particles)
    as [p2 Hp2].
  { intros row Hrow. apply gather1_lt.
    rewrite Forall_forall in Hparts2. rewrite (Hparts2 row Hrow). lia. }
  set (pc := map (fun p => (fst p ++ "+" ++ snd p)%string) (combine p1 p2)).
  assert (Hpclen : length pc = K self).
  { unfold pc. rewrite length_map, length_combine.
    rewrite (mapM_length _ _ Hp1), (mapM_length _ _ Hp2), Hpartslen,
      length_map, Htoplen. lia. }
  destruct (expand_dims1_rows pc) as [Helen Herows].
  destruct (@concat1_total string JC_keep (TF.expand_dims1 pc) (m - 2) 1)
    as [JCK' [Hcat Hrect]].
  { rewrite Hkeeplen, length_map, Hbotlen, Helen, Hpclen. reflexivity. }
  { apply Hkeeprows. exact Hremlen. }
  { exact Herows. }
  exists (mkExtension p1 p2 pc (map snd top) (map snd bottom) q JCK'), top, q.
  split; [|split; [exact Hpairs_top|split; [exact Hq|]]].
  - unfold extend_partial_state. rewrite Hq. cbn [bind].
    rewrite Hdata. cbn [bind]. fold perturbed. fold m.
    rewrite Htop. cbn [bind]. rewrite Hbottom. cbn [bind].
    rewrite (reshape_flat_rectangular HJCK). cbn [bind].
    rewrite Hkeep, Hparts. cbn [bind]. rewrite Hp1, Hp2. cbn [bind].
    fold pc. rewrite Hcat. reflexivity.
  - simpl. split; [reflexivity|].
    split; [rewrite length_map; exact Htoplen|].
    split; [exact Hpairs|].
    split; [split; [rewrite length_map; exact Hbotlen | exact Hremlen]|].
    split; [exact Hremlt|].
    split; [|reflexivity].
    rewrite Hkeeplen, length_map, Hbotlen in Hrect.
    replace (m - 1) with (m - 2 + 1) by lia. exact Hrect.
Qed.

(** ** Resampling *)

Lemma gather_map {A : Type} (l : list A) (idx : list nat) (d : A) :
  Forall (fun i => i < length l) idx ->
  TF.gather l idx = Some (map (fun i => nth i l d) idx).
Proof.
  intros H. apply mapM_map. intros i Hi.
  rewrite Forall_forall in H. specialize (H i Hi).
  unfold TF.gather1. apply nth_error_nth'. exact H.
Qed.

Lemma concat1_rows {A : Type} (x y : list (list A)) :
  length x = length y ->
  exists t, TF.concat1 x y = Some t /\ length t = length x.
Proof.
  revert y; induction x as [|rx x IH]; intros [|ry y] Hlen;
    simpl in Hlen; try discriminate.
  - exists []. split; reflexivity.
  - destruct (IH y) as [t [Ht Htl]]; [lia|].
    exists ((rx ++ ry) :: t). simpl. rewrite Ht. simpl.
    split; [reflexivity | lia].
Qed.

Lemma nth_map_seq {A : Type} (f : nat -> A) (len k : nat) (d : A) :
  k < len -> nth k (map f (seq 0 len)) d = f k.
Proof.
  intros Hk.
  rewrite (nth_indep _ d (f 0)) by (rewrite length_map, length_seq; exact Hk).
  rewrite (map_nth f (seq 0 len) 0 k), seq_nth by exact Hk. reflexivity.
Qed.

Lemma rectangular_nth {A : Type} (rows cols : nat) (t : list (list A)) (k : nat) :
  rectangular rows cols t -> k < rows -> length (nth k t []) = cols.
Proof.
  intros Ht Hk. destruct (rectangular_row Ht Hk) as [row [Hrow Hlen]].
  rewrite (nth_error_nth_default _ _ [] Hrow). exact Hlen.
Qed.

Lemma cond_true_resample_spec (self : VCSMC) (w : World) (vars : MainVars) :
  (forall r d, d < K self -> categorical w r d < K self) ->
  shape self vars ->
  exists tilda jc jct,
    cond_true_resample self w (log_likelihood_tilda vars) (log_weights vars)
      (log_likelihood vars) (jump_chains vars) (jump_chain_tensor vars) (r vars)
    = Some (tilda, jc, jct)
    /\ rectangular (K self) (n self - r vars) jct
    /\ length tilda = K self /\ length jc = K self
    /\ (forall k, k < K self ->
          nth k tilda 0%R
          = nth (categorical w (r vars) k)
                (nth (r vars) (log_likelihood vars) []) 0%R)
    /\ (forall k, k < K self ->
          nth k jct [] = nth (categorical w (r vars) k)
                             (jump_chain_tensor vars) []).
Proof.
  intros Hcat Hsh.
  destruct Hsh as [Hr [Hjl Hjr] _ _ _ [Hwl _] Hll Hjc].
  set (r0 := r vars) in *.
  set (indices := map (categorical w r0) (seq 0 (K self))).
  assert (Hidx : Forall (fun i => i < K self) indices).
  { apply Forall_map, Forall_forall. intros d Hd. apply Hcat.
    apply in_seq in Hd. lia. }
  destruct (nth_error_lt (log_weights vars) (i:=r0)) as [lw_r Hlw]; [lia|].
  set (jct := map (fun i => nth i (jump_chain_tensor vars) []) indices).
  assert (Hgat : TF.gather (jump_chain_tensor vars) indices = Some jct).
  { apply gather_map. rewrite Hjl. exact Hidx. }
  assert (Hjct : rectangular (K self) (n self - r0) jct).
  { split.
    - unfold jct, indices. rewrite !length_map, length_seq. reflexivity.
    - apply Forall_map. eapply Forall_impl; [|exact Hidx].
      intros i Hi. simpl in *.
      apply (rectangular_nth (conj Hjl Hjr) Hi). }
  set (ll := log_likelihood vars) in *.
  assert (Hcols : TF.ncols ll = K self).
  { unfold TF.ncols. destruct Hll as [Hl Hrows].
    destruct ll as [|row0 ll']; [simpl in Hl; lia|].
    inversion Hrows; subst. assumption. }
  set (gathered := map (fun i => nth i (TF.transpose ll) []) indices).
  assert (Hgat2 : TF.gather (TF.transpose ll) indices = Some gathered).
  { apply gather_map. unfold TF.transpose.
    rewrite length_map, length_seq, Hcols. exact Hidx. }
  set (tilda := map (fun k => nth (categorical w r0 k) (nth r0 ll []) 0%R)
                    (seq 0 (K self))).
  assert (Htilda : mapM (fun k => TF.gather_nd2 gathered k r0) (seq 0 (K self))
                   = Some tilda).
  { apply mapM_map. intros k Hk. apply in_seq in Hk.
    unfold TF.gather_nd2, TF.gather1, gathered, indices.
    rewrite map_map.
    rewrite (nth_error_nth' _ [] (n:=k))
      by (rewrite length_map, length_seq; lia).
    cbn [bind]. rewrite nth_map_seq by lia.
    unfold TF.transpose. rewrite Hcols.
    rewrite nth_map_seq by (apply Hcat; lia).
    rewrite (nth_error_nth' _ 0%R (n:=r0))
      by (rewrite length_map; destruct Hll; lia).
    f_equal.
    rewrite (nth_indep _ 0%R (nth (categorical w r0 k) [] 0%R))
      by (rewrite length_map; destruct Hll; lia).
    rewrite (map_nth (fun row => nth (categorical w r0 k) row 0%R) ll [] r0).
    reflexivity. }
  destruct (concat1_rows (jump_chains vars) jct) as [jc [Hcatjc Hjclen]].
  { rewrite Hjc. destruct Hjct as [-> _]. reflexivity. }
  exists tilda, jc, jct.
  split; [|split; [exact Hjct|split; [|split; [lia|split]]]].
  - unfold cond_true_resample, resample, TF.gather1.
    rewrite Hlw. cbn [bind]. fold indices. rewrite Hgat. cbn [bind].
    rewrite Hgat2. cbn [bind]. rewrite Htilda. cbn [bind].
    rewrite Hcatjc. reflexivity.
  - unfold tilda. rewrite length_map, length_seq. reflexivity.
  - intros k Hk. unfold tilda. rewrite nth_map_seq by exact Hk. reflexivity.
  - intros k Hk. unfold jct, indices. rewrite map_map.
    rewrite nth_map_seq by exact Hk. reflexivity.
Qed.

(** ** One step of the main loop *)

Lemma rectangular_snoc {A : Type} (rows cols : nat) (t : list (list A))
  (row : list A) :
  rectangular rows cols t -> length row = cols ->
  rectangular (rows + 1) cols (t ++ [row]).
Proof.
  intros [Hl Hr] Hrow. split.
  - rewrite length_app. simpl. lia.
  - apply Forall_app. split; [exact Hr | repeat constructor; exact Hrow].
Qed.

Lemma gather_tail {A : Type} (x : A) (l : list A) (len : nat) :
  length l = len -> TF.gather (x :: l) (TF.range_nat 1 (len + 1)) = Some l.
Proof.
  intros H. unfold TF.range_nat. replace (len + 1 - 1) with len by lia.
  rewrite gather_seq by (simpl; lia).
  simpl. rewrite <- H, firstn_all. reflexivity.
Qed.

Lemma gather_second_half {A : Type} (l1 l2 : list A) (len : nat) :
  length l1 = len -> length l2 = len ->
  TF.gather (l1 ++ l2) (TF.range_nat len (2 * len)) = Some l2.
Proof.
  intros H1 H2. unfold TF.range_nat. replace (2 * len - len) with len by lia.
  rewrite gather_seq by (rewrite length_app; lia).
  rewrite skipn_app, <- H1, skipn_all, Nat.sub_diag. simpl.
  rewrite H1, <- H2, firstn_all. reflexivity.
Qed.

Lemma body_main_spec (self : VCSMC) (w : World) (vars : MainVars) :
  well_formed self w -> shape self vars -> r vars < n self - 1 ->
  exists vars' top q lw_row ll_row,
    body_main self w vars = Some vars'
    /\ shape self vars'
    /\ r vars' = r vars + 1
    /\ sampled_pairs self w (r vars) = Some top
    /\ proposal_q (n self) (r vars) = Some q
    /\ log_weights vars' = log_weights vars ++ [lw_row]
    /\ log_likelihood vars' = log_likelihood vars ++ [ll_row]
    /\ (0 < r vars -> forall k, k < K self ->
          nth k (log_likelihood_tilda vars') 0%R
          = nth (categorical w (r vars) k)
                (nth (r vars) (log_likelihood vars) []) 0%R)
    /\ (forall k, k < K self ->
          weight_entry self (core vars') (log_likelihood_tilda vars')
            (map snd top) (v vars) q (r vars) lw_row ll_row (v vars') k).
Proof.
  intros Hwf Hsh Hlt.
  destruct Hwf as [_ [Hfit Hfit1] Hleft Hright Hcat [Hfn HfK] _].
  destruct vars as [lws0 lls0 tilda0 jcs0 jct0 core0 v0 r0].
  cbn [log_weights log_likelihood log_likelihood_tilda jump_chains
       jump_chain_tensor core v r] in *.
  (* resampling *)
  assert (Hres : exists tilda jc jct,
    (if 0 <? r0
     then cond_true_resample self w tilda0
            lws0 lls0 jcs0
            jct0 r0
     else cond_false_resample self w tilda0
            lws0 lls0 jcs0
            jct0 r0) = Some (tilda, jc, jct)
    /\ rectangular (K self) (n self - r0) jct
    /\ length tilda = K self /\ length jc = K self
    /\ (0 < r0 -> forall k, k < K self ->
          nth k tilda 0%R
          = nth (categorical w r0 k)
                (nth r0 lls0 []) 0%R)).
  { destruct (0 <? r0) eqn:Hr0.
    - destruct (@cond_true_resample_spec self w _ Hcat Hsh)
        as [tilda [jc [jct [H1 [H2 [H3 [H4 [H5 _]]]]]]]].
      exists tilda, jc, jct. auto.
    - apply Nat.ltb_ge in Hr0.
      exists tilda0, jcs0,
             jct0.
      destruct Hsh as [_ Hj _ _ Ht _ _ Hjc].
      split; [reflexivity|]. split; [exact Hj|]. split; [exact Ht|].
      split; [exact Hjc|]. intros; lia. }
  destruct Hres as [tilda [jc [jct [Hres [Hjct [Htl [Hjcl Htilda]]]]]]].
  (* extension *)
  destruct (@extend_partial_state_spec self w jct r0 Hfit Hfit1)
    as [ext [top [q [Hext [Htop [Hpq [Hci [Hcil [Hpairs [Hrem [Hremlt
         [HJCK Hq]]]]]]]]]]]]; [lia | exact Hjct |].
  destruct Hsh as [Hr _ Hcore Hv _ Hlw Hll _].
  cbn [log_weights log_likelihood log_likelihood_tilda jump_chains
       jump_chain_tensor core v r] in *.
  (* the merged nodes *)
  destruct (@data_loop self w [[repeat (zeros (a self)) (s self)]]
              core0 (coalesced_indices ext) r0 (n self - r0)
              Hcore Hcil Hpairs Hleft Hright Hlt HfK)
    as [nd [Hdata [Hndl Hnd1]]].
  assert (Hflat : forall idx : list (list nat),
            length idx = K self ->
            Forall (Forall (fun i => i < n self - r0)) idx ->
            Forall (Forall (fun i => i < length (concat core0))) idx).
  { intros idx Hlen Hidx. rewrite (length_concat_rectangular Hcore).
    destruct (K self) as [|K'] eqn:HK.
    - destruct idx; [constructor | discriminate].
    - eapply Forall_impl; [|exact Hidx]. intros row Hrow.
      eapply Forall_impl; [|exact Hrow]. intros i Hi. simpl in *. nia. }
  destruct (gather2_total (concat core0) (idx := remaining_indices ext))
    as [kept [Hkept [Hkeptl Hkeptr]]].
  { apply Hflat; [apply Hrem | exact Hremlt]. }
  destruct (@concat1_total matrix kept nd (n self - r0 - 2) 1)
    as [core' [Hcore' Hcore'r]].
  { rewrite Hkeptl, Hndl. apply Hrem. }
  { apply Hkeptr. apply Hrem. }
  { exact Hnd1. }
  assert (Hcore'' : rectangular (K self) (n self - 1 - r0) core').
  { rewrite Hkeptl in Hcore'r. destruct Hrem as [Hreml _].
    rewrite Hreml in Hcore'r.
    replace (n self - 1 - r0) with (n self - r0 - 2 + 1) by lia.
    exact Hcore'r. }
  (* the weights *)
  destruct (@weights_loop self w core' tilda (coalesced_indices ext) v0
              (ext_q ext) r0 (n self - r0) Hcore'' Htl Hv
              Hcil Hpairs Hfn HfK)
    as [lw [ll [vnew [Hw [Hlwl [Hlll [Hvl Hentries]]]]]]].
  exists (mkMainVars (lws0 ++ [lw]) (lls0 ++ [ll])
                     tilda jc (ext_JCK ext) core' vnew (r0 + 1)),
         top, q, lw, ll.
  split; [|split; [|split; [|split; [|split; [|split; [|split; [|split]]]]]]].
  - unfold body_main.
    rewrite Hres. cbn [bind]. rewrite Hext. cbn [bind].
    unfold matrix in *.
    rewrite Hdata. cbn [bind app].
    rewrite (@gather_tail _ _ nd (K self) Hndl). cbn [bind].
    rewrite (reshape_flat_rectangular Hcore). cbn [bind].
    rewrite Hkept. cbn [bind]. rewrite Hcore'. cbn [bind].
    rewrite Hw. cbn [bind wv_log_weights_i wv_log_likelihood_i wv_v
                     wv_log_likelihood_tilda].
    rewrite (@gather_tail _ _ lw (K self) Hlwl). cbn [bind].
    rewrite (@gather_tail _ _ ll (K self) Hlll). cbn [bind].
    rewrite (@gather_second_half _ v0 vnew (K self) Hv Hvl). cbn [bind].
    reflexivity.
  - constructor; simpl; try assumption; try lia.
    + replace (n self - (r0 + 1)) with (n self - r0 - 1) by lia.
      exact HJCK.
    + replace (n self - (r0 + 1)) with (n self - 1 - r0) by lia.
      exact Hcore''.
    + apply rectangular_snoc; assumption.
    + apply rectangular_snoc; assumption.
  - reflexivity.
  - exact Htop.
  - exact Hpq.
  - reflexivity.
  - reflexivity.
  - simpl. exact Htilda.
  - simpl. intros k Hk. rewrite <- Hci, <- Hq. apply Hentries. exact Hk.
Qed.

(** ** The main loop *)

Lemma rectangular_repeat {A : Type} (row : list A) (rows : nat) :
  rectangular rows (length row) (repeat row rows).
Proof.
  split; [apply repeat_length|].
  apply Forall_forall. intros x Hx. apply repeat_spec in Hx. subst. reflexivity.
Qed.

Lemma initial_shape (self : VCSMC) (w : World) :
  well_formed self w -> shape self (initial_vars self).
Proof.
  intros Hwf. unfold initial_vars, zeros.
  constructor; cbn [r jump_chain_tensor core v log_likelihood_tilda
                    log_weights log_likelihood jump_chains].
  - lia.
  - rewrite Nat.sub_0_r, <- (wf_taxa Hwf). apply rectangular_repeat.
  - rewrite Nat.sub_0_r. apply rectangular_repeat.
  - apply repeat_length.
  - apply repeat_length.
  - split; [reflexivity|]. repeat constructor. apply repeat_length.
  - split; [reflexivity|]. repeat constructor. apply repeat_length.
  - apply repeat_length.
Qed.

(** Every prefix of the run goes through: after [step] iterations the
    loop variables have the shapes of step [step]. *)
Lemma run_steps_shape (self : VCSMC) (w : World) (step : nat) :
  well_formed self w -> step <= n self - 1 ->
  exists vars, run_steps self w step (initial_vars self) = Some vars
               /\ shape self vars /\ r vars = step.
Proof.
  intros Hwf. induction step as [|step IH]; intros Hstep.
  - exists (initial_vars self). split; [reflexivity|].
    split; [apply (initial_shape Hwf) | reflexivity].
  - destruct IH as [vars [Hrun [Hsh Hr]]]; [lia|].
    destruct (@body_main_spec self w vars Hwf Hsh)
      as [vars' [_ [_ [_ [_ [Hbody [Hsh' [Hr' _]]]]]]]]; [lia|].
    exists vars'. simpl. rewrite Hrun. cbn [bind].
    split; [exact Hbody|]. split; [exact Hsh' | lia].
Qed.

Lemma main_loop_runs (self : VCSMC) (w : World) :
  well_formed self w ->
  exists final,
    TF.while_loop (fuel w) (cond_main self) (body_main self w)
                  (initial_vars self) = Some final
    /\ run_steps self w (n self - 1) (initial_vars self) = Some final
    /\ shape self final /\ r final = n self - 1.
Proof.
  intros Hwf.
  pose (Inv := fun st : MainVars =>
          shape self st
          /\ run_steps self w (r st) (initial_vars self) = Some st).
  destruct (@while_loop_counting MainVars (cond_main self) (body_main self w)
              r (n self - 1) Inv)
    with (fuel := fuel w) (st := initial_vars self)
    as [final [Hrun [[Hsh Hsteps] Hr]]].
  - intros st _. reflexivity.
  - intros st [Hsh Hsteps] Hlt.
    destruct (@body_main_spec self w st Hwf Hsh Hlt)
      as [st' [_ [_ [_ [_ [Hbody [Hsh' [Hr' _]]]]]]]].
    exists st'. split; [exact Hbody|]. split; [|lia].
    split; [exact Hsh'|].
    rewrite Hr', Nat.add_1_r. simpl. rewrite Hsteps. exact Hbody.
  - split; [apply (initial_shape Hwf) | reflexivity].
  - simpl; lia.
  - simpl. destruct (wf_fuel Hwf). lia.
  - exists final. rewrite <- Hr. auto.
Qed.

Lemma well_formed_nonempty (self : VCSMC) (w : World) :
  well_formed self w -> 1 <= n self.
Proof.
  intros Hwf. destruct (wf_squeeze Hwf) as [_ [Hs _]].
  unfold s, n in *. destruct (genome_NxSxA self); simpl in *; lia.
Qed.

(** C6: the main loop runs for exactly [n - 1] steps; when step [r]
    begins every particle holds [n - r] nodes in its jump-chain row and in
    its row of partial likelihoods, one fewer when it ends, and one node
    is left per particle after the loop. *)
Theorem forest_shrinks_by_one_per_step (self : VCSMC) (w : World) :
  well_formed self w ->
  exists final,
    TF.while_loop (fuel w) (cond_main self) (body_main self w)
                  (initial_vars self) = Some final
    /\ run_steps self w (n self - 1) (initial_vars self) = Some final
    /\ r final = n self - 1
    /\ cond_main self final = false
    /\ rectangular (K self) 1 (jump_chain_tensor final)
    /\ rectangular (K self) 1 (core final)
    /\ (forall step, step < n self - 1 ->
        exists before after,
          run_steps self w step (initial_vars self) = Some before
          /\ body_main self w before = Some after
          /\ r before = step /\ r after = step + 1
          /\ rectangular (K self) (n self - step) (jump_chain_tensor before)
          /\ rectangular (K self) (n self - step) (core before)
          /\ rectangular (K self) (n self - step - 1) (jump_chain_tensor after)
          /\ rectangular (K self) (n self - step - 1) (core after)).
Proof.
  intros Hwf. pose proof (well_formed_nonempty Hwf) as Hn.
  destruct (main_loop_runs Hwf) as [final [Hloop [Hsteps [Hsh Hr]]]].
  exists final.
  split; [exact Hloop|]. split; [exact Hsteps|]. split; [exact Hr|].
  split; [unfold cond_main; rewrite Hr; apply Nat.ltb_irrefl|].
  pose proof (sh_jump_chain_tensor Hsh) as Hj.
  pose proof (sh_core Hsh) as Hc.
  rewrite Hr in Hj, Hc.
  replace (n self - (n self - 1)) with 1 in Hj, Hc by lia.
  split; [exact Hj|]. split; [exact Hc|].
  intros step Hstep.
  destruct (@run_steps_shape self w step Hwf) as [before [Hb [Hshb Hrb]]];
    [lia|].
  destruct (@body_main_spec self w before Hwf Hshb)
    as [after [_ [_ [_ [_ [Hbody [Hsha [Hra _]]]]]]]]; [lia|].
  exists before, after.
  pose proof (sh_jump_chain_tensor Hshb) as Hjb.
  pose proof (sh_core Hshb) as Hcb.
  pose proof (sh_jump_chain_tensor Hsha) as Hja.
  pose proof (sh_core Hsha) as Hca.
  rewrite Hra, Hrb in Hja, Hca. rewrite Hrb in Hjb, Hcb.
  replace (n self - (step + 1)) with (n self - step - 1) in Hja, Hca by lia.
  repeat split; try assumption; try apply Hjb; try apply Hcb;
    try apply Hja; try apply Hca. lia.
Qed.

(** ** The concrete runs are well formed *)

Lemma well_formed3 : well_formed Examples.self3 Examples.world3.
Proof.
  constructor.
  - reflexivity.
  - split; vm_compute; reflexivity.
  - split; [reflexivity | repeat constructor].
  - split; [reflexivity | repeat constructor].
  - intros r d H. exact H.
  - split; vm_compute; lia.
  - repeat split; vm_compute; lia.
Qed.

Lemma well_formed4 : well_formed Examples.self4 Examples.world4.
Proof.
  constructor.
  - reflexivity.
  - split; vm_compute; reflexivity.
  - split; [reflexivity | repeat constructor].
  - split; [reflexivity | repeat constructor].
  - intros r d H. exact H.
  - split; vm_compute; lia.
  - repeat split; vm_compute; lia.
Qed.

Lemma forest_shrinks_by_one_per_step_witness :
  exists final,
    TF.while_loop (fuel Examples.world3) (cond_main Examples.self3)
                  (body_main Examples.self3 Examples.world3)
                  (initial_vars Examples.self3) = Some final
    /\ r final = 2
    /\ rectangular 2 1 (jump_chain_tensor final).
Proof.
  destruct (@forest_shrinks_by_one_per_step Examples.self3 Examples.world3
              well_formed3)
    as [final [Hloop [_ [Hr [_ [Hj _]]]]]].
  exists final. split; [exact Hloop|]. split; [exact Hr | exact Hj].
Defined.

(** C3: at a step [i > 0] the log weight recorded for particle [k] is
    [logLikelihood[i, k+1] - logLikelihoodPrior[k] + log v'[k] - log q]:
    the first term is entry [k + 1] of the step's likelihood vector (which
    starts with a dummy entry) and equals the log-likelihood of the
    particle's new forest, the prior is the previous step's log-likelihood
    of the resampled ancestor, [v'[k]] is what [overcounting_correct]
    returns for the particle's multiplicity and pair, and [q] is the
    proposal probability; at step 0 the recorded log weight is 0. *)
Theorem log_weight_update (self : VCSMC) (w : World) (vars : MainVars) :
  well_formed self w -> shape self vars -> r vars < n self - 1 ->
  exists vars' top q lw_row ll_row,
    body_main self w vars = Some vars'
    /\ sampled_pairs self w (r vars) = Some top
    /\ proposal_q (n self) (r vars) = Some q
    /\ log_weights vars' = log_weights vars ++ [lw_row]
    /\ log_likelihood vars' = log_likelihood vars ++ [ll_row]
    /\ forall k, k < K self ->
         nth (k + 1) (0%R :: ll_row) 0%R
           = forest_log_likelihood self (nth k (core vars') [])
         /\ (r vars = 0 -> nth k lw_row 0%R = 0%R)
         /\ (0 < r vars ->
             nth k lw_row 0%R
               = (nth (k + 1) (0%R :: ll_row) 0%R
                  - nth k (log_likelihood_tilda vars') 0%R
                  + ln (nth k (v vars') 0%R)
                  - ln q)%R
             /\ nth k (log_likelihood_tilda vars') 0%R
                = nth (categorical w (r vars) k)
                      (nth (r vars) (log_likelihood vars) []) 0%R
             /\ overcounting_correct self (nth k (v vars) 0%R)
                  (nth k (map snd top) []) (r vars)
                = Some (nth k (v vars') 0%R)).
Proof.
  intros Hwf Hsh Hlt.
  destruct (@body_main_spec self w vars Hwf Hsh Hlt)
    as [vars' [top [q [lw_row [ll_row
         [Hbody [_ [_ [Htop [Hq [Hlw [Hll [Htilda Hentries]]]]]]]]]]]]].
  exists vars', top, q, lw_row, ll_row.
  repeat (split; [assumption|]).
  intros k Hk. rewrite Nat.add_1_r. cbn [nth].
  destruct (Hentries k Hk) as [Hforest [H0 Hpos]].
  split; [exact Hforest|]. split.
  - intros Hr. apply (H0 Hr).
  - intros Hr. destruct (Hpos Hr) as [Hoc Hweight].
    split; [exact Hweight|]. split; [apply Htilda; assumption | exact Hoc].
Qed.

Lemma log_weight_update_witness :
  exists vars vars',
    run_steps Examples.self3 Examples.world3 1 (initial_vars Examples.self3)
    = Some vars
    /\ 0 < r vars
    /\ body_main Examples.self3 Examples.world3 vars = Some vars'.
Proof.
  destruct (@run_steps_shape Examples.self3 Examples.world3 1 well_formed3)
    as [vars [Hrun [Hsh Hr]]]; [vm_compute; lia|].
  destruct (@log_weight_update Examples.self3 Examples.world3 vars)
    as [vars' [_ [_ [_ [_ [Hbody _]]]]]].
  - exact well_formed3.
  - exact Hsh.
  - rewrite Hr. vm_compute; lia.
  - exists vars, vars'. split; [exact Hrun|]. split; [lia | exact Hbody].
Defined.

(** One call of [overcounting_correct] on the value [v0] it is given:
    both positions below the threshold [n - i - 1] give [1 / (v0 + 1)],
    both above [1 / (v0 - 1)], a mixed pair [1 / (v0 + 0)]; the first step
    records 1 for every particle. *)
Theorem overcounting_update_rule (self : VCSMC) (w : World) :
  well_formed self w -> 2 <= n self ->
  (forall (v0 : R) (idx1 idx2 i : nat),
     let threshold := (Z.of_nat (n self) - Z.of_nat i - 1)%Z in
     ((Z.of_nat idx1 < threshold)%Z /\ (Z.of_nat idx2 < threshold)%Z ->
      overcounting_correct self v0 [idx1; idx2] i = Some (1 / (v0 + 1))%R)
     /\ ((Z.of_nat idx1 > threshold)%Z /\ (Z.of_nat idx2 > threshold)%Z ->
         overcounting_correct self v0 [idx1; idx2] i = Some (1 / (v0 + -1))%R)
     /\ (~ ((Z.of_nat idx1 < threshold)%Z /\ (Z.of_nat idx2 < threshold)%Z) ->
         ~ ((Z.of_nat idx1 > threshold)%Z /\ (Z.of_nat idx2 > threshold)%Z) ->
         overcounting_correct self v0 [idx1; idx2] i = Some (1 / (v0 + 0))%R))
  /\ (exists vars',
        body_main self w (initial_vars self) = Some vars'
        /\ v vars' = repeat 1%R (K self)).
Proof.
  intros Hwf Hn. split.
  - intros v0 idx1 idx2 i threshold.
    unfold overcounting_correct. cbn [TF.gather1 nth_error bind].
    fold threshold.
    rewrite !Z.gtb_ltb.
    destruct (Z.ltb_spec (Z.of_nat idx1) threshold);
      destruct (Z.ltb_spec (Z.of_nat idx2) threshold);
      destruct (Z.ltb_spec threshold (Z.of_nat idx1));
      destruct (Z.ltb_spec threshold (Z.of_nat idx2));
      cbn [andb]; repeat split; intros; try reflexivity; try lia;
      exfalso; intuition lia.
  - destruct (@body_main_spec self w (initial_vars self) Hwf
                (initial_shape Hwf))
      as [vars' [top [q [lw_row [ll_row
           [Hbody [Hsh [_ [_ [_ [_ [_ [_ Hentries]]]]]]]]]]]]].
    { simpl. lia. }
    exists vars'. split; [exact Hbody|].
    apply (nth_ext _ _ 0%R 0%R).
    + rewrite repeat_length. apply (sh_v Hsh).
    + intros k Hk. rewrite (sh_v Hsh) in Hk.
      destruct (Hentries k Hk) as [_ [H0 _]].
      destruct (H0 eq_refl) as [Hv _].
      rewrite Hv. symmetry. apply nth_repeat_lt. exact Hk.
Qed.

Lemma overcounting_update_rule_witness :
  exists vars',
    body_main Examples.self3 Examples.world3 (initial_vars Examples.self3)
    = Some vars'
    /\ v vars' = [1%R; 1%R].
Proof.
  destruct (@overcounting_update_rule Examples.self3 Examples.world3)
    as [_ [vars' [Hbody Hv]]].
  - exact well_formed3.
  - vm_compute; lia.
  - exists vars'. split; [exact Hbody | exact Hv].
Defined.

(** C4 on the code: the value carried from step to step is the factor
    [overcounting_correct] returned, not the count it updated.  With four
    taxa, the pair of step 1 lies below the threshold 2, so the factor of
    step 1 is [1 / (1 + 1)] and that factor is carried; the pair of step 2
    is mixed for the threshold 1, so the carried value is left unchanged
    and the factor of step 2 is its reciprocal [1 / (1 / (1 + 1) + 0) = 2],
    where the count 2 left unchanged would give the factor [1 / 2]. *)
Theorem multiplicity_update_acts_on_the_factor :
  exists vars2 vars3,
    run_steps Examples.self4 Examples.world4 2 (initial_vars Examples.self4)
    = Some vars2
    /\ option_map (map snd) (sampled_pairs Examples.self4 Examples.world4 1)
       = Some [[1; 0]; [1; 0]]
    /\ v vars2 = [(1 / (1 + 1))%R; (1 / (1 + 1))%R]
    /\ option_map (map snd) (sampled_pairs Examples.self4 Examples.world4 2)
       = Some [[1; 0]; [1; 0]]
    /\ (forall v0 : R,
          overcounting_correct Examples.self4 v0 [1; 0] 2
          = Some (1 / (v0 + 0))%R)
    /\ body_main Examples.self4 Examples.world4 vars2 = Some vars3
    /\ v vars3 = [(1 / (1 / (1 + 1) + 0))%R; (1 / (1 / (1 + 1) + 0))%R]
    /\ nth 0 (v vars3) 0%R = 2%R
    /\ nth 0 (v vars3) 0%R <> (1 / (1 + 1 + 0))%R.
Proof.
  destruct (@run_steps_shape Examples.self4 Examples.world4 2 well_formed4)
    as [vars2 [Hrun2 [Hsh2 Hr2]]]; [vm_compute; lia|].
  destruct (@body_main_spec Examples.self4 Examples.world4 vars2 well_formed4
              Hsh2)
    as [vars3 [_ [_ [_ [_ [Hbody _]]]]]]; [rewrite Hr2; vm_compute; lia|].
  assert (Hv2 : option_map v (run_steps Examples.self4 Examples.world4 2
                                (initial_vars Examples.self4))
                = Some [(1 / (1 + 1))%R; (1 / (1 + 1))%R])
    by (vm_compute; reflexivity).
  assert (Hv3 : option_map v (run_steps Examples.self4 Examples.world4 3
                                (initial_vars Examples.self4))
                = Some [(1 / (1 / (1 + 1) + 0))%R;
                        (1 / (1 / (1 + 1) + 0))%R])
    by (vm_compute; reflexivity).
  change (run_steps Examples.self4 Examples.world4 3
            (initial_vars Examples.self4))
    with (bind (run_steps Examples.self4 Examples.world4 2
                  (initial_vars Examples.self4))
               (body_main Examples.self4 Examples.world4)) in Hv3.
  rewrite Hrun2 in Hv2, Hv3.
  cbn [bind option_map] in Hv2, Hv3. rewrite Hbody in Hv3.
  cbn [option_map] in Hv3.
  injection Hv2 as Hv2. injection Hv3 as Hv3.
  exists vars2, vars3.
  split; [exact Hrun2|]. split; [vm_compute; reflexivity|].
  split; [exact Hv2|]. split; [vm_compute; reflexivity|].
  split; [intros v0; reflexivity|]. split; [exact Hbody|].
  split; [exact Hv3|]. rewrite Hv3. cbn [nth].
  split; [field | lra].
Qed.

(** C5 on the code: with four taxa, a pair of positions below the
    threshold at step 1 makes the value carried to step 2 equal to
    [1 / (1 + 1)], which is below 1. *)
Theorem carried_multiplicity_drops_below_one :
  exists vars2,
    run_steps Examples.self4 Examples.world4 2 (initial_vars Examples.self4)
    = Some vars2
    /\ option_map (map snd) (sampled_pairs Examples.self4 Examples.world4 1)
       = Some [[1; 0]; [1; 0]]
    /\ v vars2 = [(1 / (1 + 1))%R; (1 / (1 + 1))%R]
    /\ (nth 0 (v vars2) 0 < 1)%R.
Proof.
  destruct (run_steps Examples.self4 Examples.world4 2
              (initial_vars Examples.self4)) as [vars2|] eqn:Hrun.
  - exists vars2. split; [reflexivity|].
    split; [vm_compute; reflexivity|].
    assert (Hv : option_map v (run_steps Examples.self4 Examples.world4 2
                                 (initial_vars Examples.self4))
                 = Some [(1 / (1 + 1))%R; (1 / (1 + 1))%R]).
    { vm_compute. reflexivity. }
    rewrite Hrun in Hv. simpl in Hv. injection Hv as Hv.
    split; [exact Hv|]. rewrite Hv. simpl. lra.
  - exfalso.
    destruct (@run_steps_shape Examples.self4 Examples.world4 2 well_formed4)
      as [vars [Hsome _]]; [vm_compute; lia|].
    rewrite Hrun in Hsome. discriminate.
Qed.

(** C10: the two positions [extend_partial_state] hands to
    [overcounting_correct] at step [r] come from a top-k over at most
    [n - r] scores, so none exceeds the threshold [n - r - 1]: the test of
    the decrementing branch is false, and the multiplicity is updated by
    adding 1 or 0, never by subtracting. *)
Theorem decrement_branch_unreachable (self : VCSMC) (w : World)
  (JCK : list (list string)) (r : nat) (ext : Extension) :
  extend_partial_state self w JCK r = Some ext ->
  Forall (fun row =>
            exists i1 i2,
              row = [i1; i2]
              /\ (Z.of_nat i1 <= Z.of_nat (n self) - Z.of_nat r - 1)%Z
              /\ (Z.of_nat i2 <= Z.of_nat (n self) - Z.of_nat r - 1)%Z
              /\ ((Z.of_nat i1 >? Z.of_nat (n self) - Z.of_nat r - 1)%Z
                  && (Z.of_nat i2 >? Z.of_nat (n self) - Z.of_nat r - 1)%Z
                  = false)
              /\ forall v0 : R,
                   overcounting_correct self v0 row r = Some (1 / (v0 + 1))%R
                   \/ overcounting_correct self v0 row r
                      = Some (1 / (v0 + 0))%R)
         (coalesced_indices ext).
Proof.
  intros Hext.
  eapply Forall_impl; [|apply (coalesced_indices_in_range _ _ _ _ Hext)].
  intros row [i1 [i2 [-> [_ [H1 H2]]]]].
  exists i1, i2.
  assert (G1 : (Z.of_nat i1 >? Z.of_nat (n self) - Z.of_nat r - 1)%Z = false)
    by (rewrite Z.gtb_ltb; apply Z.ltb_ge; lia).
  assert (G2 : (Z.of_nat i2 >? Z.of_nat (n self) - Z.of_nat r - 1)%Z = false)
    by (rewrite Z.gtb_ltb; apply Z.ltb_ge; lia).
  split; [reflexivity|]. split; [lia|]. split; [lia|].
  split; [rewrite G1; reflexivity|].
  intros v0. unfold overcounting_correct. cbn [TF.gather1 nth_error bind].
  rewrite G1. cbn [andb].
  destruct ((Z.of_nat i1 <? _)%Z && (Z.of_nat i2 <? _)%Z); auto.
Qed.

Lemma decrement_branch_unreachable_witness :
  exists ext,
    extend_partial_state Examples.self3 Examples.world3
      (repeat (taxa Examples.self3) 2) 0 = Some ext
    /\ Forall (fun row => exists i1 i2, row = [i1; i2] /\ i1 <= 2 /\ i2 <= 2)
              (coalesced_indices ext).
Proof.
  destruct (extend_partial_state Examples.self3 Examples.world3
              (repeat (taxa Examples.self3) 2) 0) as [ext|] eqn:Hext;
    [|vm_compute in Hext; discriminate].
  exists ext. split; [reflexivity|].
  eapply Forall_impl;
    [|apply (@decrement_branch_unreachable Examples.self3 Examples.world3
               _ 0 ext Hext)].
  intros row [i1 [i2 [-> [H1 [H2 _]]]]].
  exists i1, i2. split; [reflexivity|].
  change (Z.of_nat (n Examples.self3)) with 3%Z in H1, H2. lia.
Defined.

(** ** The scores favour the last positions *)

Lemma Qle_bool_false (x y : Q) : Qle_bool x y = false -> (y < x)%Q.
Proof.
  intros H. apply Qnot_le_lt. intros Hle.
  apply Qle_bool_iff in Hle. congruence.
Qed.

(** With three nodes: whenever the noise read backwards selects the pair
    of positions 0 and 1, the noise itself selects the pair 1 and 2. *)
Lemma mirrored_noise_selects_last_pair (z0 z1 z2 : Q) (i1 i2 : nat) :
  option_map (map snd)
    (mapM (fun row => TF.top_k Qle_bool row 2)
          (add_noise [[inject_Z 0; inject_Z 1; inject_Z 2]] [[z2; z1; z0]]))
  = Some [[i1; i2]] ->
  i1 + i2 = 1 ->
  exists j1 j2,
    option_map (map snd)
      (mapM (fun row => TF.top_k Qle_bool row 2)
            (add_noise [[inject_Z 0; inject_Z 1; inject_Z 2]] [[z0; z1; z2]]))
    = Some [[j1; j2]]
    /\ j1 + j2 = 3.
Proof.
  unfold add_noise, TF.top_k, TF.sort_desc.
  cbn [combine map fst snd length seq fold_right mapM bind Nat.leb
       TF.insert_desc].
  intros H Hsum.
  assert (Hlow : (inject_Z 2 + z0 <= inject_Z 1 + z1)%Q
                 /\ (inject_Z 2 + z0 <= inject_Z 0 + z2)%Q).
  { destruct (Qle_bool (inject_Z 2 + z0) (inject_Z 1 + z1)) eqn:T1;
      cbn [TF.insert_desc fst snd] in H.
    - destruct (Qle_bool (inject_Z 1 + z1) (inject_Z 0 + z2)) eqn:T2;
        cbn [TF.insert_desc fst snd] in H.
      + apply Qle_bool_iff in T1, T2. split; [exact T1|].
        eapply Qle_trans; eassumption.
      + destruct (Qle_bool (inject_Z 2 + z0) (inject_Z 0 + z2)) eqn:T3;
          cbn [firstn map snd option_map bind] in H.
        * apply Qle_bool_iff in T1, T3. split; assumption.
        * injection H as <- <-. discriminate.
    - destruct (Qle_bool (inject_Z 2 + z0) (inject_Z 0 + z2)) eqn:T2;
        cbn [TF.insert_desc fst snd] in H.
      + cbn [firstn map snd option_map bind] in H.
        injection H as <- <-. discriminate.
      + destruct (Qle_bool (inject_Z 1 + z1) (inject_Z 0 + z2)) eqn:T3;
          cbn [firstn map snd option_map bind] in H;
          injection H as <- <-; discriminate. }
  destruct Hlow as [L1 L2].
  assert (F1 : Qle_bool (inject_Z 1 + z1) (inject_Z 0 + z0) = false).
  { destruct (Qle_bool (inject_Z 1 + z1) (inject_Z 0 + z0)) eqn:T;
      [|reflexivity].
    apply Qle_bool_iff in T.
    assert (C : (inject_Z 2 <= inject_Z 0)%Q) by lra.
    exfalso. apply C. reflexivity. }
  assert (F2 : Qle_bool (inject_Z 2 + z2) (inject_Z 0 + z0) = false).
  { destruct (Qle_bool (inject_Z 2 + z2) (inject_Z 0 + z0)) eqn:T;
      [|reflexivity].
    apply Qle_bool_iff in T.
    assert (C : (inject_Z 2 <= inject_Z 0)%Q) by lra.
    exfalso. apply C. reflexivity. }
  destruct (Qle_bool (inject_Z 2 + z2) (inject_Z 1 + z1)) eqn:T1;
    cbn [TF.insert_desc fst snd]; rewrite ?F1, ?F2;
    cbn [TF.insert_desc fst snd]; rewrite ?F1, ?F2;
    cbn [firstn map snd option_map bind].
  - exists 1, 2. split; reflexivity.
  - exists 2, 1. split; reflexivity.
Qed.

(** C1 on the code: the labels of the merged nodes are gathered from the
    flattened jump chain with positions counted inside one row, so every
    particle reads the row of particle 0.  After step 0 particle 1 holds
    the forest [A, C+B]; at step 1 it is given the labels [A+C] and [B] of
    particle 0 and ends with the tree [A+C+B].  The scores that receive the
    Gumbel noise are the positions 0, 1, 2 themselves: every noise vector
    whose mirror image selects the pair of positions 0 and 1 selects the
    pair 1 and 2, while equal noise selects the pair 2 and 1 both ways. *)
Theorem labels_read_from_first_particle :
  option_map jump_chain_tensor
    (run_steps Examples.self3 Examples.world3 1 (initial_vars Examples.self3))
  = Some [["B"; "A+C"]; ["A"; "C+B"]]%string
  /\ option_map
       (fun e => (coalesced_indices e, particle1 e, particle2 e,
                  particle_coalesced e))
       (extend_partial_state Examples.self3 Examples.world3
          [["B"; "A+C"]; ["A"; "C+B"]]%string 1)
     = Some ([[1; 0]; [1; 0]], ["A+C"; "A+C"], ["B"; "B"],
             ["A+C+B"; "A+C+B"])%string
  /\ option_map jump_chain_tensor
       (run_steps Examples.self3 Examples.world3 2 (initial_vars Examples.self3))
     = Some [["A+C+B"]; ["A+C+B"]]%string
  /\ score_data Examples.self3 0
     = Some [[inject_Z 0; inject_Z 1; inject_Z 2];
             [inject_Z 0; inject_Z 1; inject_Z 2]]
  /\ (forall (z0 z1 z2 : Q) (i1 i2 : nat),
        option_map (map snd)
          (mapM (fun row => TF.top_k Qle_bool row 2)
                (add_noise [[inject_Z 0; inject_Z 1; inject_Z 2]]
                           [[z2; z1; z0]]))
        = Some [[i1; i2]] ->
        i1 + i2 = 1 ->
        exists j1 j2,
          option_map (map snd)
            (mapM (fun row => TF.top_k Qle_bool row 2)
                  (add_noise [[inject_Z 0; inject_Z 1; inject_Z 2]]
                             [[z0; z1; z2]]))
          = Some [[j1; j2]]
          /\ j1 + j2 = 3)
  /\ option_map (map snd)
       (mapM (fun row => TF.top_k Qle_bool row 2)
             (add_noise [[inject_Z 0; inject_Z 1; inject_Z 2]]
                        [[inject_Z 0; inject_Z 0; inject_Z 0]]))
     = Some [[2; 1]].
Proof.
  split; [vm_compute; reflexivity|].
  split; [vm_compute; reflexivity|].
  split; [vm_compute; reflexivity|].
  split; [vm_compute; reflexivity|].
  split; [|vm_compute; reflexivity].
  intros z0 z1 z2 i1 i2. apply mirrored_noise_selects_last_pair.
Qed.

(** ** Sums *)

Lemma reduce_sum_app (l1 l2 : list R) :
  TF.reduce_sum (l1 ++ l2) = (TF.reduce_sum l1 + TF.reduce_sum l2)%R.
Proof.
  unfold TF.reduce_sum. induction l1 as [|x l1 IH]; simpl; [lra|].
  rewrite IH. lra.
Qed.

Lemma sum_upto_ext (f g : nat -> R) (len : nat) :
  (forall i, i < len -> f i = g i) -> sum_upto f len = sum_upto g len.
Proof.
  induction len as [|len IH]; intros H; simpl; [reflexivity|].
  rewrite IH, H by auto. reflexivity.
Qed.

Lemma reduce_sum_map_sum_upto {A : Type} (f : A -> R) (l : list A) (d : A) :
  TF.reduce_sum (map f l) = sum_upto (fun i => f (nth i l d)) (length l).
Proof.
  induction l as [|x l IH] using rev_ind; [reflexivity|].
  rewrite map_app, reduce_sum_app, length_app, Nat.add_1_r. simpl.
  rewrite nth_middle, IH, Rplus_0_r. f_equal.
  apply sum_upto_ext. intros i Hi. rewrite app_nth1 by exact Hi. reflexivity.
Qed.

(** ** The tree likelihood *)

Lemma nth_nil {A : Type} (i : nat) (d : A) : nth i [] d = d.
Proof. destruct i; reflexivity. Qed.

Lemma map_nth_seq {A : Type} (l : list A) (d : A) :
  map (fun i => nth i l d) (seq 0 (length l)) = l.
Proof.
  apply (nth_ext _ _ d d).
  - rewrite length_map, length_seq. reflexivity.
  - intros i Hi. rewrite length_map, length_seq in Hi.
    rewrite nth_map_seq by exact Hi. reflexivity.
Qed.

Lemma transpose_transpose (rows cols : nat) (m : matrix) :
  rectangular rows cols m -> 1 <= cols ->
  TF.transpose (TF.transpose m) = m.
Proof.
  intros [Hlen Hrows] Hcols.
  destruct (Nat.eq_dec rows 0) as [Hz|Hnz].
  { destruct m; [reflexivity | simpl in Hlen; lia]. }
  assert (Hn : TF.ncols m = cols).
  { unfold TF.ncols. destruct m as [|row0 m']; [simpl in Hlen; lia|].
    simpl. inversion Hrows; assumption. }
  assert (HnT : TF.ncols (TF.transpose m) = rows).
  { unfold TF.ncols, TF.transpose. rewrite Hn.
    destruct cols; [lia|]. simpl. rewrite length_map. exact Hlen. }
  unfold TF.transpose at 1. rewrite HnT.
  rewrite <- Hlen.
  etransitivity; [|apply (map_nth_seq m [])].
  apply map_ext_in. intros i Hi. apply in_seq in Hi.
  unfold TF.transpose. rewrite Hn, map_map.
  assert (Hrow : length (nth i m []) = cols).
  { rewrite Forall_forall in Hrows. apply Hrows. apply nth_In. lia. }
  etransitivity; [|apply (map_nth_seq (nth i m []) 0%R)].
  rewrite Hrow.
  apply map_ext. intros j.
  rewrite <- (nth_nil j 0%R) at 1.
  apply (map_nth (fun row : list R => nth j row 0%R)).
Qed.

(** [compute_tree_likelihood] site by site. *)
Lemma compute_tree_likelihood_sites (self : VCSMC) (rows cols : nat)
  (data : matrix) :
  rectangular rows cols data -> 1 <= cols ->
  compute_tree_likelihood self data
  = TF.reduce_sum (map (fun site => ln (site_likelihood self site)) data).
Proof.
  intros Hdata Hcols.
  unfold compute_tree_likelihood, TF.matmul_transpose_b, TF.matmul.
  rewrite (transpose_transpose Hdata Hcols).
  unfold stationary_probs, get_stationary_probs. cbn [map TF.flatten concat].
  rewrite app_nil_r, map_map. reflexivity.
Qed.

(** C2 (as amended): for a root matrix with one row per site,
    [compute_tree_likelihood] dots the stationary distribution (the softmax
    of the free logits) with each site and returns the sum over the sites
    of the logarithms of these site likelihoods. *)
Theorem tree_likelihood_sums_site_logs (self : VCSMC) (rows cols : nat)
  (data : matrix) :
  rectangular rows cols data -> 1 <= cols ->
  stationary_vector self
  = map (fun y => (exp y / TF.reduce_sum (map exp (y_station self)))%R)
        (y_station self)
  /\ compute_tree_likelihood self data
     = sum_upto (fun site =>
                   ln (TF.dot (stationary_vector self) (nth site data [])))
                rows.
Proof.
  intros Hdata Hcols. split; [reflexivity|].
  rewrite (compute_tree_likelihood_sites self Hdata Hcols).
  rewrite (reduce_sum_map_sum_upto _ data []).
  destruct Hdata as [-> _]. reflexivity.
Qed.

Lemma site_likelihood_root2 :
  site_likelihood Examples.self3 (Examples.onehot 0 2) = (1 / 2)%R.
Proof.
  unfold site_likelihood, stationary_vector, stationary_probs,
    get_stationary_probs, TF.dot, TF.reduce_sum.
  cbn. rewrite exp_0. lra.
Qed.

Lemma root2_rectangular : rectangular 2 2 Examples.root2.
Proof. split; [reflexivity | repeat constructor]. Qed.

Lemma tree_likelihood_sums_site_logs_witness :
  compute_tree_likelihood Examples.self3 Examples.root2
  = sum_upto (fun site =>
                ln (TF.dot (stationary_vector Examples.self3)
                           (nth site Examples.root2 [])))
             2.
Proof.
  apply (@tree_likelihood_sums_site_logs Examples.self3 2 2 Examples.root2).
  - exact root2_rectangular.
  - lia.
Defined.

(** C2 as stated fails: for a root with two sites that both have
    likelihood 1/2 the code returns [ln (1/2) + ln (1/2)], while the
    logarithm of the summed likelihood is [ln 1 = 0]. *)
Lemma tree_likelihood_is_not_log_of_sum :
  compute_tree_likelihood Examples.self3 Examples.root2
  <> log_of_summed_likelihood Examples.self3 Examples.root2.
Proof.
  rewrite (@compute_tree_likelihood_sites Examples.self3 2 2 Examples.root2
             root2_rectangular) by lia.
  unfold log_of_summed_likelihood, Examples.root2.
  cbn [map TF.reduce_sum fold_right].
  rewrite site_likelihood_root2.
  replace (1 / 2 + (1 / 2 + 0))%R with 1%R by lra.
  rewrite ln_1.
  assert (ln (1 / 2) < 0)%R.
  { rewrite <- ln_1. apply ln_increasing; lra. }
  lra.
Qed.

(** ** The estimator *)

Lemma gather_pylist_nonempty {A : Type} (l : list A) (idx : list nat) :
  idx <> [] -> TF.gather_pylist l idx = TF.gather l idx.
Proof. destruct idx; [contradiction | reflexivity]. Qed.

(** With a single taxon the loop does not run and the list of rows to keep
    is empty: [sample_phylogenies] fails. *)
Lemma sample_phylogenies_needs_two_taxa (self : VCSMC) (w : World) :
  n self <= 1 -> sample_phylogenies self w = None.
Proof.
  intros Hn. unfold sample_phylogenies.
  destruct (fuel w) as [|fuel']; unfold TF.while_loop, cond_main;
    cbn [initial_vars r];
    replace (0 <? n self - 1) with false
      by (symmetry; apply Nat.ltb_ge; lia);
    cbn [bind]; unfold TF.range_nat;
    replace (n self - 1) with 0 by lia; reflexivity.
Qed.

Lemma sample_phylogenies_runs (self : VCSMC) (w : World) :
  well_formed self w -> 2 <= n self ->
  exists final lw,
    sample_phylogenies self w
    = Some (mkSample final lw (compute_log_ZSMC self lw))
    /\ run_steps self w (n self - 1) (initial_vars self) = Some final
    /\ log_weights final = nth 0 (log_weights final) [] :: lw
    /\ rectangular (n self - 1) (K self) lw.
Proof.
  intros Hwf Hn.
  destruct (main_loop_runs Hwf) as [final [Hloop [Hsteps [Hsh Hr]]]].
  destruct (sh_log_weights Hsh) as [Hlen Hrows]. rewrite Hr in Hlen.
  destruct (log_weights final) as [|row0 lw] eqn:Hlw; [simpl in Hlen; lia|].
  exists final, lw.
  simpl in Hlen.
  assert (Hlwlen : length lw = n self - 1) by lia.
  split; [|split; [exact Hsteps|split; [rewrite Hlw; reflexivity|]]].
  - unfold sample_phylogenies. rewrite Hloop. cbn [bind]. rewrite Hlw.
    unfold TF.range_nat.
    rewrite gather_pylist_nonempty
      by (destruct (n self - 1) eqn:E; [lia | discriminate]).
    rewrite gather_seq by (simpl; lia).
    cbn [skipn bind]. rewrite <- Hlwlen, firstn_all. reflexivity.
  - split; [exact Hlwlen|]. inversion Hrows; assumption.
Qed.

(** C7: with at least two taxa, the ELBO returned by [sample_phylogenies]
    is the sum over the [n - 1] steps of the log-sum-exp over the [K]
    particles of [logWeight[step, k] - log K], where the log-weight matrix
    is the one the loop recorded without its initial row. *)
Theorem elbo_is_sum_of_logsumexp (self : VCSMC) (w : World) :
  well_formed self w -> 2 <= n self ->
  exists smp,
    sample_phylogenies self w = Some smp
    /\ run_steps self w (n self - 1) (initial_vars self) = Some (final_vars smp)
    /\ rectangular (n self - 1) (K self) (sample_log_weights smp)
    /\ (forall step, step < n self - 1 ->
          nth step (sample_log_weights smp) []
          = nth (step + 1) (log_weights (final_vars smp)) [])
    /\ elbo smp
       = sum_upto
           (fun step =>
              ln (sum_upto
                    (fun k =>
                       exp (nth k (nth step (sample_log_weights smp) []) 0%R
                            - ln (INR (K self))))
                    (K self)))
           (n self - 1).
Proof.
  intros Hwf Hn.
  destruct (sample_phylogenies_runs Hwf Hn)
    as [final [lw [Hs [Hsteps [Hlw Hrect]]]]].
  exists (mkSample final lw (compute_log_ZSMC self lw)).
  cbn [final_vars sample_log_weights elbo].
  split; [exact Hs|]. split; [exact Hsteps|]. split; [exact Hrect|]. split.
  - intros step _. rewrite Hlw, Nat.add_1_r. reflexivity.
  - unfold compute_log_ZSMC.
    rewrite (reduce_sum_map_sum_upto _ lw []).
    destruct Hrect as [Hlen Hrows]. rewrite Hlen.
    apply sum_upto_ext. intros step Hstep.
    unfold TF.reduce_logsumexp. rewrite map_map.
    rewrite (reduce_sum_map_sum_upto _ (nth step lw []) 0%R).
    rewrite Forall_forall in Hrows.
    rewrite (Hrows (nth step lw [])) by (apply nth_In; lia).
    reflexivity.
Qed.

Lemma elbo_is_sum_of_logsumexp_witness :
  exists smp,
    sample_phylogenies Examples.self3 Examples.world3 = Some smp
    /\ rectangular 2 2 (sample_log_weights smp).
Proof.
  destruct (@elbo_is_sum_of_logsumexp Examples.self3 Examples.world3
              well_formed3) as [smp [Hs [_ [Hrect _]]]]; [vm_compute; lia|].
  exists smp. split; [exact Hs | exact Hrect].
Defined.

(** ** The rate matrix *)

Lemma set_nth_length {A : Type} (l : list A) (i : nat) (x : A) :
  length (TF.set_nth l i x) = length l.
Proof.
  revert i; induction l as [|y l IH]; intros [|i]; simpl; auto.
Qed.

Lemma nth_set_nth_eq {A : Type} (l : list A) (i : nat) (x d : A) :
  i < length l -> nth i (TF.set_nth l i x) d = x.
Proof.
  revert i; induction l as [|y l IH]; intros [|i] H; simpl in *;
    try lia; auto. apply IH. lia.
Qed.

Lemma nth_set_nth_neq {A : Type} (l : list A) (i j : nat) (x d : A) :
  j <> i -> nth j (TF.set_nth l i x) d = nth j l d.
Proof.
  revert i j; induction l as [|y l IH]; intros [|i] [|j] H; simpl;
    try reflexivity; try lia. apply IH. lia.
Qed.

Lemma reduce_sum_set_nth (l : list R) (i : nat) (x : R) :
  i < length l ->
  TF.reduce_sum (TF.set_nth l i x) = (TF.reduce_sum l - nth i l 0 + x)%R.
Proof.
  unfold TF.reduce_sum.
  revert i; induction l as [|y l IH]; intros [|i] H; simpl in *; try lia.
  - lra.
  - rewrite IH by lia. lra.
Qed.

Lemma set_diag_from_length {A : Type} (i : nat) (m : list (list A)) (d : list A) :
  length (TF.set_diag_from i m d) = length m.
Proof.
  revert i d; induction m as [|row m IH]; intros i [|x d]; simpl; auto.
Qed.

Lemma set_diag_from_row {A : Type} (i k : nat) (m : list (list A))
  (d : list A) (row : list A) (x : A) :
  nth_error m k = Some row -> nth_error d k = Some x ->
  nth_error (TF.set_diag_from i m d) k = Some (TF.set_nth row (i + k) x).
Proof.
  revert i k d; induction m as [|r0 m IH]; intros i [|k] [|x0 d] Hm Hd;
    simpl in *; try discriminate.
  - injection Hm as ->. injection Hd as ->. rewrite Nat.add_0_r. reflexivity.
  - rewrite (IH (S i) k d Hm Hd). f_equal. f_equal. lia.
Qed.

Lemma nth_error_repeat {A : Type} (x : A) (len k : nat) :
  k < len -> nth_error (repeat x len) k = Some x.
Proof.
  revert k; induction len as [|len IH]; intros [|k] H; simpl; try lia; auto.
  apply IH. lia.
Qed.

Lemma combine_repeat_map (l : list R) (c : R) (len : nat) :
  length l = len ->
  map (fun q => (fst q * snd q)%R) (combine l (repeat c len))
  = map (fun x => (x * c)%R) l.
Proof.
  revert len; induction l as [|x l IH]; intros [|len] H; simpl in *;
    try discriminate; try reflexivity.
  rewrite IH by lia. reflexivity.
Qed.

Lemma reduce_sum_nonneg_entry (l : list R) (j : nat) :
  Forall (fun x => 0 <= x)%R l -> (nth j l 0 <= TF.reduce_sum l)%R.
Proof.
  unfold TF.reduce_sum. intros H. revert j.
  induction H as [|x l Hx Hl IH]; intros [|j]; simpl; try lra.
  - assert (0 <= fold_right Rplus 0 l)%R.
    { specialize (IH (length l)). rewrite nth_overflow in IH by lia. exact IH. }
    lra.
  - specialize (IH j). lra.
Qed.

Lemma nth_error_combine_map {A B : Type} (f : A -> B) (l : list A) (i : nat)
  (x : A) :
  nth_error l i = Some x -> nth_error (combine l (map f l)) i = Some (x, f x).
Proof.
  revert i; induction l as [|y l IH]; intros [|i] H; simpl in *;
    try discriminate.
  - injection H as ->. reflexivity.
  - apply IH. exact H.
Qed.

Lemma get_Q_row (self : VCSMC) (i : nat) :
  rectangular (a self) (a self) (y_q_var self) -> i < a self ->
  nth_error (get_Q self) i
  = Some (TF.set_nth (rate_row (y_q_var self) i) i
                     (- TF.reduce_sum (rate_row (y_q_var self) i))%R).
Proof.
  intros Hy Hi. set (y := y_q_var self) in *.
  destruct (rectangular_row Hy Hi) as [yrow [Hyrow Hylen]].
  assert (Hyq : nth_error (y_q self) i = Some (TF.set_nth yrow i 0%R)).
  { unfold y_q, TF.set_diag. fold y.
    rewrite (@set_diag_from_row R 0 i y (zeros (a self)) yrow 0%R Hyrow
               (@nth_error_repeat R 0%R (a self) i Hi)). reflexivity. }
  assert (He : nth_error (TF.set_diag (map (map exp) (y_q self))
                                      (zeros (a self))) i
               = Some (exp_row y i)).
  { unfold TF.set_diag.
    rewrite (@set_diag_from_row R 0 i (map (map exp) (y_q self))
               (zeros (a self)) (map exp (TF.set_nth yrow i 0%R)) 0%R).
    - unfold exp_row. rewrite (nth_error_nth_default _ _ [] Hyrow). reflexivity.
    - rewrite nth_error_map, Hyq. reflexivity.
    - apply nth_error_repeat. exact Hi. }
  assert (Helen : length (exp_row y i) = a self).
  { unfold exp_row. rewrite set_nth_length, length_map, set_nth_length.
    rewrite (nth_error_nth_default _ _ [] Hyrow). exact Hylen. }
  unfold get_Q.
  set (e := TF.set_diag (map (map exp) (y_q self)) (zeros (a self))) in *.
  assert (Hq : nth_error
                 (TF.multiply e
                    (map (map (fun d => (1 / d)%R))
                         (map (fun d => repeat d (a self))
                              (map TF.reduce_sum e)))) i
               = Some (rate_row y i)).
  { unfold TF.multiply. rewrite nth_error_map.
    assert (Hc : nth_error
                   (combine e (map (map (fun d => (1 / d)%R))
                                   (map (fun d => repeat d (a self))
                                        (map TF.reduce_sum e)))) i
                 = Some (exp_row y i,
                         repeat (1 / TF.reduce_sum (exp_row y i))%R (a self))).
    { rewrite !map_map.
      rewrite (nth_error_combine_map _ _ _ He), map_repeat. reflexivity. }
    rewrite Hc. cbn [option_map fst snd].
    unfold rate_row.
    rewrite (@combine_repeat_map (exp_row y i) _ (a self) Helen).
    reflexivity. }
  unfold TF.set_diag.
  rewrite (@set_diag_from_row R 0 i _ _ (rate_row y i)
             (- TF.reduce_sum (rate_row y i))%R Hq).
  - reflexivity.
  - rewrite !nth_error_map, Hq. reflexivity.
Qed.

Lemma nth_map_lt {A B : Type} (f : A -> B) (l : list A) (i : nat) (d : B) (d' : A) :
  i < length l -> nth i (map f l) d = f (nth i l d').
Proof.
  intros H. rewrite (nth_indep _ d (f d')) by (rewrite length_map; exact H).
  apply map_nth.
Qed.

Lemma exp_row_length (y : matrix) (i : nat) :
  length (exp_row y i) = length (nth i y []).
Proof.
  unfold exp_row. rewrite set_nth_length, length_map, set_nth_length.
  reflexivity.
Qed.

Lemma exp_row_diag (y : matrix) (i : nat) :
  i < length (nth i y []) -> nth i (exp_row y i) 0%R = 0%R.
Proof.
  intros H. unfold exp_row. apply nth_set_nth_eq.
  rewrite length_map, set_nth_length. exact H.
Qed.

Lemma exp_row_off_diag (y : matrix) (i j : nat) :
  j < length (nth i y []) -> j <> i ->
  (0 < nth j (exp_row y i) 0)%R.
Proof.
  intros H Hne. unfold exp_row.
  rewrite nth_set_nth_neq by exact Hne.
  rewrite (nth_map_lt exp _ 0%R 0%R) by (rewrite set_nth_length; exact H).
  apply exp_pos.
Qed.

Lemma exp_row_nonneg (y : matrix) (i : nat) :
  i < length (nth i y []) -> Forall (fun x => 0 <= x)%R (exp_row y i).
Proof.
  intros Hi. apply Forall_nth. intros k d Hk.
  rewrite (nth_indep _ d 0%R) by exact Hk.
  rewrite exp_row_length in Hk.
  destruct (Nat.eq_dec k i) as [->|Hne].
  - rewrite exp_row_diag by exact Hi. lra.
  - apply Rlt_le, exp_row_off_diag; assumption.
Qed.

(** Every off-diagonal rate is positive, and with an alphabet of at least
    two letters the normalising sum of a row is positive. *)
Lemma rate_row_off_diag (y : matrix) (i j : nat) :
  i < length (nth i y []) -> j < length (nth i y []) -> j <> i ->
  (0 < TF.reduce_sum (exp_row y i))%R /\ (0 < nth j (rate_row y i) 0)%R.
Proof.
  intros Hi Hj Hne.
  pose proof (exp_row_off_diag y Hj Hne) as Hpos.
  pose proof (reduce_sum_nonneg_entry j (exp_row_nonneg y Hi)) as Hle.
  assert (Hsum : (0 < TF.reduce_sum (exp_row y i))%R) by lra.
  split; [exact Hsum|].
  unfold rate_row.
  rewrite (nth_map_lt _ _ 0%R 0%R) by (rewrite exp_row_length; exact Hj).
  apply Rmult_lt_0_compat; [exact Hpos|].
  apply Rdiv_lt_0_compat; lra.
Qed.

Lemma get_Q_length (self : VCSMC) :
  rectangular (a self) (a self) (y_q_var self) ->
  length (get_Q self) = a self.
Proof.
  intros [Hlen _].
  unfold get_Q, TF.set_diag, TF.multiply.
  rewrite set_diag_from_length, length_map, length_combine, !length_map.
  unfold TF.set_diag. rewrite set_diag_from_length, length_map.
  unfold y_q, TF.set_diag. rewrite set_diag_from_length. lia.
Qed.

(** C8: whatever the values of the free rate parameters (an [a] by [a]
    matrix of logits, for an alphabet of at least two letters), the matrix
    returned by [get_Q] is [a] by [a], the sums it divides by are
    positive, each of its rows sums to zero and its off-diagonal entries
    are non-negative. *)
Theorem get_Q_is_generator (self : VCSMC) :
  rectangular (a self) (a self) (y_q_var self) -> 2 <= a self ->
  rectangular (a self) (a self) (get_Q self)
  /\ forall i, i < a self ->
       (0 < TF.reduce_sum (exp_row (y_q_var self) i))%R
       /\ TF.reduce_sum (nth i (get_Q self) []) = 0%R
       /\ forall j, j < a self -> j <> i ->
            (0 <= nth j (nth i (get_Q self) []) 0)%R.
Proof.
  intros Hy Ha.
  assert (Hrowlen : forall i, i < a self ->
            length (nth i (y_q_var self) []) = a self).
  { intros i Hi. apply (rectangular_nth Hy Hi). }
  assert (Hrows : forall i, i < a self ->
            nth i (get_Q self) []
            = TF.set_nth (rate_row (y_q_var self) i) i
                (- TF.reduce_sum (rate_row (y_q_var self) i))%R).
  { intros i Hi. apply nth_error_nth. apply get_Q_row; assumption. }
  assert (Hratelen : forall i, i < a self ->
            length (rate_row (y_q_var self) i) = a self).
  { intros i Hi. unfold rate_row.
    rewrite length_map, exp_row_length. apply Hrowlen. exact Hi. }
  split; [split|].
  - apply get_Q_length. exact Hy.
  - apply Forall_nth. intros i d Hi.
    rewrite (get_Q_length self Hy) in Hi.
    rewrite (nth_indep _ d []) by (rewrite (get_Q_length self Hy); exact Hi).
    rewrite (Hrows i Hi), set_nth_length. apply Hratelen. exact Hi.
  - intros i Hi. rewrite (Hrows i Hi). split; [|split].
    + (* some other letter [j] contributes a positive term *)
      destruct (rate_row_off_diag (y_q_var self) (i:=i)
                  (j:=if i =? 0 then 1 else 0)) as [Hsum _];
        try rewrite Hrowlen; try assumption;
        destruct (Nat.eqb_spec i 0); lia.
    + rewrite reduce_sum_set_nth by (rewrite Hratelen; assumption).
      unfold rate_row at 2.
      rewrite (nth_map_lt _ _ 0%R 0%R)
        by (rewrite exp_row_length, Hrowlen; assumption).
      rewrite exp_row_diag by (rewrite Hrowlen; assumption).
      lra.
    + intros j Hj Hne. rewrite nth_set_nth_neq by exact Hne.
      apply Rlt_le.
      apply rate_row_off_diag; try rewrite Hrowlen; assumption.
Qed.

Lemma get_Q_is_generator_witness :
  TF.reduce_sum (nth 0 (get_Q Examples.self3) []) = 0%R.
Proof.
  destruct (@get_Q_is_generator Examples.self3) as [_ Hrows].
  - split; [reflexivity | repeat constructor].
  - vm_compute; lia.
  - apply (Hrows 0). vm_compute; lia.
Defined.

(** * Further properties of the program *)

(** ** The stationary distribution *)

Lemma reduce_sum_map_div (l : list R) (f : R -> R) (d : R) :
  TF.reduce_sum (map (fun y => (f y / d)%R) l)
  = (TF.reduce_sum (map f l) / d)%R.
Proof.
  unfold TF.reduce_sum. induction l as [|x l IH]; simpl.
  - unfold Rdiv. lra.
  - rewrite IH. unfold Rdiv. lra.
Qed.

Lemma reduce_sum_exp_pos (l : list R) :
  l <> [] -> (0 < TF.reduce_sum (map exp l))%R.
Proof.
  intros Hne. destruct l as [|x l]; [contradiction|].
  pose proof (@reduce_sum_nonneg_entry (map exp (x :: l)) 0) as H.
  simpl in H. pose proof (exp_pos x).
  assert (Forall (fun y => 0 <= y)%R (exp x :: map exp l)).
  { apply Forall_map with (f := exp) (l := x :: l).
    apply Forall_forall. intros y _. apply Rlt_le, exp_pos. }
  specialize (H H1). simpl. unfold TF.reduce_sum in *. simpl in *. lra.
Qed.

(** X1: [get_stationary_probs] returns a single row, the softmax of the
    logits [y_station]: it has one entry per logit, every entry is positive
    and the entries sum to 1. *)
Theorem stationary_probs_is_distribution (self : VCSMC) :
  y_station self <> [] ->
  stationary_probs self = [stationary_vector self]
  /\ length (stationary_vector self) = length (y_station self)
  /\ Forall (fun p => 0 < p)%R (stationary_vector self)
  /\ TF.reduce_sum (stationary_vector self) = 1%R.
Proof.
  intros Hne.
  pose proof (reduce_sum_exp_pos Hne) as Hpos.
  unfold stationary_vector, stationary_probs, get_stationary_probs.
  cbn [nth].
  split; [reflexivity|]. split; [apply length_map|]. split.
  - apply Forall_map with (f := fun y => (exp y / _)%R).
    apply Forall_forall. intros y _.
    apply Rdiv_lt_0_compat; [apply exp_pos | exact Hpos].
  - rewrite (reduce_sum_map_div (y_station self) exp). field. lra.
Qed.

Lemma stationary_probs_is_distribution_witness :
  TF.reduce_sum (stationary_vector Examples.self3) = 1%R.
Proof.
  destruct (@stationary_probs_is_distribution Examples.self3)
    as [_ [_ [_ Hsum]]]; [discriminate | exact Hsum].
Defined.

(** ** The rate matrix is normalised *)

Lemma reduce_sum_map_scale (l : list R) (c : R) :
  TF.reduce_sum (map (fun x => (x * c)%R) l) = (TF.reduce_sum l * c)%R.
Proof.
  unfold TF.reduce_sum. induction l as [|x l IH]; simpl; [lra|].
  rewrite IH. lra.
Qed.

Lemma rate_row_sums_to_one (y : matrix) (i : nat) :
  (0 < TF.reduce_sum (exp_row y i))%R ->
  TF.reduce_sum (rate_row y i) = 1%R.
Proof.
  intros Hpos. unfold rate_row. rewrite reduce_sum_map_scale. field. lra.
Qed.

(** X2: in the rate matrix of [get_Q] every diagonal entry is [-1] and
    every off-diagonal entry lies in (0, 1]: each state is left at rate 1,
    whatever the logits. *)
Theorem get_Q_unit_exit_rate (self : VCSMC) :
  rectangular (a self) (a self) (y_q_var self) -> 2 <= a self ->
  forall i, i < a self ->
    nth i (nth i (get_Q self) []) 0%R = (-1)%R
    /\ forall j, j < a self -> j <> i ->
         (0 < nth j (nth i (get_Q self) []) 0 <= 1)%R.
Proof.
  intros Hy Ha i Hi.
  assert (Hrowlen : length (nth i (y_q_var self) []) = a self)
    by apply (rectangular_nth Hy Hi).
  assert (Hrow : nth i (get_Q self) []
                 = TF.set_nth (rate_row (y_q_var self) i) i
                     (- TF.reduce_sum (rate_row (y_q_var self) i))%R).
  { apply nth_error_nth. apply get_Q_row; assumption. }
  assert (Hsum : (0 < TF.reduce_sum (exp_row (y_q_var self) i))%R).
  { destruct (rate_row_off_diag (y_q_var self) (i:=i)
                (j:=if i =? 0 then 1 else 0)) as [Hsum _];
      try rewrite Hrowlen; try assumption;
      destruct (Nat.eqb_spec i 0); lia. }
  rewrite Hrow. split.
  - rewrite nth_set_nth_eq
      by (unfold rate_row; rewrite length_map, exp_row_length, Hrowlen;
          exact Hi).
    rewrite (rate_row_sums_to_one _ _ Hsum). reflexivity.
  - intros j Hj Hne. rewrite nth_set_nth_neq by exact Hne.
    destruct (rate_row_off_diag (y_q_var self) (i:=i) (j:=j)) as [_ Hpos];
      try rewrite Hrowlen; try assumption.
    split; [exact Hpos|].
    unfold rate_row.
    rewrite (nth_map_lt _ _ 0%R 0%R)
      by (rewrite exp_row_length, Hrowlen; exact Hj).
    pose proof (@reduce_sum_nonneg_entry (exp_row (y_q_var self) i) j) as Hle.
    assert (Hi' : i < length (nth i (y_q_var self) []))
      by (rewrite Hrowlen; exact Hi).
    specialize (Hle (exp_row_nonneg (y_q_var self) Hi')).
    apply (Rmult_le_reg_r (TF.reduce_sum (exp_row (y_q_var self) i)));
      [exact Hsum|].
    replace (nth j (exp_row (y_q_var self) i) 0
             * (1 / TF.reduce_sum (exp_row (y_q_var self) i))
             * TF.reduce_sum (exp_row (y_q_var self) i))%R
      with (nth j (exp_row (y_q_var self) i) 0)%R by (field; lra).
    lra.
Qed.

Lemma get_Q_unit_exit_rate_witness :
  nth 0 (nth 0 (get_Q Examples.self3) []) 0%R = (-1)%R.
Proof.
  destruct (@get_Q_unit_exit_rate Examples.self3) with (i := 0)
    as [Hdiag _].
  - split; [reflexivity | repeat constructor].
  - vm_compute; lia.
  - vm_compute; lia.
  - exact Hdiag.
Defined.

(** ** The diagonal logits are never read *)

Lemma set_nth_set_nth {A : Type} (l : list A) (i : nat) (x y : A) :
  TF.set_nth (TF.set_nth l i x) i y = TF.set_nth l i y.
Proof.
  revert i; induction l as [|z l IH]; intros [|i]; simpl; try reflexivity.
  rewrite IH. reflexivity.
Qed.

Lemma set_diag_from_twice {A : Type} (i : nat) (m : list (list A))
  (d1 d2 : list A) :
  length d1 = length d2 ->
  TF.set_diag_from i (TF.set_diag_from i m d1) d2 = TF.set_diag_from i m d2.
Proof.
  revert i d1 d2; induction m as [|row m IH]; intros i [|x d1] [|y d2] H;
    simpl in *; try discriminate; try reflexivity.
  rewrite set_nth_set_nth, IH by lia. reflexivity.
Qed.

(** X3: [get_Q] never reads the diagonal of the logit variable:
    overwriting that diagonal with any values gives the same rate matrix. *)
Theorem get_Q_ignores_diagonal_logits (self : VCSMC) (d : list R) :
  length d = a self ->
  get_Q (with_y_q_var self (TF.set_diag (y_q_var self) d)) = get_Q self.
Proof.
  intros Hd.
  assert (Hyq : y_q (with_y_q_var self (TF.set_diag (y_q_var self) d))
                = y_q self).
  { unfold y_q, with_y_q_var, a, TF.set_diag. cbn [y_q_var genome_NxSxA].
    apply set_diag_from_twice.
    unfold zeros. rewrite repeat_length. exact Hd. }
  unfold get_Q. rewrite Hyq. reflexivity.
Qed.

Lemma get_Q_ignores_diagonal_logits_witness :
  get_Q (with_y_q_var Examples.self3
           (TF.set_diag (y_q_var Examples.self3) [5; 7]%R))
  = get_Q Examples.self3.
Proof.
  apply (@get_Q_ignores_diagonal_logits Examples.self3 [5; 7]%R).
  reflexivity.
Defined.

(** ** The model the constructor starts from *)

Lemma map_set_nth {A B : Type} (f : A -> B) (l : list A) (i : nat) (x : A) :
  map f (TF.set_nth l i x) = TF.set_nth (map f l) i (f x).
Proof.
  revert i; induction l as [|y l IH]; intros [|i]; simpl; try reflexivity.
  rewrite IH. reflexivity.
Qed.

Lemma exp_row_sum (y : matrix) (i : nat) :
  i < length (nth i y []) ->
  TF.reduce_sum (exp_row y i)
  = (TF.reduce_sum (map exp (nth i y [])) - exp (nth i (nth i y []) 0))%R.
Proof.
  intros Hi. unfold exp_row.
  rewrite map_set_nth, set_nth_set_nth.
  rewrite reduce_sum_set_nth by (rewrite length_map; exact Hi).
  rewrite (nth_map_lt exp _ 0%R 0%R) by exact Hi. lra.
Qed.

Lemma reduce_sum_repeat (x : R) (len : nat) :
  TF.reduce_sum (repeat x len) = (INR len * x)%R.
Proof.
  unfold TF.reduce_sum. induction len as [|len IH].
  - simpl. lra.
  - cbn [repeat fold_right]. rewrite IH, S_INR. lra.
Qed.

Lemma nth_repeat_below {A : Type} (x d : A) (len k : nat) :
  k < len -> nth k (repeat x len) d = x.
Proof.
  intros H. apply nth_error_nth. apply nth_error_repeat. exact H.
Qed.

(** X4: the object built by the constructor and [sample_phylogenies]
    starts with square logits, [K] rows of [n - 1] branch lengths on either
    side, the uniform stationary distribution and a rate matrix whose
    off-diagonal entries are all [1 / (a - 1)]. *)
Theorem VCSMC_init_starts_uniform (datadict_taxa : list string)
  (datadict_genome : list (list (list R))) (K0 : nat) (self : VCSMC) :
  self = VCSMC_init datadict_taxa datadict_genome K0 ->
  2 <= a self ->
  rectangular (a self) (a self) (y_q_var self)
  /\ rectangular (K self) (n self - 1) (left_branches self)
  /\ rectangular (K self) (n self - 1) (right_branches self)
  /\ stationary_vector self = repeat (1 / INR (a self))%R (a self)
  /\ forall i j, i < a self -> j < a self -> j <> i ->
       nth j (nth i (get_Q self) []) 0%R = (1 / (INR (a self) - 1))%R.
Proof.
  intros Hself Ha.
  set (c := (0 + 1 / INR (a self))%R).
  assert (Hy : y_q_var self = repeat (repeat c (a self)) (a self))
    by (unfold c; rewrite Hself; reflexivity).
  assert (Hst : y_station self = repeat c (a self))
    by (unfold c; rewrite Hself; reflexivity).
  assert (Hlb : left_branches self
                = repeat (repeat (0 + 1)%R (n self - 1)) (K self))
    by (rewrite Hself; reflexivity).
  assert (Hrb : right_branches self
                = repeat (repeat (0 + 1)%R (n self - 1)) (K self))
    by (rewrite Hself; reflexivity).
  clear Hself.
  assert (Hrect : rectangular (a self) (a self) (y_q_var self)).
  { rewrite Hy. rewrite <- (repeat_length c (a self)) at 2.
    apply rectangular_repeat. }
  assert (Hbr : forall rows cols : nat,
            rectangular rows cols (repeat (repeat (0 + 1)%R cols) rows)).
  { intros rows cols.
    rewrite <- (repeat_length (0 + 1)%R cols) at 1.
    apply rectangular_repeat. }
  assert (Ha2 : (2 <= INR (a self))%R)
    by (change 2%R with (INR 2); apply le_INR; exact Ha).
  split; [exact Hrect|]. split; [rewrite Hlb; apply Hbr|].
  split; [rewrite Hrb; apply Hbr|]. split.
  - unfold stationary_vector, stationary_probs, get_stationary_probs.
    cbn [nth].
    rewrite Hst.
    rewrite !map_repeat, reduce_sum_repeat.
    f_equal. pose proof (exp_pos c) as He. field. split; lra.
  - intros i j Hi Hj Hne.
    assert (Hrowi : nth i (y_q_var self) [] = repeat c (a self))
      by (rewrite Hy; apply nth_repeat_below; exact Hi).
    assert (Hlen : length (nth i (y_q_var self) []) = a self)
      by (rewrite Hrowi; apply repeat_length).
    rewrite (@nth_error_nth _ (get_Q self) i _ [] (get_Q_row self Hrect Hi)).
    rewrite nth_set_nth_neq by exact Hne.
    unfold rate_row.
    rewrite (nth_map_lt _ _ 0%R 0%R) by (rewrite exp_row_length, Hlen; exact Hj).
    rewrite exp_row_sum by (rewrite Hlen; exact Hi).
    unfold exp_row. rewrite nth_set_nth_neq by exact Hne.
    rewrite (nth_map_lt exp _ 0%R 0%R) by (rewrite set_nth_length, Hlen; exact Hj).
    rewrite nth_set_nth_neq by exact Hne.
    rewrite Hrowi, map_repeat, reduce_sum_repeat.
    rewrite !nth_repeat_below by assumption.
    pose proof (exp_pos c) as He.
    replace (INR (a self) * exp c - exp c)%R
      with ((INR (a self) - 1) * exp c)%R by ring.
    field. split; lra.
Qed.

Lemma VCSMC_init_starts_uniform_witness :
  stationary_vector
    (VCSMC_init (taxa Examples.self3) (genome_NxSxA Examples.self3) 2)
  = repeat (1 / INR 2)%R 2.
Proof.
  destruct (@VCSMC_init_starts_uniform (taxa Examples.self3)
              (genome_NxSxA Examples.self3) 2 _ eq_refl)
    as [_ [_ [_ [Hst _]]]]; [vm_compute; lia | exact Hst].
Defined.

(** ** The estimator on simple weight tables *)

Lemma logsumexp_shift (l : list R) (c : R) :
  l <> [] ->
  TF.reduce_logsumexp (map (fun x => (x + c)%R) l)
  = (TF.reduce_logsumexp l + c)%R.
Proof.
  intros Hne. unfold TF.reduce_logsumexp.
  rewrite map_map.
  replace (map (fun x => exp (x + c)) l)
    with (map (fun x => (x * exp c)%R) (map exp l)).
  - rewrite reduce_sum_map_scale.
    rewrite ln_mult; [|apply reduce_sum_exp_pos; exact Hne | apply exp_pos].
    rewrite ln_exp. reflexivity.
  - rewrite map_map. apply map_ext. intros x. rewrite exp_plus. reflexivity.
Qed.

Lemma logsumexp_constant_row (w : R) (K0 : nat) :
  1 <= K0 ->
  TF.reduce_logsumexp (map (fun x => (x - ln (INR K0))%R) (repeat w K0)) = w.
Proof.
  intros HK. unfold TF.reduce_logsumexp.
  rewrite !map_repeat, reduce_sum_repeat.
  assert (HK' : (0 < INR K0)%R) by (apply lt_0_INR; lia).
  unfold Rminus. rewrite exp_plus, exp_Ropp, exp_ln by exact HK'.
  replace (INR K0 * (exp w * / INR K0))%R with (exp w) by (field; lra).
  apply ln_exp.
Qed.

(** X5: when all particles of a step carry the same log weight,
    [compute_log_ZSMC] adds up these log weights, one per step; and adding
    a constant [c] to every log weight adds [c] once per recorded step. *)
Theorem compute_log_ZSMC_shift_and_uniform (self : VCSMC) :
  1 <= K self ->
  (forall ws : list R,
     compute_log_ZSMC self (map (fun w => repeat w (K self)) ws)
     = TF.reduce_sum ws)
  /\ (forall (log_weights : matrix) (c : R),
        Forall (fun row => row <> []) log_weights ->
        compute_log_ZSMC self (map (map (fun x => (x + c)%R)) log_weights)
        = (compute_log_ZSMC self log_weights
           + INR (length log_weights) * c)%R).
Proof.
  intros HK. split.
  - intros ws. unfold compute_log_ZSMC. rewrite map_map.
    f_equal. rewrite <- (map_id ws) at 2. apply map_ext. intros w.
    apply logsumexp_constant_row. exact HK.
  - intros lw c Hne. unfold compute_log_ZSMC.
    induction Hne as [|row lw Hrow _ IH].
    + simpl. lra.
    + cbn [map TF.reduce_sum fold_right length].
      unfold TF.reduce_sum in IH. rewrite IH. rewrite S_INR.
      rewrite map_map.
      replace (map (fun x => (x + c - ln (INR (K self)))%R) row)
        with (map (fun x => (x + c)%R)
                  (map (fun x => (x - ln (INR (K self)))%R) row))
        by (rewrite map_map; apply map_ext; intros; lra).
      rewrite logsumexp_shift by (destruct row; [contradiction|discriminate]).
      lra.
Qed.

Lemma compute_log_ZSMC_shift_and_uniform_witness :
  compute_log_ZSMC Examples.self3 [[1; 1]; [2; 2]]%R
  = TF.reduce_sum [1; 2]%R.
Proof.
  destruct (@compute_log_ZSMC_shift_and_uniform Examples.self3)
    as [Hconst _]; [vm_compute; lia|].
  exact (Hconst [1; 2]%R).
Defined.

(** ** The first step weighs nothing *)

Lemma first_row_stays_zero (self : VCSMC) (w : World) (step : nat) :
  well_formed self w -> 1 <= step -> step <= n self - 1 ->
  exists vars, run_steps self w step (initial_vars self) = Some vars
               /\ nth 1 (log_weights vars) [] = repeat 0%R (K self).
Proof.
  intros Hwf H1. induction step as [|step IH]; [lia|]. intros Hle.
  destruct (@run_steps_shape self w step Hwf) as [vars [Hrun [Hsh Hr]]];
    [lia|].
  destruct (@body_main_spec self w vars Hwf Hsh)
    as [vars' [top [q [lw_row [ll_row
         [Hbody [Hsh' [_ [_ [_ [Hlw [_ [_ Hentries]]]]]]]]]]]]]; [lia|].
  exists vars'. cbn [run_steps]. rewrite Hrun. cbn [bind].
  split; [exact Hbody|].
  destruct (Nat.eq_dec step 0) as [->|Hpos].
  - (* the first step itself *)
    simpl in Hrun. injection Hrun as <-.
    rewrite Hlw. cbn [initial_vars log_weights app nth].
    destruct (sh_log_weights Hsh') as [_ Hrows].
    rewrite Hlw in Hrows. cbn [initial_vars log_weights app] in Hrows.
    inversion Hrows as [|? ? _ Hrows']; subst.
    inversion Hrows' as [|? ? Hlen _]; subst.
    apply (nth_ext _ _ 0%R 0%R).
    + rewrite repeat_length. exact Hlen.
    + intros k Hk. rewrite Hlen in Hk.
      destruct (Hentries k Hk) as [_ [H0 _]].
      destruct (H0 eq_refl) as [_ Hz]. rewrite Hz.
      symmetry. apply nth_repeat_below. exact Hk.
  - (* later steps only append *)
    destruct IH as [vars0 [Hrun0 Hrow]]; [lia | lia |].
    rewrite Hrun in Hrun0. injection Hrun0 as <-.
    rewrite Hlw, app_nth1; [exact Hrow|].
    destruct (sh_log_weights Hsh) as [Hlen _]. lia.
Qed.

(** X6: the row of log weights recorded for the first merge is zero for
    every particle, so it adds nothing to the ELBO: the ELBO is the
    estimator of the later rows, and it is 0 when there are two taxa. *)
Theorem first_step_adds_nothing_to_elbo (self : VCSMC) (w : World) :
  well_formed self w -> 2 <= n self ->
  exists smp,
    sample_phylogenies self w = Some smp
    /\ nth 0 (sample_log_weights smp) [] = repeat 0%R (K self)
    /\ elbo smp = compute_log_ZSMC self (tl (sample_log_weights smp))
    /\ (n self = 2 -> elbo smp = 0%R).
Proof.
  intros Hwf Hn.
  destruct (sample_phylogenies_runs Hwf Hn)
    as [final [lw [Hs [Hsteps [Hlw [Hlen Hrows]]]]]].
  destruct (@first_row_stays_zero self w (n self - 1) Hwf)
    as [final' [Hsteps' Hrow]]; [lia | lia |].
  rewrite Hsteps in Hsteps'. injection Hsteps' as <-.
  rewrite Hlw in Hrow. cbn [nth] in Hrow.
  exists (mkSample final lw (compute_log_ZSMC self lw)).
  cbn [sample_log_weights elbo].
  split; [exact Hs|].
  destruct lw as [|row0 rest]; [simpl in Hlen; lia|].
  cbn [nth tl] in *. subst row0.
  assert (HK : 1 <= K self) by (destruct (wf_squeeze Hwf); lia).
  assert (Hsplit : compute_log_ZSMC self (repeat 0%R (K self) :: rest)
                   = compute_log_ZSMC self rest).
  { unfold compute_log_ZSMC. cbn [map TF.reduce_sum fold_right].
    rewrite (logsumexp_constant_row 0%R HK). unfold TF.reduce_sum. lra. }
  split; [reflexivity|]. split; [exact Hsplit|].
  intros H2. rewrite Hsplit.
  destruct rest; [reflexivity | simpl in Hlen; lia].
Qed.

Lemma first_step_adds_nothing_to_elbo_witness :
  exists smp,
    sample_phylogenies Examples.self3 Examples.world3 = Some smp
    /\ nth 0 (sample_log_weights smp) [] = [0; 0]%R.
Proof.
  destruct (@first_step_adds_nothing_to_elbo Examples.self3 Examples.world3
              well_formed3) as [smp [Hs [Hrow _]]]; [vm_compute; lia|].
  exists smp. split; [exact Hs | exact Hrow].
Defined.

(** ** The tree likelihood over sites and leaves *)

Lemma rectangular_app {A : Type} (r1 r2 cols : nat) (t1 t2 : list (list A)) :
  rectangular r1 cols t1 -> rectangular r2 cols t2 ->
  rectangular (r1 + r2) cols (t1 ++ t2).
Proof.
  intros [L1 F1] [L2 F2]. split.
  - rewrite length_app. lia.
  - apply Forall_app. split; assumption.
Qed.

Lemma dot_cons (p q : R) (u v : list R) :
  TF.dot (p :: u) (q :: v) = (p * q + TF.dot u v)%R.
Proof. reflexivity. Qed.

Lemma dot_indicator_elsewhere (u : list R) (t : nat) (l : list nat) :
  Forall (fun j => j <> t) l ->
  TF.dot u (map (fun j => if j =? t then 1%R else 0%R) l) = 0%R.
Proof.
  intros Hl. revert u. induction Hl as [|j l Hj _ IH]; intros [|p u];
    try reflexivity.
  cbn [map]. rewrite dot_cons, IH.
  replace (j =? t) with false by (symmetry; apply Nat.eqb_neq; exact Hj).
  lra.
Qed.

Lemma dot_onehot (u : list R) (x lo len : nat) :
  x < length u -> x < len ->
  TF.dot u (map (fun j => if j =? lo + x then 1%R else 0%R) (seq lo len))
  = nth x u 0%R.
Proof.
  revert x lo len; induction u as [|p u IH]; intros x lo [|len] Hu Hlen;
    simpl in Hu; try lia.
  cbn [seq map]. rewrite dot_cons. destruct x as [|x].
  - replace (lo =? lo + 0) with true by (symmetry; apply Nat.eqb_eq; lia).
    rewrite dot_indicator_elsewhere.
    + simpl. lra.
    + apply Forall_forall. intros j Hj. apply in_seq in Hj. lia.
  - replace (lo =? lo + S x) with false
      by (symmetry; apply Nat.eqb_neq; lia).
    replace (lo + S x) with (S lo + x) by lia.
    rewrite IH by lia. simpl. lra.
Qed.

(** X7: [compute_tree_likelihood] is additive over the sites (the tree
    likelihood of two blocks of sites put together is the sum of their tree
    likelihoods), and for one-hot sites it is the sum of the logarithms of
    the stationary probabilities of the letters shown. *)
Theorem tree_likelihood_of_sites_and_leaves (self : VCSMC) :
  y_station self <> [] ->
  (forall (r1 r2 : nat) (d1 d2 : matrix),
     rectangular r1 (length (y_station self)) d1 ->
     rectangular r2 (length (y_station self)) d2 ->
     compute_tree_likelihood self (d1 ++ d2)
     = (compute_tree_likelihood self d1 + compute_tree_likelihood self d2)%R)
  /\ (forall letters : list nat,
        Forall (fun x => x < length (y_station self)) letters ->
        compute_tree_likelihood self
          (map (fun x => one_hot x (length (y_station self))) letters)
        = TF.reduce_sum
            (map (fun x => ln (nth x (stationary_vector self) 0%R)) letters)).
Proof.
  intros Hne.
  assert (Ha : 1 <= length (y_station self))
    by (destruct (y_station self); [contradiction | simpl; lia]).
  split.
  - intros r1 r2 d1 d2 H1 H2.
    rewrite (compute_tree_likelihood_sites self (rectangular_app H1 H2) Ha).
    rewrite (compute_tree_likelihood_sites self H1 Ha).
    rewrite (compute_tree_likelihood_sites self H2 Ha).
    rewrite map_app. apply reduce_sum_app.
  - intros letters Hl.
    assert (Hrect : rectangular (length letters) (length (y_station self))
              (map (fun x => one_hot x (length (y_station self)))
                   letters)).
    { split; [apply length_map|]. apply Forall_map.
      apply Forall_forall. intros x _. unfold one_hot.
      rewrite length_map, length_seq. reflexivity. }
    rewrite (compute_tree_likelihood_sites self Hrect Ha), map_map.
    f_equal. apply map_ext_in. intros x Hx.
    rewrite Forall_forall in Hl. specialize (Hl x Hx).
    unfold site_likelihood, one_hot. f_equal.
    apply (@dot_onehot (stationary_vector self) x 0).
    + unfold stationary_vector, stationary_probs, get_stationary_probs.
      cbn [nth]. rewrite length_map. exact Hl.
    + exact Hl.
Qed.

Lemma tree_likelihood_of_sites_and_leaves_witness :
  compute_tree_likelihood Examples.self3 [one_hot 0 2; one_hot 1 2]
  = TF.reduce_sum
      [ln (nth 0 (stationary_vector Examples.self3) 0%R);
       ln (nth 1 (stationary_vector Examples.self3) 0%R)].
Proof.
  destruct (@tree_likelihood_of_sites_and_leaves Examples.self3)
    as [_ Hleaf]; [discriminate|].
  apply (Hleaf [0; 1]). repeat constructor.
Defined.

(** ** Conditional likelihoods stay non-negative *)

Lemma dot_nonneg (u v : list R) :
  Forall (fun x => 0 <= x)%R u -> Forall (fun x => 0 <= x)%R v ->
  (0 <= TF.dot u v)%R.
Proof.
  intros Hu. revert v. induction Hu as [|p u Hp _ IH]; intros v Hv.
  - unfold TF.dot, TF.reduce_sum. simpl. lra.
  - destruct Hv as [|q v Hq Hv].
    + unfold TF.dot, TF.reduce_sum. simpl. lra.
    + rewrite dot_cons. specialize (IH v Hv). nra.
Qed.

Lemma matmul_nonneg (x y : matrix) :
  nonneg_matrix x -> nonneg_matrix y -> nonneg_matrix (TF.matmul x y).
Proof.
  intros Hx Hy. unfold TF.matmul.
  apply Forall_map with (f := fun ra => map (fun cb => TF.dot ra cb) (TF.transpose y)).
  eapply Forall_impl; [|exact Hx]. intros ra Hra.
  apply Forall_map with (f := fun cb => TF.dot ra cb).
  unfold TF.transpose.
  apply Forall_map with (f := fun j => map (fun row => nth j row 0%R) y).
  apply Forall_forall. intros j _.
  apply dot_nonneg; [exact Hra|].
  apply Forall_map with (f := fun row => nth j row 0%R).
  eapply Forall_impl; [|exact Hy]. intros row Hrow.
  destruct (Nat.lt_ge_cases j (length row)) as [Hlt|Hge].
  - rewrite Forall_forall in Hrow. apply Hrow. apply nth_In. exact Hlt.
  - rewrite nth_overflow by exact Hge. lra.
Qed.

Lemma multiply_nonneg (x y : matrix) :
  nonneg_matrix x -> nonneg_matrix y -> nonneg_matrix (TF.multiply x y).
Proof.
  intros Hx. revert y. unfold TF.multiply.
  induction Hx as [|rx x Hrx _ IH]; intros y Hy; [constructor|].
  destruct Hy as [|ry y Hry Hy]; [constructor|].
  cbn [combine map fst snd]. constructor; [|apply IH; exact Hy].
  clear - Hrx Hry. revert ry Hry.
  induction Hrx as [|p rx Hp _ IH]; intros ry Hry; [constructor|].
  destruct Hry as [|q ry Hq Hry]; [constructor|].
  cbn [combine map fst snd]. constructor; [nra | apply IH; exact Hry].
Qed.

(** X8: when the two transition matrices and the partial likelihoods of
    the two children have no negative entry, the partial likelihood
    [conditional_likelihood] builds for the parent has none either. *)
Theorem conditional_likelihood_nonneg (self : VCSMC) (w : World)
  (l_data r_data : matrix) (l_branch r_branch : R) :
  nonneg_matrix (expm w (TF.scale (Qmatrix self) l_branch)) ->
  nonneg_matrix (expm w (TF.scale (Qmatrix self) r_branch)) ->
  nonneg_matrix l_data -> nonneg_matrix r_data ->
  nonneg_matrix (conditional_likelihood self w l_data r_data l_branch r_branch).
Proof.
  intros Hl Hr Hld Hrd. unfold conditional_likelihood.
  apply multiply_nonneg; apply matmul_nonneg; assumption.
Qed.

Lemma conditional_likelihood_nonneg_witness :
  nonneg_matrix
    (conditional_likelihood Examples.self3 MoreExamples.world3_identity
       [[1; 0]]%R [[0; 1]]%R 1%R 1%R).
Proof.
  apply (@conditional_likelihood_nonneg Examples.self3
           MoreExamples.world3_identity [[1; 0]]%R [[0; 1]]%R 1%R 1%R);
    repeat constructor; simpl; lra.
Defined.

(** ** One step too many *)

Lemma top_k_short {A : Type} (leb : A -> A -> bool) (xs : list A) (k : nat) :
  length xs < k -> TF.top_k leb xs k = None.
Proof.
  intros H. unfold TF.top_k.
  replace (k <=? length xs) with false by (symmetry; apply Nat.leb_gt; exact H).
  reflexivity.
Qed.

(** X9: with fewer than two nodes left, [extend_partial_state] fails
    (the two largest scores are asked of a shorter row), and so does a pass
    of [body_main]. *)
Theorem no_step_with_fewer_than_two_nodes (self : VCSMC) (w : World) :
  1 <= K self ->
  (forall (JCK : list (list string)) (r : nat),
     n self - r < 2 -> extend_partial_state self w JCK r = None)
  /\ (forall vars : MainVars,
        n self - r vars < 2 -> body_main self w vars = None).
Proof.
  intros HK.
  assert (Hext : forall (JCK : list (list string)) (r : nat),
            n self - r < 2 -> extend_partial_state self w JCK r = None).
  { intros JCK r Hm. unfold extend_partial_state.
    destruct (proposal_q (n self) r) as [q|]; [|reflexivity]. cbn [bind].
    destruct (score_data self r) as [data|] eqn:Hdata; [|reflexivity].
    cbn [bind].
    destruct (score_data_shape _ _ Hdata) as [Hlen Hrows].
    destruct data as [|row data]; [simpl in Hlen; lia|].
    inversion Hrows as [|? ? Hrow _]; subst.
    unfold noise, add_noise.
    cbn [length seq combine map fst snd mapM].
    rewrite top_k_short; [reflexivity|].
    rewrite length_map, length_combine, length_map, length_seq. lia. }
  split; [exact Hext|].
  intros vars Hm. unfold body_main. destruct vars as [lw ll tl jc jct co v0 r0].
  cbn [r] in Hm.
  destruct (if 0 <? r0
            then cond_true_resample self w tl lw ll jc jct r0
            else cond_false_resample self w tl lw ll jc jct r0)
    as [[[tilda jc'] jct']|]; [|reflexivity].
  cbn [bind]. rewrite (Hext jct' r0 Hm). reflexivity.
Qed.

Lemma no_step_with_fewer_than_two_nodes_witness :
  extend_partial_state Examples.self3 Examples.world3
    [["A+C+B"]; ["A+C+B"]]%string 2 = None.
Proof.
  destruct (@no_step_with_fewer_than_two_nodes Examples.self3 Examples.world3)
    as [Hext _]; [vm_compute; lia|].
  apply Hext. vm_compute; lia.
Defined.

(** ** The carried multiplicity stays positive *)

Lemma overcounting_correct_positive (self : VCSMC) (v0 v1 : R)
  (pair : list nat) (i : nat) :
  (exists i1 i2, pair = [i1; i2] /\ i1 < n self - i /\ i2 < n self - i) ->
  (0 < v0)%R ->
  overcounting_correct self v0 pair i = Some v1 ->
  (0 < v1)%R /\ (v1 = 1 / (v0 + 1) \/ v1 = 1 / v0)%R.
Proof.
  intros [i1 [i2 [-> [H1 H2]]]] Hpos.
  unfold overcounting_correct. cbn [TF.gather1 nth_error bind].
  replace (Z.of_nat i1 >? Z.of_nat (n self) - Z.of_nat i - 1)%Z with false
    by (symmetry; rewrite Z.gtb_ltb; apply Z.ltb_ge; lia).
  cbn [andb].
  destruct ((Z.of_nat i1 <? _)%Z && (Z.of_nat i2 <? _)%Z);
    intros H; injection H as <-.
  - split; [apply Rdiv_lt_0_compat; lra | left; reflexivity].
  - split; [apply Rdiv_lt_0_compat; lra | right; f_equal; lra].
Qed.

(** X10: after any number of steps of a well-formed run the vector [v]
    carried between the steps has one entry per particle and every entry is
    positive. *)
Theorem multiplicity_stays_positive (self : VCSMC) (w : World) (step : nat) :
  well_formed self w -> step <= n self - 1 ->
  exists vars,
    run_steps self w step (initial_vars self) = Some vars
    /\ length (v vars) = K self
    /\ Forall (fun x => 0 < x)%R (v vars).
Proof.
  intros Hwf. induction step as [|step IH]; intros Hle.
  - exists (initial_vars self). split; [reflexivity|].
    cbn [initial_vars v]. split; [apply repeat_length|].
    apply Forall_forall. intros x Hx. apply repeat_spec in Hx. subst. lra.
  - destruct IH as [vars [Hrun [Hlen Hpos]]]; [lia|].
    destruct (@run_steps_shape self w step Hwf) as [vars0 [Hrun0 [Hsh Hr]]];
      [lia|].
    rewrite Hrun in Hrun0. injection Hrun0 as <-.
    destruct (@body_main_spec self w vars Hwf Hsh)
      as [vars' [top [q [lw_row [ll_row
           [Hbody [Hsh' [_ [Htop [_ [_ [_ [_ Hentries]]]]]]]]]]]]]; [lia|].
    exists vars'. cbn [run_steps]. rewrite Hrun. cbn [bind].
    split; [exact Hbody|]. split; [apply (sh_v Hsh')|].
    destruct (sampled_pairs_in_range _ _ _ Htop) as [Htoplen Hpairs].
    apply Forall_nth. intros k d Hk. rewrite (sh_v Hsh') in Hk.
    rewrite (nth_indep _ d 0%R) by (rewrite (sh_v Hsh'); exact Hk).
    destruct (Hentries k Hk) as [_ [H0 Hlater]].
    destruct (Nat.eq_dec (r vars) 0) as [Hz|Hnz].
    + destruct (H0 Hz) as [-> _]. lra.
    + destruct Hlater as [Hoc _]; [lia|].
      eapply overcounting_correct_positive; [| |exact Hoc].
      * destruct (@pair_rows_row (n self - r vars) (map snd top) k Hpairs)
          as [i1 [i2 [Hrow [H1 H2]]]]; [rewrite length_map; lia|].
        exists i1, i2. split; [|split; assumption].
        apply nth_error_nth. exact Hrow.
      * rewrite Forall_forall in Hpos. apply Hpos. apply nth_In. lia.
Qed.

Lemma multiplicity_stays_positive_witness :
  exists vars,
    run_steps Examples.self3 Examples.world3 2 (initial_vars Examples.self3)
    = Some vars
    /\ Forall (fun x => 0 < x)%R (v vars).
Proof.
  destruct (@multiplicity_stays_positive Examples.self3 Examples.world3 2
              well_formed3) as [vars [Hrun [_ Hpos]]]; [vm_compute; lia|].
  exists vars. split; [exact Hrun | exact Hpos].
Defined.

(** ** Where the labels of a step come from *)

Lemma mapM_nth_error_fwd {A B : Type} (f : A -> option B) (l : list A)
  (ys : list B) :
  mapM f l = Some ys ->
  forall i x, nth_error l i = Some x ->
  exists y, nth_error ys i = Some y /\ f x = Some y.
Proof.
  revert ys; induction l as [|x0 l IH]; simpl; intros ys H i x Hx.
  - destruct i; discriminate.
  - inv_bind H. inv_bind H. injection H as <-.
    destruct i as [|i]; simpl in *.
    + injection Hx as <-. eexists; split; [reflexivity | assumption].
    + eapply IH; eauto.
Qed.

Lemma concat1_nth_error {A : Type} (x y t : list (list A)) (k : nat)
  (rx ry : list A) :
  TF.concat1 x y = Some t ->
  nth_error x k = Some rx -> nth_error y k = Some ry ->
  nth_error t k = Some (rx ++ ry).
Proof.
  revert y t k; induction x as [|r0 x IH]; intros [|s0 y] t k H Hx Hy;
    simpl in H; try discriminate; try (destruct k; discriminate).
  inv_bind H. injection H as <-.
  destruct k as [|k]; simpl in *.
  - injection Hx as <-. injection Hy as <-. reflexivity.
  - eapply IH; eauto.
Qed.

Lemma gather_first_row {A : Type} (row0 : list A) (rest : list (list A))
  (idx : list nat) (d : A) :
  Forall (fun i => i < length row0) idx ->
  TF.gather (concat (row0 :: rest)) idx
  = Some (map (fun i => nth i row0 d) idx).
Proof.
  intros H. apply mapM_map. intros i Hi.
  rewrite Forall_forall in H. specialize (H i Hi).
  unfold TF.gather1. cbn [concat].
  rewrite nth_error_app1 by exact H.
  apply nth_error_nth'. exact H.
Qed.

(** X11: for every particle [k], the two labels [extend_partial_state]
    merges, the label of the merged node and the labels it keeps are read
    at the particle's positions from the first row of the jump chain, the
    row of particle 0. *)
Theorem labels_and_kept_nodes_from_first_row (self : VCSMC) (w : World)
  (JCK : list (list string)) (r : nat) (ext : Extension) :
  rectangular (K self) (n self - r) JCK ->
  extend_partial_state self w JCK r = Some ext ->
  forall k i1 i2,
    nth_error (coalesced_indices ext) k = Some [i1; i2] ->
    let first := nth 0 JCK [] in
    let label := ((nth i1 first "") ++ "+" ++ (nth i2 first ""))%string in
    nth_error (particle1 ext) k = Some (nth i1 first ""%string)
    /\ nth_error (particle2 ext) k = Some (nth i2 first ""%string)
    /\ nth_error (particle_coalesced ext) k = Some label
    /\ nth_error (ext_JCK ext) k
       = Some (map (fun i => nth i first ""%string)
                   (nth k (remaining_indices ext) []) ++ [label]).
Proof.
  intros HJ H k i1 i2 Hpair first label.
  pose proof (coalesced_indices_in_range _ _ _ _ H) as Hpairs.
  unfold extend_partial_state in H.
  inv_bind_as H q Hq. inv_bind_as H data Hdata. inv_bind_as H top Htop.
  inv_bind_as H bottom Hbottom. inv_bind_as H flat Hflat.
  inv_bind_as H JC_keep Hkeep. inv_bind_as H particles Hparts.
  inv_bind_as H p1 Hp1. inv_bind_as H p2 Hp2. inv_bind_as H JCK' Hcat.
  injection H as <-.
  cbn [coalesced_indices remaining_indices particle1 particle2
       particle_coalesced ext_JCK] in *.
  (* the first row exists and is as long as the scores *)
  assert (Hk : k < K self).
  { assert (k < length (map snd top))
      by (apply nth_error_Some; congruence).
    rewrite length_map, (mapM_length _ _ Htop) in H.
    unfold add_noise, noise in H.
    rewrite length_map, length_combine, length_map, length_combine,
      length_seq in H.
    destruct (score_data_shape _ _ Hdata) as [Hl _]. lia. }
  destruct JCK as [|row0 rest]; [destruct HJ as [HJl _]; simpl in HJl; lia|].
  assert (Hrow0 : length row0 = n self - r)
    by (destruct HJ as [_ HJr]; inversion HJr; assumption).
  unfold TF.reshape_flat, TF.flatten in Hflat.
  destruct (length (concat (row0 :: rest)) =? K self * (n self - r));
    [|discriminate].
  injection Hflat as <-.
  change first with row0 in *. clear first.
  (* the selected positions lie inside the first row *)
  assert (Hbot : Forall (Forall (fun i => i < length row0)) (map snd bottom)).
  { apply Forall_map. eapply mapM_Forall; [exact Hbottom|].
    intros row [vals idx] Hin Hkk. simpl.
    apply top_k_positions in Hkk. destruct Hkk as [_ [_ [Hlt _]]].
    rewrite length_map in Hlt.
    assert (Hsc : scores self w r = Some (add_noise data (noise w r data)))
      by (unfold scores; rewrite Hdata; reflexivity).
    destruct (scores_shape _ _ _ Hsc) as [_ Hrows].
    rewrite Forall_forall in Hrows. rewrite (Hrows row Hin) in Hlt.
    rewrite Hrow0. exact Hlt. }
  assert (Htopr : Forall (Forall (fun i => i < length row0)) (map snd top)).
  { eapply Forall_impl; [|exact Hpairs].
    intros row [j1 [j2 [-> [_ [H1 H2]]]]]. rewrite Hrow0.
    repeat constructor; assumption. }
  assert (Hgather : forall idx : list (list nat),
            Forall (Forall (fun i => i < length row0)) idx ->
            TF.gather2 (concat (row0 :: rest)) idx
            = Some (map (map (fun i => nth i row0 ""%string)) idx)).
  { intros idx Hidx. apply mapM_map. intros row Hrow.
    apply gather_first_row. rewrite Forall_forall in Hidx. auto. }
  change (row0 ++ concat rest) with (concat (row0 :: rest)) in Hkeep, Hparts.
  rewrite (Hgather _ Hbot) in Hkeep. injection Hkeep as <-.
  rewrite (Hgather _ Htopr) in Hparts. injection Hparts as <-.
  assert (Hprow : nth_error
                    (map (map (fun i => nth i row0 ""%string)) (map snd top)) k
                  = Some [nth i1 row0 ""%string; nth i2 row0 ""%string]).
  { rewrite nth_error_map, Hpair. reflexivity. }
  destruct (mapM_nth_error_fwd _ _ Hp1 _ Hprow) as [l1 [Hl1 Hg1]].
  destruct (mapM_nth_error_fwd _ _ Hp2 _ Hprow) as [l2 [Hl2 Hg2]].
  cbn in Hg1, Hg2. injection Hg1 as <-. injection Hg2 as <-.
  assert (Hlab : nth_error
                   (map (fun p => (fst p ++ "+" ++ snd p)%string)
                        (combine p1 p2)) k = Some label).
  { rewrite nth_error_map.
    assert (Hc : nth_error (combine p1 p2) k
                 = Some (nth i1 row0 ""%string, nth i2 row0 ""%string)).
    { clear - Hl1 Hl2. revert p2 k Hl1 Hl2.
      induction p1 as [|x p1 IH]; intros [|y p2] [|k] H1 H2;
        simpl in *; try discriminate.
      - injection H1 as ->. injection H2 as ->. reflexivity.
      - apply IH; assumption. }
    rewrite Hc. reflexivity. }
  split; [exact Hl1|]. split; [exact Hl2|]. split; [exact Hlab|].
  assert (Hkb : k < length (map snd bottom)).
  { rewrite length_map, (mapM_length _ _ Hbottom).
    rewrite <- (mapM_length _ _ Htop), <- (length_map snd).
    apply nth_error_Some. congruence. }
  destruct (nth_error_lt (map snd bottom) Hkb) as [rem Hrem].
  rewrite (nth_error_nth _ _ [] Hrem).
  eapply concat1_nth_error; [exact Hcat | |].
  - rewrite nth_error_map, Hrem. reflexivity.
  - unfold TF.expand_dims1. rewrite nth_error_map, Hlab. reflexivity.
Qed.

Lemma labels_and_kept_nodes_from_first_row_witness :
  exists ext,
    extend_partial_state Examples.self3 Examples.world3
      [["B"; "A+C"]; ["A"; "C+B"]]%string 1 = Some ext
    /\ nth_error (coalesced_indices ext) 1 = Some [1; 0]
    /\ nth_error (particle_coalesced ext) 1 = Some "A+C+B"%string.
Proof.
  destruct (extend_partial_state Examples.self3 Examples.world3
              [["B"; "A+C"]; ["A"; "C+B"]]%string 1) as [ext|] eqn:Hext;
    [|vm_compute in Hext; discriminate].
  assert (Hpair : nth_error (coalesced_indices ext) 1 = Some [1; 0]).
  { apply (f_equal (option_map (fun e => nth_error (coalesced_indices e) 1)))
      in Hext.
    vm_compute in Hext. injection Hext as Hext. symmetry. exact Hext. }
  exists ext. split; [reflexivity|]. split; [exact Hpair|].
  destruct (@labels_and_kept_nodes_from_first_row Examples.self3
              Examples.world3 [["B"; "A+C"]; ["A"; "C+B"]]%string 1 ext)
    with (k := 1) (i1 := 1) (i2 := 0) as [_ [_ [Hlabel _]]].
  - split; [reflexivity | repeat constructor].
  - exact Hext.
  - exact Hpair.
  - exact Hlabel.
Defined.

(** ** The scores are the positions *)

Lemma chunks_map_seq {A : Type} (f : nat -> A) (rows cols lo : nat) :
  TF.chunks (map f (seq lo (rows * cols))) rows cols
  = map (fun k => map f (seq (lo + k * cols) cols)) (seq 0 rows).
Proof.
  revert lo; induction rows as [|rows IH]; intros lo; [reflexivity|].
  cbn [TF.chunks Nat.mul]. rewrite seq_app, map_app.
  rewrite firstn_app, skipn_app, length_map, length_seq, Nat.sub_diag.
  rewrite firstn_all2, skipn_all2 by (rewrite length_map, length_seq; lia).
  cbn [firstn skipn app]. rewrite app_nil_r, IH.
  cbn [seq map]. rewrite Nat.add_0_r. f_equal.
  rewrite <- seq_shift, map_map. apply map_ext. intros k.
  do 2 f_equal. simpl. lia.
Qed.

Lemma seq_offset (lo d len : nat) :
  seq (lo + d) len = map (fun j => j + d) (seq lo len).
Proof.
  revert lo; induction len as [|len IH]; intros lo; [reflexivity|].
  cbn [seq map]. f_equal. apply (IH (S lo)).
Qed.

Lemma combine_map_map {A B C : Type} (f : A -> B) (g : A -> C) (l : list A) :
  combine (map f l) (map g l) = map (fun x => (f x, g x)) l.
Proof. induction l as [|x l IH]; simpl; [|rewrite IH]; reflexivity. Qed.

Lemma combine_self_map {A B : Type} (g : A -> B) (l : list A) :
  combine l (map g l) = map (fun x => (x, g x)) l.
Proof. induction l as [|x l IH]; simpl; [|rewrite IH]; reflexivity. Qed.

Lemma score_data_positions (self : VCSMC) (r : nat) :
  (Z.of_nat (n self) * Z.of_nat (K self) < 2 ^ 31)%Z ->
  1 <= n self - r ->
  score_data self r
  = Some (map (fun _ => map (fun j => inject_Z (Z.of_nat j))
                            (seq 0 (n self - r)))
              (seq 0 (K self))).
Proof.
  intros Hfit Hm. unfold score_data.
  set (m := n self - r) in *.
  assert (Hw : TF.wrap32 (Z.of_nat m * Z.of_nat (K self))
               = Z.of_nat (K self * m)).
  { rewrite wrap32_small; [lia|]. unfold m. nia. }
  rewrite Hw, range_ok by lia. cbn [bind].
  unfold TF.reshape. rewrite length_map, length_seq.
  replace (Z.to_nat (Z.of_nat (K self * m) - 0)) with (K self * m) by lia.
  rewrite Nat.eqb_refl. cbn [bind].
  rewrite chunks_map_seq. rewrite !map_map. f_equal.
  apply map_ext. intros k. rewrite seq_offset, !map_map.
  apply map_ext_in. intros j Hj. apply in_seq in Hj. f_equal.
  replace (0 + Z.of_nat (j + k * m))%Z with (Z.of_nat (j + k * m)) by lia.
  rewrite <- Nat2Z.inj_mod. f_equal.
  rewrite Nat.Div0.mod_add. apply Nat.mod_small. lia.
Qed.

Lemma scores_explicit (self : VCSMC) (w : World) (r : nat) :
  (Z.of_nat (n self) * Z.of_nat (K self) < 2 ^ 31)%Z ->
  1 <= n self - r ->
  scores self w r
  = Some (map (fun k => map (fun j => (inject_Z (Z.of_nat j)
                                       + gumbel w r k j)%Q)
                            (seq 0 (n self - r)))
              (seq 0 (K self))).
Proof.
  intros Hfit Hm. unfold scores.
  rewrite (score_data_positions self r Hfit Hm). cbn [bind]. f_equal.
  set (m := n self - r).
  unfold noise, add_noise.
  rewrite length_map, length_seq.
  rewrite combine_self_map, map_map, combine_map_map, map_map.
  apply map_ext. intros k. cbn [fst snd].
  rewrite length_map, length_seq, combine_map_map, map_map.
  reflexivity.
Qed.

Lemma sorted_map_seq {A : Type} (rel : A -> A -> Prop) (f : nat -> A)
  (lo len : nat) :
  (forall i j, lo <= i -> i < j -> j < lo + len -> rel (f i) (f j)) ->
  StronglySorted rel (map f (seq lo len)).
Proof.
  revert lo; induction len as [|len IH]; intros lo H; simpl.
  - constructor.
  - constructor.
    + apply IH. intros i j Hi Hij Hj. apply H; lia.
    + apply Forall_map, Forall_forall. intros j Hj. apply in_seq in Hj.
      apply H; lia.
Qed.

Lemma combine_self_map_seq {A : Type} (f : nat -> A) (len : nat) :
  combine (map f (seq 0 len)) (seq 0 len) = map (fun j => (f j, j)) (seq 0 len).
Proof.
  generalize 0. induction len as [|len IH]; intros lo; simpl;
    [|rewrite IH]; reflexivity.
Qed.

Lemma firstn_seq_prefix (k lo len : nat) :
  k <= len -> firstn k (seq lo len) = seq lo k.
Proof.
  intros H. replace len with (k + (len - k)) by lia.
  rewrite seq_app, firstn_app, length_seq, Nat.sub_diag.
  cbn [firstn]. rewrite app_nil_r. apply firstn_all2.
  rewrite length_seq. lia.
Qed.

Lemma insert_desc_back (x : Q * nat) (l : list (Q * nat)) :
  Forall (fun y => (fst x < fst y)%Q) l ->
  TF.insert_desc Qle_bool x l = l ++ [x].
Proof.
  induction 1 as [|y l Hy _ IH]; simpl; [reflexivity|].
  destruct (Qle_bool (fst y) (fst x)) eqn:E.
  - apply Qle_bool_iff in E. exfalso. exact (Qlt_not_le _ _ Hy E).
  - rewrite IH. reflexivity.
Qed.

Lemma sort_increasing (l : list (Q * nat)) :
  StronglySorted (fun p q => (fst p < fst q)%Q) l ->
  fold_right (TF.insert_desc Qle_bool) [] l = rev l.
Proof.
  induction 1 as [|x l _ IH Hx]; simpl; [reflexivity|].
  rewrite IH. apply insert_desc_back.
  apply Forall_forall. intros y Hy. apply in_rev in Hy.
  rewrite Forall_forall in Hx. auto.
Qed.

Lemma sort_decreasing (l : list (Q * nat)) :
  StronglySorted (fun p q => (fst q <= fst p)%Q) l ->
  fold_right (TF.insert_desc Qle_bool) [] l = l.
Proof.
  induction 1 as [|x l _ IH Hx]; simpl; [reflexivity|].
  rewrite IH. destruct l as [|y l]; simpl; [reflexivity|].
  inversion Hx as [|? ? Hy _]; subst.
  apply Qle_bool_iff in Hy. rewrite Hy. reflexivity.
Qed.

(** A row of scores that grows from left to right: the two largest are the
    last two, and the [m - 2] smallest are the others in their order. *)
Lemma top_k_increasing_row (f : nat -> Q) (m : nat) :
  2 <= m ->
  (forall i j, i < j -> j < m -> (f i < f j)%Q) ->
  option_map snd (TF.top_k Qle_bool (map f (seq 0 m)) 2)
  = Some [m - 1; m - 2]
  /\ option_map snd
       (TF.top_k Qle_bool (map Qopp (map f (seq 0 m))) (m - 2))
     = Some (seq 0 (m - 2)).
Proof.
  intros Hm Hf. unfold TF.top_k, TF.sort_desc.
  rewrite !length_map, length_seq.
  replace (2 <=? m) with true by (symmetry; apply Nat.leb_le; exact Hm).
  replace (m - 2 <=? m) with true by (symmetry; apply Nat.leb_le; lia).
  cbn [option_map snd]. split; f_equal.
  - rewrite combine_self_map_seq.
    rewrite sort_increasing.
    2:{ apply sorted_map_seq. intros i j _ Hij Hj. simpl. apply Hf; lia. }
    destruct m as [|[|m]]; try lia.
    replace (S (S m)) with (m + 2) by lia.
    rewrite seq_app, map_app, rev_app_distr. cbn [seq map rev app firstn snd].
    replace (m + 2 - 1) with (S (0 + m)) by lia.
    replace (m + 2 - 2) with (0 + m) by lia. reflexivity.
  - rewrite map_map, combine_self_map_seq.
    rewrite sort_decreasing.
    2:{ apply sorted_map_seq. intros i j _ Hij Hj. simpl.
        apply Qopp_le_compat, Qlt_le_weak, Hf; lia. }
    rewrite <- firstn_map, map_map. cbn [snd]. rewrite map_id.
    apply firstn_seq_prefix. lia.
Qed.

Lemma map_const_seq {A : Type} (x : A) (len lo : nat) :
  map (fun _ => x) (seq lo len) = repeat x len.
Proof.
  revert lo; induction len as [|len IH]; intros lo; simpl;
    [|rewrite IH]; reflexivity.
Qed.

Lemma mapM_map_snd {A B C : Type} (f : A -> option (B * C)) (g : A -> C)
  (l : list A) :
  (forall x, In x l -> option_map snd (f x) = Some (g x)) ->
  option_map (map snd) (mapM f l) = Some (map g l).
Proof.
  induction l as [|x l IH]; intros H; [reflexivity|].
  cbn [mapM map].
  pose proof (H x (or_introl eq_refl)) as Hx.
  destruct (f x) as [[b c]|]; [|discriminate].
  cbn [bind]. simpl in Hx. injection Hx as Hx.
  specialize (IH (fun y Hy => H y (or_intror Hy))).
  destruct (mapM f l) as [ys|]; [|discriminate].
  simpl in IH. injection IH as IH. simpl. rewrite Hx, IH. reflexivity.
Qed.

(** X12: the scores [extend_partial_state] perturbs are the positions
    themselves: [data] holds the row 0, 1, ..., m - 1 for every particle,
    and the perturbed score of position [j] is [j] plus its Gumbel draw. *)
Theorem scores_are_positions_plus_noise (self : VCSMC) (w : World) (r : nat) :
  (Z.of_nat (n self) * Z.of_nat (K self) < 2 ^ 31)%Z ->
  1 <= n self - r ->
  score_data self r
  = Some (repeat (map (fun j => inject_Z (Z.of_nat j)) (seq 0 (n self - r)))
                 (K self))
  /\ scores self w r
     = Some (map (fun k => map (fun j => (inject_Z (Z.of_nat j)
                                          + gumbel w r k j)%Q)
                               (seq 0 (n self - r)))
                 (seq 0 (K self))).
Proof.
  intros Hfit Hm. split.
  - rewrite (score_data_positions self r Hfit Hm). f_equal.
    apply map_const_seq.
  - exact (scores_explicit self w r Hfit Hm).
Qed.

Lemma scores_are_positions_plus_noise_witness :
  score_data Examples.self3 0
  = Some (repeat (map (fun j => inject_Z (Z.of_nat j)) (seq 0 3)) 2).
Proof.
  destruct (@scores_are_positions_plus_noise Examples.self3 Examples.world3 0)
    as [Hdata _]; [vm_compute; reflexivity | vm_compute; lia | exact Hdata].
Defined.

(** X13: when the Gumbel draws of a step do not decrease along the
    positions (in particular when they are all equal), every particle
    merges the last two positions, m - 1 and m - 2, and keeps the positions
    0, ..., m - 3 in their order. *)
Theorem ordered_noise_merges_the_last_two_nodes (self : VCSMC) (w : World)
  (r : nat) :
  (Z.of_nat (n self) * Z.of_nat (K self) < 2 ^ 31)%Z ->
  2 <= n self - r ->
  (forall k i j, k < K self -> i <= j -> j < n self - r ->
     (gumbel w r k i <= gumbel w r k j)%Q) ->
  option_map (map snd) (sampled_pairs self w r)
  = Some (repeat [n self - r - 1; n self - r - 2] (K self))
  /\ kept_positions self w r
     = Some (repeat (seq 0 (n self - r - 2)) (K self)).
Proof.
  intros Hfit Hm Hg.
  unfold sampled_pairs, kept_positions.
  rewrite (scores_explicit self w r Hfit) by lia. cbn [bind].
  set (m := n self - r) in *.
  assert (Hrow : forall k, k < K self -> forall i j, i < j -> j < m ->
            (inject_Z (Z.of_nat i) + gumbel w r k i
             < inject_Z (Z.of_nat j) + gumbel w r k j)%Q).
  { intros k Hk i j Hij Hj. apply Qplus_lt_le_compat.
    - rewrite <- Zlt_Qlt. lia.
    - apply Hg; lia. }
  split.
  - rewrite <- (map_const_seq [m - 1; m - 2] (K self) 0).
    rewrite <- (map_map (fun k => map (fun j => (inject_Z (Z.of_nat j)
                                                  + gumbel w r k j)%Q)
                                      (seq 0 m))
                        (fun _ => [m - 1; m - 2])).
    apply mapM_map_snd. intros row Hin.
    apply in_map_iff in Hin. destruct Hin as [k [<- Hk]].
    apply in_seq in Hk.
    apply (top_k_increasing_row _ Hm). apply Hrow. lia.
  - assert (Hb : option_map (map snd)
                   (mapM (fun row => TF.top_k Qle_bool (map Qopp row) (m - 2))
                      (map (fun k => map (fun j => (inject_Z (Z.of_nat j)
                                                    + gumbel w r k j)%Q)
                                         (seq 0 m))
                           (seq 0 (K self))))
                 = Some (repeat (seq 0 (m - 2)) (K self))).
    { rewrite <- (map_const_seq (seq 0 (m - 2)) (K self) 0).
      rewrite <- (map_map (fun k => map (fun j => (inject_Z (Z.of_nat j)
                                                    + gumbel w r k j)%Q)
                                        (seq 0 m))
                          (fun _ => seq 0 (m - 2))).
      apply mapM_map_snd. intros row Hin.
      apply in_map_iff in Hin. destruct Hin as [k [<- Hk]].
      apply in_seq in Hk.
      apply (top_k_increasing_row _ Hm). apply Hrow. lia. }
    destruct (mapM _ _) as [bottom|]; [|discriminate].
    simpl in Hb. injection Hb as Hb. cbn [bind]. rewrite Hb. reflexivity.
Qed.

Lemma ordered_noise_merges_the_last_two_nodes_witness :
  option_map (map snd) (sampled_pairs Examples.self3 Examples.world3 1)
  = Some [[1; 0]; [1; 0]].
Proof.
  destruct (@ordered_noise_merges_the_last_two_nodes Examples.self3
              Examples.world3 1) as [Hpairs _].
  - vm_compute; reflexivity.
  - vm_compute; lia.
  - intros k i j _ _ _. apply Qle_refl.
  - exact Hpairs.
Defined.

(** ** The pair and the kept positions split the forest *)

Lemma insert_desc_sorted (x : Q * nat) (l : list (Q * nat)) :
  StronglySorted desc l -> StronglySorted desc (TF.insert_desc Qle_bool x l).
Proof.
  induction 1 as [|y l Hl IH Hy]; simpl.
  - constructor; constructor.
  - destruct (Qle_bool (fst y) (fst x)) eqn:E.
    + apply Qle_bool_iff in E.
      constructor; [constructor; assumption|].
      constructor; [exact E|].
      eapply Forall_impl; [|exact Hy]. intros z Hz. unfold desc in *.
      eapply Qle_trans; eassumption.
    + apply Qle_bool_false in E.
      constructor; [exact IH|].
      apply (Permutation_Forall (Permutation_sym (insert_desc_perm Qle_bool x l))).
      constructor; [|exact Hy]. unfold desc. apply Qlt_le_weak. exact E.
Qed.

Lemma sort_desc_sorted (xs : list Q) :
  StronglySorted desc (TF.sort_desc Qle_bool xs).
Proof.
  unfold TF.sort_desc.
  induction (combine xs (seq 0 (length xs))) as [|p l IH]; simpl.
  - constructor.
  - apply insert_desc_sorted. exact IH.
Qed.

Lemma skipn_In {A : Type} (k : nat) (l : list A) (x : A) :
  In x (skipn k l) -> In x l.
Proof.
  revert l; induction k as [|k IH]; intros [|z l] H; simpl in *; auto.
Qed.

Lemma sorted_firstn_skipn (l : list (Q * nat)) (k : nat) (p q : Q * nat) :
  StronglySorted desc l ->
  In p (firstn k l) -> In q (skipn k l) -> desc p q.
Proof.
  intros Hl. revert k. induction Hl as [|y l Hl IH Hy]; intros [|k] Hp Hq;
    simpl in *; try contradiction.
  destruct Hp as [<-|Hp].
  - rewrite Forall_forall in Hy. apply Hy. eapply skipn_In. exact Hq.
  - eapply IH; eassumption.
Qed.

Lemma in_combine_seq {A : Type} (xs : list A) (lo : nat) (v d : A) (i : nat) :
  In (v, i) (combine xs (seq lo (length xs))) ->
  lo <= i < lo + length xs /\ nth (i - lo) xs d = v.
Proof.
  revert lo; induction xs as [|x xs IH]; intros lo H; simpl in *;
    [contradiction|].
  destruct H as [H|H].
  - injection H as <- <-. rewrite Nat.sub_diag. split; [lia | reflexivity].
  - destruct (IH (S lo) H) as [Hr Hv]. split; [lia|].
    replace (i - lo) with (S (i - S lo)) by lia. exact Hv.
Qed.

Lemma sort_desc_entry (xs : list Q) (v : Q) (i : nat) :
  In (v, i) (TF.sort_desc Qle_bool xs) ->
  i < length xs /\ v = nth i xs 0%Q.
Proof.
  intros H.
  apply (Permutation_in _ (sort_desc_perm Qle_bool xs)) in H.
  destruct (in_combine_seq xs 0 v 0%Q i H) as [Hr Hv].
  rewrite Nat.sub_0_r in Hv. split; [lia | symmetry; exact Hv].
Qed.

Lemma in_map_snd {A B : Type} (l : list (A * B)) (i : B) :
  In i (map snd l) -> exists v, In (v, i) l.
Proof.
  intros H. apply in_map_iff in H. destruct H as [[v j] [Hj Hin]].
  simpl in Hj. subst. exists v. exact Hin.
Qed.

Lemma nth_map_Qopp (xs : list Q) (i : nat) :
  nth i (map Qopp xs) 0%Q = Qopp (nth i xs 0%Q).
Proof. apply (map_nth Qopp xs 0%Q i). Qed.

(** In a row without ties no position is both among the two largest
    scores and among the [m - 2] smallest. *)
Lemma no_ties_disjoint (xs : list Q) (vt vb : list Q) (t b : list nat) (i : nat) :
  no_ties xs ->
  TF.top_k Qle_bool xs 2 = Some (vt, t) ->
  TF.top_k Qle_bool (map Qopp xs) (length xs - 2) = Some (vb, b) ->
  In i t -> In i b -> False.
Proof.
  intros Hnt Ht Hb Hit Hib.
  pose proof (top_k_positions _ _ _ Ht) as [Htl [Hm [Htlt Htnd]]].
  unfold TF.top_k in Ht, Hb. rewrite length_map in Hb.
  destruct (2 <=? length xs) eqn:E2; [apply Nat.leb_le in E2|discriminate].
  destruct (length xs - 2 <=? length xs); [|discriminate].
  injection Ht as _ <-. injection Hb as _ <-.
  set (L := TF.sort_desc Qle_bool xs) in *.
  set (L' := TF.sort_desc Qle_bool (map Qopp xs)) in *.
  change (In i (map snd (firstn 2 L))) in Hit.
  change (length (map snd (firstn 2 L)) = 2) in Htl.
  clear Hm Htlt Htnd.
  pose proof (sort_desc_sorted xs) as HsL. fold L in HsL.
  pose proof (sort_desc_sorted (map Qopp xs)) as HsL'. fold L' in HsL'.
  pose proof (sort_desc_positions Qle_bool xs) as HpL. fold L in HpL.
  pose proof (sort_desc_positions Qle_bool (map Qopp xs)) as HpL'.
  fold L' in HpL'. rewrite length_map in HpL'.
  assert (HndL' : NoDup (map snd L'))
    by (apply (Permutation_NoDup (Permutation_sym HpL')), seq_NoDup).
  assert (HlenL' : length L' = length xs).
  { rewrite <- (length_map snd), (Permutation_length HpL'). apply length_seq. }
  (* the two positions left out of the kept ones *)
  rewrite <- (firstn_skipn (length xs - 2) L') in HndL'.
  rewrite map_app in HndL'.
  assert (Hlast : length (skipn (length xs - 2) L') = 2)
    by (rewrite length_skipn; lia).
  destruct (skipn (length xs - 2) L') as [|[v1 j1] [|[v2 j2] [|]]] eqn:Hsk;
    simpl in Hlast; try discriminate.
  destruct (in_map_snd _ _ Hib) as [vi' Hib'].
  destruct (in_map_snd _ _ Hit) as [vi Hit'].
  assert (Hle : forall v j, In (v, j) [(v1, j1); (v2, j2)] ->
            j <> i /\ j < length xs
            /\ (nth i xs 0 <= nth j xs 0)%Q).
  { intros v j Hj.
    assert (HjL' : In (v, j) L').
    { rewrite <- (firstn_skipn (length xs - 2) L'), Hsk.
      apply in_or_app. right. exact Hj. }
    destruct (sort_desc_entry _ _ _ HjL') as [Hjm Hv].
    assert (HiL' : In (vi', i) L').
    { rewrite <- (firstn_skipn (length xs - 2) L').
      apply in_or_app. left. exact Hib'. }
    destruct (sort_desc_entry _ _ _ HiL') as [_ Hvi'].
    rewrite length_map in Hjm.
    split; [|split; [exact Hjm|]].
    - intros ->. revert HndL'. clear - Hib Hj.
      intros Hnd.
      assert (In i (map snd [(v1, j1); (v2, j2)]))
        by (apply in_map_iff; exists (v, i); auto).
      clear Hj. induction (map snd (firstn (length xs - 2) L'))
        as [|z l IH]; [contradiction|].
      simpl in Hnd. inversion Hnd; subst.
      destruct Hib as [->|Hin].
      + apply H2. apply in_or_app. right. exact H.
      + apply IH; assumption.
    - assert (Hd : desc (vi', i) (v, j)).
      { apply (@sorted_firstn_skipn L' (length xs - 2) _ _ HsL' Hib').
        rewrite Hsk. exact Hj. }
      unfold desc in Hd. simpl in Hd. subst v vi'.
      rewrite !nth_map_Qopp in Hd.
      apply Qopp_le_compat in Hd. rewrite !Qopp_involutive in Hd. exact Hd. }
  (* either of them has to sit among the two largest *)
  assert (Hin_t : forall v j, In (v, j) [(v1, j1); (v2, j2)] ->
            In j (map snd (firstn 2 L))).
  { intros v j Hj. destruct (Hle v j Hj) as [Hne [Hjm Hxij]].
    assert (HjL : In j (map snd L)).
    { apply (Permutation_in _ (Permutation_sym HpL)). apply in_seq. lia. }
    rewrite <- (firstn_skipn 2 L), map_app in HjL.
    apply in_app_or in HjL. destruct HjL as [HjL|HjL]; [exact HjL|].
    exfalso. destruct (in_map_snd _ _ HjL) as [vj HjL2].
    assert (Hd : desc (vi, i) (vj, j))
      by exact (@sorted_firstn_skipn L 2 _ _ HsL Hit' HjL2).
    unfold desc in Hd. simpl in Hd.
    assert (HiL : In (vi, i) L)
      by (rewrite <- (firstn_skipn 2 L); apply in_or_app; left; exact Hit').
    assert (HjL3 : In (vj, j) L)
      by (rewrite <- (firstn_skipn 2 L); apply in_or_app; right; exact HjL2).
    destruct (sort_desc_entry _ _ _ HiL) as [Him Hvi].
    destruct (sort_desc_entry _ _ _ HjL3) as [_ Hvj].
    subst vi vj.
    apply (Hnt i j Him Hjm); [congruence|].
    apply Qle_antisym; assumption. }
  assert (H1 : In j1 (map snd (firstn 2 L)))
    by (apply (Hin_t v1); left; reflexivity).
  assert (H2 : In j2 (map snd (firstn 2 L)))
    by (apply (Hin_t v2); right; left; reflexivity).
  destruct (Hle v1 j1) as [Hn1 _]; [left; reflexivity|].
  destruct (Hle v2 j2) as [Hn2 _]; [right; left; reflexivity|].
  assert (Hn12 : j1 <> j2).
  { apply NoDup_app_remove_l in HndL'. simpl in HndL'.
    inversion HndL' as [|? ? Hnin _]; subst. intros ->. apply Hnin. left.
    reflexivity. }
  destruct (map snd (firstn 2 L)) as [|a0 [|b0 [|]]]; simpl in Htl;
    try discriminate.
  simpl in Hit, H1, H2. intuition congruence.
Qed.

Lemma nth_error_map_snd {A B : Type} (l : list (A * B)) (k : nat) (y : B) :
  nth_error (map snd l) k = Some y -> exists x, nth_error l k = Some (x, y).
Proof.
  rewrite nth_error_map. destruct (nth_error l k) as [[x y']|]; simpl;
    [|discriminate].
  intros H. injection H as <-. exists x. reflexivity.
Qed.

(** X14: when the perturbed scores of a particle have no two equal
    entries, the pair of positions that is merged and the positions that
    are kept are, together, a rearrangement of all positions 0, ..., m - 1:
    no node is lost and none is used twice. *)
Theorem pair_and_kept_positions_split_the_forest (self : VCSMC) (w : World)
  (JCK : list (list string)) (r : nat) (ext : Extension)
  (perturbed : list (list Q)) (k : nat) (row : list Q) (pair kept : list nat) :
  extend_partial_state self w JCK r = Some ext ->
  scores self w r = Some perturbed ->
  nth_error perturbed k = Some row ->
  no_ties row ->
  nth_error (coalesced_indices ext) k = Some pair ->
  nth_error (remaining_indices ext) k = Some kept ->
  Permutation (pair ++ kept) (seq 0 (n self - r)).
Proof.
  intros Hext Hsc Hrow Hnt Hpair Hkept.
  pose proof (scores_shape _ _ _ Hsc) as [_ Hrows].
  rewrite Forall_forall in Hrows.
  assert (Hlen : length row = n self - r)
    by (apply Hrows; eapply nth_error_In; eassumption).
  unfold extend_partial_state in Hext. unfold scores in Hsc.
  inv_bind_as Hext q Hq. inv_bind_as Hext data Hdata.
  rewrite Hdata in Hsc. cbn [bind] in Hsc. injection Hsc as Hsc.
  rewrite Hsc in Hext.
  inv_bind_as Hext top Htop. inv_bind_as Hext bottom Hbottom.
  inv_bind Hext. inv_bind Hext. inv_bind Hext. inv_bind Hext. inv_bind Hext.
  inv_bind Hext. injection Hext as <-. cbn in Hpair, Hkept.
  destruct (nth_error_map_snd _ _ Hpair) as [vt Ht].
  destruct (nth_error_map_snd _ _ Hkept) as [vb Hb].
  destruct (mapM_nth_error _ _ Htop _ Ht) as [row1 [Hrow1 Htk]].
  destruct (mapM_nth_error _ _ Hbottom _ Hb) as [row2 [Hrow2 Hbk]].
  rewrite Hrow in Hrow1, Hrow2.
  injection Hrow1 as <-. injection Hrow2 as <-.
  rewrite <- Hlen in Hbk |- *.
  destruct (top_k_positions _ _ _ Htk) as [Hl1 [_ [Hlt1 Hnd1]]].
  destruct (top_k_positions _ _ _ Hbk) as [Hl2 [Hle2 [Hlt2 Hnd2]]].
  rewrite length_map in Hlt2, Hle2.
  assert (H2 : 2 <= length row).
  { unfold TF.top_k in Htk. destruct (2 <=? length row) eqn:E2le; [|discriminate].
    apply Nat.leb_le. exact E2le. }
  apply NoDup_Permutation_bis.
  - apply NoDup_app; [exact Hnd1 | exact Hnd2 |].
    intros i Hi1 Hi2. exact (@no_ties_disjoint _ _ _ _ _ i Hnt Htk Hbk Hi1 Hi2).
  - rewrite length_app, length_seq, Hl1, Hl2. lia.
  - intros i Hi. apply in_seq. rewrite Forall_forall in Hlt1, Hlt2.
    apply in_app_or in Hi. destruct Hi as [Hi|Hi]; [apply Hlt1 in Hi|apply Hlt2 in Hi]; lia.
Qed.

Lemma no_ties_512 : no_ties [5 # 1; 1 # 1; 2 # 1]%Q.
Proof.
  intros i j Hi Hj Hne.
  destruct i as [|[|[|i]]]; destruct j as [|[|[|j]]]; simpl in Hi, Hj;
    try lia; cbn [nth]; intros H; discriminate H.
Qed.

Lemma pair_and_kept_positions_split_the_forest_witness :
  exists ext,
    extend_partial_state Examples.self3 Examples.world3
      (repeat (taxa Examples.self3) 2) 0 = Some ext
    /\ nth_error (coalesced_indices ext) 0 = Some [0; 2]
    /\ nth_error (remaining_indices ext) 0 = Some [1]
    /\ Permutation ([0; 2] ++ [1]) (seq 0 3).
Proof.
  destruct (extend_partial_state Examples.self3 Examples.world3
              (repeat (taxa Examples.self3) 2) 0) as [ext|] eqn:Hext;
    [|vm_compute in Hext; discriminate].
  assert (Hpair : nth_error (coalesced_indices ext) 0 = Some [0; 2]).
  { apply (f_equal (option_map (fun e => nth_error (coalesced_indices e) 0)))
      in Hext.
    vm_compute in Hext. injection Hext as Hext. symmetry. exact Hext. }
  assert (Hkept : nth_error (remaining_indices ext) 0 = Some [1]).
  { apply (f_equal (option_map (fun e => nth_error (remaining_indices e) 0)))
      in Hext.
    vm_compute in Hext. injection Hext as Hext. symmetry. exact Hext. }
  exists ext. split; [reflexivity|]. split; [exact Hpair|].
  split; [exact Hkept|].
  apply (@pair_and_kept_positions_split_the_forest Examples.self3
           Examples.world3 (repeat (taxa Examples.self3) 2) 0 ext
           [[5 # 1; 1 # 1; 2 # 1]; [0 # 1; 1 # 1; 5 # 1]]%Q 0
           [5 # 1; 1 # 1; 2 # 1]%Q [0; 2] [1]).
  - exact Hext.
  - vm_compute; reflexivity.
  - reflexivity.
  - exact no_ties_512.
  - exact Hpair.
  - exact Hkept.
Defined.

(** ** How one step rebuilds the partial likelihoods *)

Lemma data_loop_explicit (self : VCSMC) (w : World)
  (new0 : list (list matrix)) (core : list (list matrix))
  (indices : list (list nat)) (i m : nat) :
  rectangular (K self) m core ->
  length indices = K self -> pair_rows m indices ->
  rectangular (K self) (n self - 1) (left_branches self) ->
  rectangular (K self) (n self - 1) (right_branches self) ->
  i < n self - 1 ->
  K self <= fuel w ->
  TF.while_loop (fuel w) (cond_update_data self) (body_update_data self w)
                (new0, core, indices, i, 0)
  = Some (new0 ++ map (fun k => [merged_node self w core (nth k indices []) i k])
                      (seq 0 (K self)),
          core, indices, i, K self).
Proof.
  intros Hcore Hlen Hpairs Hleft Hright Hi Hfuel.
  pose (f := fun k => [merged_node self w core (nth k indices []) i k]).
  pose (Inv := fun st : DataVars =>
          exists k, st = (new0 ++ map f (seq 0 k), core, indices, i, k)).
  destruct (@while_loop_counting DataVars (cond_update_data self)
              (body_update_data self w) (fun st => snd st) (K self) Inv)
    with (fuel := fuel w) (st := (new0, core, indices, i, 0))
    as [st' [Hrun [HI Hidx]]].
  - intros st [k ->]. reflexivity.
  - intros st [k ->] Hlt. simpl in Hlt.
    destruct (pair_rows_row (k:=k) Hpairs) as [n1 [n2 [Hrow [H1 H2]]]]; [lia|].
    destruct (rectangular_row (k:=k) Hcore Hlt) as [crow [Hcrow Hclen]].
    destruct (nth_error_lt crow (i:=n1)) as [l_data Hl]; [lia|].
    destruct (nth_error_lt crow (i:=n2)) as [r_data Hr]; [lia|].
    destruct (rectangular_row (k:=k) Hleft Hlt) as [lrow [Hlrow Hllen]].
    destruct (rectangular_row (k:=k) Hright Hlt) as [rrow [Hrrow Hrlen]].
    destruct (nth_error_lt lrow (i:=i)) as [l_branch Hlb]; [lia|].
    destruct (nth_error_lt rrow (i:=i)) as [r_branch Hrb]; [lia|].
    exists (new0 ++ map f (seq 0 (S k)), core, indices, i, S k).
    split; [|split; [exists (S k); reflexivity | reflexivity]].
    unfold body_update_data, TF.gather_nd2, TF.gather1.
    rewrite Hrow. cbn [bind nth_error]. rewrite Hcrow. cbn [bind].
    rewrite Hl, Hr. cbn [bind]. rewrite Hlrow, Hrrow. cbn [bind].
    rewrite Hlb, Hrb. cbn [bind].
    rewrite seq_S, map_app, app_assoc, Nat.add_1_r. cbn [map Nat.add].
    replace (f k)
      with [conditional_likelihood self w l_data r_data l_branch r_branch];
      [reflexivity|].
    unfold f, merged_node.
    rewrite (nth_error_nth _ _ [] Hrow). cbn [nth].
    rewrite (nth_error_nth _ _ [] Hcrow).
    unfold matrix in *.
    rewrite (nth_error_nth _ _ [] Hl), (nth_error_nth _ _ [] Hr).
    rewrite (nth_error_nth _ _ [] Hlrow), (nth_error_nth _ _ [] Hrrow).
    rewrite (nth_error_nth _ _ 0%R Hlb), (nth_error_nth _ _ 0%R Hrb).
    reflexivity.
  - exists 0. simpl. rewrite app_nil_r. reflexivity.
  - simpl; lia.
  - simpl; lia.
  - destruct HI as [k ->]. simpl in Hidx. subst k. exact Hrun.
Qed.

Lemma extend_partial_state_kept (self : VCSMC) (w : World)
  (JCK : list (list string)) (r : nat) (ext : Extension) :
  extend_partial_state self w JCK r = Some ext ->
  kept_positions self w r = Some (remaining_indices ext)
  /\ length (remaining_indices ext) = K self
  /\ Forall (Forall (fun i => i < n self - r)) (remaining_indices ext).
Proof.
  intros H. unfold extend_partial_state in H.
  inv_bind_as H q Hq. inv_bind_as H data Hdata. inv_bind_as H top Htop.
  inv_bind_as H bottom Hbottom. repeat inv_bind H. injection H as <-.
  cbn [remaining_indices].
  assert (Hsc : scores self w r = Some (add_noise data (noise w r data)))
    by (unfold scores; rewrite Hdata; reflexivity).
  destruct (scores_shape _ _ _ Hsc) as [Hlen Hrows].
  split; [|split].
  - unfold kept_positions. rewrite Hsc. cbn [bind]. rewrite Hbottom.
    reflexivity.
  - rewrite length_map, (mapM_length _ _ Hbottom). exact Hlen.
  - apply Forall_map. eapply mapM_Forall; [exact Hbottom|].
    intros row [vals idx] Hin Hk. simpl.
    apply top_k_positions in Hk. destruct Hk as [_ [_ [Hlt _]]].
    rewrite length_map in Hlt.
    rewrite Forall_forall in Hrows. rewrite (Hrows row Hin) in Hlt.
    exact Hlt.
Qed.

Lemma body_main_core (self : VCSMC) (w : World) (vars : MainVars) :
  well_formed self w -> shape self vars -> r vars < n self - 1 ->
  exists vars' top kept,
    body_main self w vars = Some vars'
    /\ sampled_pairs self w (r vars) = Some top
    /\ kept_positions self w (r vars) = Some kept
    /\ forall k, k < K self ->
         nth k (core vars') []
         = map (fun j => nth j (nth 0 (core vars) []) []) (nth k kept [])
           ++ [merged_node self w (core vars) (nth k (map snd top) [])
                           (r vars) k].
Proof.
  intros Hwf Hsh Hlt.
  destruct (@body_main_spec self w vars Hwf Hsh Hlt)
    as [vars' [top [q [lw_row [ll_row [Hbody [_ [_ [Htop _]]]]]]]]].
  destruct Hwf as [_ _ Hleft Hright _ [_ HfK] [HK _]].
  destruct Hsh as [_ _ Hcore _ _ _ _ _].
  destruct vars as [lws0 lls0 tilda0 jcs0 jct0 core0 v0 r0].
  cbn [core r] in *.
  pose proof Hbody as H. unfold body_main in H.
  inv_bind_as H res Hres. destruct res as [[tilda jc] jct].
  inv_bind_as H ext Hext.
  inv_bind_as H dv Hdata. destruct dv as [[[[nd_full c2] ci2] i2] k2].
  inv_bind_as H nd Hnd. inv_bind_as H flat Hflat.
  inv_bind_as H kept_nodes Hkept. inv_bind_as H core' Hcat.
  inv_bind_as H wv Hwv. inv_bind_as H lwr Hlwr. inv_bind_as H llr Hllr.
  inv_bind_as H vnew Hvnew. injection H as <-. cbn [core].
  (* the positions of the step *)
  destruct (extend_partial_state_pairs _ _ _ _ Hext) as [top' [Htop' Hci]].
  rewrite Htop in Htop'. injection Htop' as <-.
  destruct (extend_partial_state_kept _ _ _ _ Hext) as [Hkp [Hkl Hklt]].
  pose proof (coalesced_indices_in_range _ _ _ _ Hext) as Hpairs.
  destruct (sampled_pairs_in_range _ _ _ Htop) as [Htoplen _].
  (* the merged nodes *)
  unfold matrix in *.
  rewrite (@data_loop_explicit self w _ core0 (coalesced_indices ext) r0
             (n self - r0) Hcore) in Hdata;
    try assumption; [|rewrite Hci, length_map; exact Htoplen].
  injection Hdata as <- _ <- _ _.
  cbn [app] in Hnd.
  rewrite (@gather_tail _ _ _ (K self)) in Hnd
    by (rewrite length_map, length_seq; reflexivity).
  injection Hnd as <-.
  (* the kept nodes *)
  destruct core0 as [|row0 rest]; [destruct Hcore as [Hl _]; simpl in Hl; lia|].
  assert (Hrow0 : length row0 = n self - r0)
    by (destruct Hcore as [_ Hr]; inversion Hr; assumption).
  unfold TF.reshape_flat, TF.flatten in Hflat.
  destruct (length (concat (row0 :: rest)) =? K self * (n self - r0));
    [|discriminate].
  injection Hflat as <-.
  assert (Hgather : TF.gather2 (concat (row0 :: rest)) (remaining_indices ext)
            = Some (map (map (fun j => nth j row0 []))
                        (remaining_indices ext))).
  { apply mapM_map. intros row Hrow. apply gather_first_row.
    rewrite Forall_forall in Hklt. rewrite Hrow0. auto. }
  change (row0 ++ concat rest) with (concat (row0 :: rest)) in Hkept.
  rewrite Hgather in Hkept. injection Hkept as <-.
  eexists. exists top, (remaining_indices ext).
  split; [exact Hbody|]. split; [exact Htop|]. split; [exact Hkp|].
  intros k Hk. cbn [nth].
  destruct (nth_error_lt (remaining_indices ext) (i:=k)) as [rem Hrem];
    [lia|].
  rewrite (nth_error_nth _ _ [] Hrem).
  apply nth_error_nth.
  eapply concat1_nth_error; [exact Hcat | |].
  - rewrite nth_error_map, Hrem. reflexivity.
  - rewrite nth_error_map, nth_error_seq.
    replace (k <? K self) with true by (symmetry; apply Nat.ltb_lt; exact Hk).
    cbn [option_map Nat.add]. rewrite Hci. reflexivity.
Qed.

(** X15: one pass of [body_main] rebuilds the partial likelihoods of
    particle [k] from the nodes of particle 0 at the kept positions,
    followed by the node merged from the particle's own pair in its own
    row. *)
Theorem core_rebuilt_from_first_row_and_own_pair (self : VCSMC) (w : World)
  (vars : MainVars) :
  well_formed self w -> shape self vars -> r vars < n self - 1 ->
  exists vars' top kept,
    body_main self w vars = Some vars'
    /\ sampled_pairs self w (r vars) = Some top
    /\ kept_positions self w (r vars) = Some kept
    /\ forall k, k < K self ->
         nth k (core vars') []
         = map (fun j => nth j (nth 0 (core vars) []) []) (nth k kept [])
           ++ [merged_node self w (core vars) (nth k (map snd top) [])
                           (r vars) k].
Proof. exact (@body_main_core self w vars). Qed.

Lemma core_rebuilt_from_first_row_and_own_pair_witness :
  exists vars' top,
    body_main Examples.self3 Examples.world3 (initial_vars Examples.self3)
    = Some vars'
    /\ sampled_pairs Examples.self3 Examples.world3 0 = Some top
    /\ nth 1 (core vars') []
       = [nth 0 (genome_NxSxA Examples.self3) [];
          merged_node Examples.self3 Examples.world3
            (core (initial_vars Examples.self3)) (nth 1 (map snd top) []) 0 1].
Proof.
  destruct (@core_rebuilt_from_first_row_and_own_pair Examples.self3
              Examples.world3 (initial_vars Examples.self3) well_formed3)
    as [vars' [top [kept [Hbody [Htop [Hkept Hrows]]]]]].
  - exact (initial_shape well_formed3).
  - vm_compute; lia.
  - exists vars', top. split; [exact Hbody|]. split; [exact Htop|].
    rewrite (Hrows 1) by (vm_compute; lia).
    vm_compute in Hkept. injection Hkept as <-. reflexivity.
Defined.

(** ** The resampling draws never reach the partial likelihoods *)

Lemma scores_same_noise (self : VCSMC) (w1 w2 : World) (r : nat) :
  gumbel w1 = gumbel w2 -> scores self w1 r = scores self w2 r.
Proof. intros H. unfold scores, noise. rewrite H. reflexivity. Qed.

Lemma merged_node_same_expm (self : VCSMC) (w1 w2 : World)
  (core : list (list matrix)) (pair : list nat) (i k : nat) :
  expm w1 = expm w2 ->
  merged_node self w1 core pair i k = merged_node self w2 core pair i k.
Proof.
  intros H. unfold merged_node, conditional_likelihood. rewrite H. reflexivity.
Qed.

(** X16: the partial likelihoods never depend on the resampling: two
    runs that share the matrix exponential and the Gumbel draws but differ
    in the categorical draws hold the same [core] after any number of
    steps. *)
Theorem resampling_never_reaches_core (self : VCSMC) (w1 w2 : World)
  (step : nat) :
  well_formed self w1 -> well_formed self w2 ->
  expm w1 = expm w2 -> gumbel w1 = gumbel w2 ->
  step <= n self - 1 ->
  exists vars1 vars2,
    run_steps self w1 step (initial_vars self) = Some vars1
    /\ run_steps self w2 step (initial_vars self) = Some vars2
    /\ core vars1 = core vars2.
Proof.
  intros Hwf1 Hwf2 He Hg. induction step as [|step IH]; intros Hle.
  - exists (initial_vars self), (initial_vars self). repeat split.
  - destruct IH as [v1 [v2 [Hr1 [Hr2 Hc]]]]; [lia|].
    destruct (@run_steps_shape self w1 step Hwf1) as [u1 [Hu1 [Hsh1 Hs1]]];
      [lia|].
    destruct (@run_steps_shape self w2 step Hwf2) as [u2 [Hu2 [Hsh2 Hs2]]];
      [lia|].
    rewrite Hr1 in Hu1. injection Hu1 as <-.
    rewrite Hr2 in Hu2. injection Hu2 as <-.
    destruct (@body_main_core self w1 v1 Hwf1 Hsh1)
      as [v1' [top1 [kept1 [Hb1 [Ht1 [Hk1 Hrows1]]]]]]; [lia|].
    destruct (@body_main_core self w2 v2 Hwf2 Hsh2)
      as [v2' [top2 [kept2 [Hb2 [Ht2 [Hk2 Hrows2]]]]]]; [lia|].
    exists v1', v2'. cbn [run_steps]. rewrite Hr1, Hr2. cbn [bind].
    split; [exact Hb1|]. split; [exact Hb2|].
    rewrite Hs1 in *. rewrite Hs2 in *.
    unfold sampled_pairs in Ht1, Ht2. unfold kept_positions in Hk1, Hk2.
    rewrite (scores_same_noise self w1 w2 step Hg) in Ht1, Hk1.
    rewrite Ht1 in Ht2. injection Ht2 as <-.
    rewrite Hk1 in Hk2. injection Hk2 as <-.
    destruct (@body_main_spec self w1 v1 Hwf1 Hsh1)
      as [x1 [_ [_ [_ [_ [Hx1 [Hsh1' _]]]]]]]; [lia|].
    destruct (@body_main_spec self w2 v2 Hwf2 Hsh2)
      as [x2 [_ [_ [_ [_ [Hx2 [Hsh2' _]]]]]]]; [lia|].
    rewrite Hb1 in Hx1. injection Hx1 as <-.
    rewrite Hb2 in Hx2. injection Hx2 as <-.
    apply (nth_ext _ _ [] []).
    + destruct (sh_core Hsh1') as [-> _]. destruct (sh_core Hsh2') as [-> _].
      reflexivity.
    + intros k Hk. destruct (sh_core Hsh1') as [Hl _]. rewrite Hl in Hk.
      rewrite (Hrows1 k Hk), (Hrows2 k Hk), Hc.
      rewrite (merged_node_same_expm self w1 w2 _ _ _ _ He). reflexivity.
Qed.

Lemma well_formed3_first :
  well_formed Examples.self3 MoreExamples.world3_first.
Proof.
  constructor.
  - reflexivity.
  - split; vm_compute; reflexivity.
  - split; [reflexivity | repeat constructor].
  - split; [reflexivity | repeat constructor].
  - intros r d H. simpl. lia.
  - split; vm_compute; lia.
  - repeat split; vm_compute; lia.
Qed.

Lemma resampling_never_reaches_core_witness :
  exists vars1 vars2,
    run_steps Examples.self3 Examples.world3 2 (initial_vars Examples.self3)
    = Some vars1
    /\ run_steps Examples.self3 MoreExamples.world3_first 2
         (initial_vars Examples.self3) = Some vars2
    /\ core vars1 = core vars2.
Proof.
  apply (@resampling_never_reaches_core Examples.self3 Examples.world3
           MoreExamples.world3_first 2 well_formed3 well_formed3_first).
  - reflexivity.
  - reflexivity.
  - vm_compute; lia.
Defined.

(** ** What [jump_chains] records *)

Lemma concat1_rectangular {A : Type} (x y t : list (list A)) (rows cx cy : nat) :
  rectangular rows cx x -> rectangular rows cy y ->
  TF.concat1 x y = Some t -> rectangular rows (cx + cy) t.
Proof.
  intros [Hxl Hx] [Hyl Hy] Ht.
  destruct (@concat1_total A x y cx cy) as [t' [Ht' Hrect]];
    [congruence | exact Hx | exact Hy |].
  rewrite Ht in Ht'. injection Ht' as <-. rewrite Hxl in Hrect. exact Hrect.
Qed.

Lemma body_main_jump_chains (self : VCSMC) (w : World) (vars vars' : MainVars) :
  well_formed self w -> shape self vars ->
  body_main self w vars = Some vars' ->
  (r vars = 0 -> jump_chains vars' = jump_chains vars)
  /\ (0 < r vars ->
      forall k, k < K self ->
        nth k (jump_chains vars') []
        = nth k (jump_chains vars) []
          ++ nth (categorical w (r vars) k) (jump_chain_tensor vars) []).
Proof.
  intros Hwf Hsh H.
  pose proof (wf_categorical Hwf) as Hcat.
  destruct Hsh as [_ [Hjl Hjr] _ _ _ _ _ Hjc].
  destruct vars as [lws0 lls0 tilda0 jcs0 jct0 core0 v0 r0].
  cbn [r jump_chains jump_chain_tensor] in *.
  unfold body_main in H.
  inv_bind_as H res Hres. destruct res as [[tilda jc] jct].
  inv_bind_as H ext Hext.
  inv_bind_as H dv Hdata. destruct dv as [[[[nd_full c2] ci2] i2] k2].
  inv_bind_as H nd Hnd. inv_bind_as H flat Hflat.
  inv_bind_as H kept_nodes Hkept. inv_bind_as H core' Hcat'.
  inv_bind_as H wv Hwv. inv_bind_as H lwr Hlwr. inv_bind_as H llr Hllr.
  inv_bind_as H vnew Hvnew. injection H as <-. cbn [jump_chains].
  clear Hext Hdata Hnd Hflat Hkept Hcat' Hwv Hlwr Hllr Hvnew.
  destruct (0 <? r0) eqn:Hr0.
  - apply Nat.ltb_lt in Hr0. split; [lia|]. intros _ k Hk.
    unfold cond_true_resample, resample in Hres.
    inv_bind_as Hres lw_r Hlw. inv_bind_as Hres rs Hrs.
    destruct rs as [jct1 indices].
    inv_bind_as Hrs gathered Hg. injection Hrs as <- <-.
    repeat inv_bind Hres. injection Hres as _ <- _.
    rewrite (@gather_map _ jct0 _ []) in Hg.
    2:{ apply Forall_map, Forall_forall. intros d Hd. rewrite Hjl.
        apply Hcat. apply in_seq in Hd. lia. }
    injection Hg as <-.
    destruct (nth_error_lt jcs0 (i:=k)) as [row Hrow]; [lia|].
    rewrite (nth_error_nth _ _ [] Hrow).
    apply nth_error_nth.
    eapply concat1_nth_error; [eassumption | exact Hrow |].
    rewrite !nth_error_map, nth_error_seq.
    replace (k <? K self) with true by (symmetry; apply Nat.ltb_lt; exact Hk).
    reflexivity.
  - apply Nat.ltb_ge in Hr0. split; [|lia]. intros _.
    unfold cond_false_resample in Hres. injection Hres as _ <- _.
    reflexivity.
Qed.

(** X17: a pass of [body_main] leaves [jump_chains] as it is at step 0,
    and at a later step appends to the row of particle [k] the forest of
    the ancestor drawn for it, as it was before the merge of that step. *)
Theorem jump_chains_append_the_resampled_forest (self : VCSMC) (w : World)
  (vars : MainVars) :
  well_formed self w -> shape self vars -> r vars < n self - 1 ->
  exists vars',
    body_main self w vars = Some vars'
    /\ (r vars = 0 -> jump_chains vars' = jump_chains vars)
    /\ (0 < r vars ->
        forall k, k < K self ->
          nth k (jump_chains vars') []
          = nth k (jump_chains vars) []
            ++ nth (categorical w (r vars) k) (jump_chain_tensor vars) []).
Proof.
  intros Hwf Hsh Hlt.
  destruct (@body_main_spec self w vars Hwf Hsh Hlt)
    as [vars' [_ [_ [_ [_ [Hbody _]]]]]].
  exists vars'. split; [exact Hbody|].
  exact (body_main_jump_chains Hwf Hsh Hbody).
Qed.

Lemma jump_chains_append_the_resampled_forest_witness :
  exists vars vars',
    run_steps Examples.self3 Examples.world3 1 (initial_vars Examples.self3)
    = Some vars
    /\ body_main Examples.self3 Examples.world3 vars = Some vars'
    /\ nth 1 (jump_chains vars') []
       = nth 1 (jump_chains vars) [] ++ nth 1 (jump_chain_tensor vars) [].
Proof.
  destruct (@run_steps_shape Examples.self3 Examples.world3 1 well_formed3)
    as [vars [Hrun [Hsh Hr]]]; [vm_compute; lia|].
  destruct (@jump_chains_append_the_resampled_forest Examples.self3
              Examples.world3 vars well_formed3 Hsh)
    as [vars' [Hbody [_ Hrows]]]; [rewrite Hr; vm_compute; lia|].
  exists vars, vars'. split; [exact Hrun|]. split; [exact Hbody|].
  apply (Hrows ltac:(lia) 1). vm_compute; lia.
Defined.

(** X18: after [step] steps [jump_chains] has [K] rows that start with
    the empty string and hold [1 + (n - 1) + ... + (n - step + 1)] entries:
    twice the width is [2 + (step - 1) (2 n - step)]. *)
Theorem jump_chains_width (self : VCSMC) (w : World) (step : nat) :
  well_formed self w -> step <= n self - 1 ->
  exists vars width,
    run_steps self w step (initial_vars self) = Some vars
    /\ rectangular (K self) width (jump_chains vars)
    /\ 2 * width = 2 + (step - 1) * (2 * n self - step)
    /\ Forall (fun row => nth_error row 0 = Some ""%string) (jump_chains vars).
Proof.
  intros Hwf. induction step as [|step IH]; intros Hle.
  - exists (initial_vars self), 1. split; [reflexivity|].
    cbn [initial_vars jump_chains]. split; [|split; [reflexivity|]].
    + split; [apply repeat_length|].
      apply Forall_forall. intros row Hrow. apply repeat_spec in Hrow.
      subst. reflexivity.
    + apply Forall_forall. intros row Hrow. apply repeat_spec in Hrow.
      subst. reflexivity.
  - destruct IH as [vars [width [Hrun [Hrect [Hw Hfirst]]]]]; [lia|].
    destruct (@run_steps_shape self w step Hwf) as [u [Hu [Hsh Hr]]]; [lia|].
    rewrite Hrun in Hu. injection Hu as <-.
    destruct (@body_main_spec self w vars Hwf Hsh)
      as [vars' [_ [_ [_ [_ [Hbody [Hsh' _]]]]]]]; [lia|].
    destruct (body_main_jump_chains Hwf Hsh Hbody) as [H0 Hpos].
    exists vars'. cbn [run_steps]. rewrite Hrun. cbn [bind].
    destruct step as [|step].
    + exists width. split; [exact Hbody|]. rewrite (H0 Hr).
      split; [exact Hrect|]. split; [|exact Hfirst]. simpl in *. lia.
    + exists (width + (n self - S step)). split; [exact Hbody|].
      assert (Hrows : forall k, k < K self ->
                nth k (jump_chains vars') []
                = nth k (jump_chains vars) []
                  ++ nth (categorical w (S step) k) (jump_chain_tensor vars) [])
        by (intros k Hk; rewrite <- Hr; apply Hpos; [lia | exact Hk]).
      pose proof (sh_jump_chains Hsh') as Hlen'.
      pose proof (sh_jump_chain_tensor Hsh) as Hjct. rewrite Hr in Hjct.
      split; [|split].
      * split; [exact Hlen'|].
        apply Forall_forall. intros row Hrow.
        destruct (In_nth _ _ [] Hrow) as [k [Hk <-]].
        rewrite Hlen' in Hk. rewrite (Hrows k Hk), length_app.
        f_equal.
        -- destruct Hrect as [Hl Hrs]. rewrite Forall_forall in Hrs.
           apply Hrs. apply nth_In. lia.
        -- apply (rectangular_nth Hjct). apply (wf_categorical Hwf). exact Hk.
      * replace (S (S step) - 1) with (S step) by lia.
        replace (S step - 1) with step in Hw by lia. nia.
      * apply Forall_forall. intros row Hrow.
        destruct (In_nth _ _ [] Hrow) as [k [Hk <-]].
        rewrite Hlen' in Hk. rewrite (Hrows k Hk).
        rewrite Forall_forall in Hfirst.
        destruct Hrect as [Hl _].
        specialize (Hfirst (nth k (jump_chains vars) [])
                           ltac:(apply nth_In; lia)).
        destruct (nth k (jump_chains vars) []) as [|x xs];
          [discriminate | exact Hfirst].
Qed.

Lemma jump_chains_width_witness :
  exists vars,
    run_steps Examples.self3 Examples.world3 2 (initial_vars Examples.self3)
    = Some vars
    /\ rectangular 2 3 (jump_chains vars).
Proof.
  destruct (@jump_chains_width Examples.self3 Examples.world3 2 well_formed3)
    as [vars [width [Hrun [Hrect [Hw _]]]]]; [vm_compute; lia|].
  exists vars. split; [exact Hrun|].
  change (n Examples.self3) with 3 in Hw.
  replace width with 3 in Hrect by (simpl in Hw; lia). exact Hrect.
Defined.

(** ** [ncr] is the binomial coefficient while the products fit *)








(** ** Training *)

Lemma learning_rate_values (i : nat) :
  (i < 20 -> learning_rate i = (1 / 10)%R)
  /\ (20 <= i <= 200 -> learning_rate i = (1 / 100)%R)
  /\ (200 < i -> learning_rate i = (1 / 1000)%R).
Proof.
  unfold learning_rate.
  destruct (i <? 20) eqn:H1; [apply Nat.ltb_lt in H1 | apply Nat.ltb_ge in H1];
    (destruct (200 <? i) eqn:H2;
     [apply Nat.ltb_lt in H2 | apply Nat.ltb_ge in H2]);
    repeat split; intros; try lia; reflexivity.
Qed.

(** X20: the learning rate [train] feeds to the optimizer never
    increases from one iteration to a later one, and it is 0.01 exactly on
    the iterations 20 to 200 (iteration 200 included). *)
Theorem learning_rate_schedule (i j : nat) :
  i <= j ->
  (learning_rate j <= learning_rate i)%R
  /\ (learning_rate i = (1 / 100)%R <-> 20 <= i <= 200).
Proof.
  intros Hij.
  destruct (learning_rate_values i) as [Hi1 [Hi2 Hi3]].
  destruct (learning_rate_values j) as [Hj1 [Hj2 Hj3]].
  split.
  - destruct (Nat.lt_ge_cases i 20) as [Hi|Hi].
    + rewrite (Hi1 Hi).
      destruct (Nat.lt_ge_cases j 20) as [Hj|Hj]; [rewrite Hj1 by lia; lra|].
      destruct (Nat.le_gt_cases j 200) as [Hj'|Hj'];
        [rewrite Hj2 by lia | rewrite Hj3 by lia]; lra.
    + destruct (Nat.le_gt_cases i 200) as [Hi'|Hi'].
      * rewrite Hi2 by lia.
        destruct (Nat.le_gt_cases j 200) as [Hj'|Hj'];
          [rewrite Hj2 by lia | rewrite Hj3 by lia]; lra.
      * rewrite Hi3, Hj3 by lia. lra.
  - split.
    + intros H.
      destruct (Nat.lt_ge_cases i 20) as [Hi|Hi];
        [rewrite Hi1 in H by lia; lra|].
      destruct (Nat.le_gt_cases i 200) as [Hi'|Hi']; [lia|].
      rewrite Hi3 in H by lia. lra.
    + exact Hi2.
Qed.

Lemma learning_rate_schedule_witness :
  (learning_rate 300 <= learning_rate 10)%R.
Proof.
  destruct (@learning_rate_schedule 10 300) as [Hle _]; [lia | exact Hle].
Defined.

Lemma well_formed_assign (self : VCSMC) (w : World) (vs : Variables) :
  well_formed self w -> branch_shapes self vs ->
  well_formed (assign self vs) w.
Proof.
  intros [Ht Hi _ _ Hc Hf Hs] [Hl Hr].
  constructor; assumption.
Qed.

Lemma printed_particles_in_range (K0 : nat) :
  1 <= K0 -> Forall (fun i => i < K0) (printed_particles K0).
Proof.
  intros HK. unfold printed_particles.
  repeat constructor; try lia.
  - apply Nat.Div0.div_lt_upper_bound; lia.
  - apply Nat.Div0.div_lt_upper_bound; lia.
  - apply Nat.Div0.div_lt_upper_bound; lia.
Qed.

Section Training.
Variable Slots : Type.
Variable sess : Session Slots.
Variable self : VCSMC.
Hypothesis chains_well_formed :
  forall i, well_formed self (draws_chains sess i).
Hypothesis minimize_keeps_shapes :
  forall lr w vs slots, branch_shapes self vs ->
    exists vs' slots' cost,
      minimize sess lr w (vs, slots) = Some (vs', slots', cost)
      /\ branch_shapes self vs'.

Lemma train_iteration_runs (i : nat) (vs : Variables) (slots : Slots)
  (h : History) :
  branch_shapes self vs ->
  exists vs' slots' cost Qmat chains,
    train_iteration sess self i (vs, slots, h)
    = Some (vs', slots',
            mkHistory (h_elbos h ++ [cost]) (h_Qmatrices h ++ [Qmat])
                      (h_left_branches h ++ [var_left_branches vs'])
                      (h_right_branches h ++ [var_left_branches vs'])
                      (h_jump_chain_evolution h ++ [chains]))
    /\ branch_shapes self vs'.
Proof.
  intros Hvs.
  destruct (minimize_keeps_shapes (learning_rate i) (draws_train sess i)
              slots Hvs) as [vs' [slots' [cost [Hmin Hvs']]]].
  pose proof (well_formed_assign (chains_well_formed i) Hvs') as Hwf.
  destruct (main_loop_runs Hwf) as [final [Hloop _]].
  destruct Hvs' as [Hl Hr].
  assert (HK : 1 <= K self) by (destruct (wf_squeeze Hwf) as [HK _];
                                exact (Nat.le_trans _ _ _ (Nat.le_succ_diag_r 1) HK)).
  destruct (@gather_total _ (var_left_branches vs') (printed_particles (K self)))
    as [pl Hpl].
  { destruct Hl as [-> _]. apply printed_particles_in_range. exact HK. }
  destruct (@gather_total _ (var_right_branches vs') (printed_particles (K self)))
    as [pr Hpr].
  { destruct Hr as [-> _]. apply printed_particles_in_range. exact HK. }
  exists vs', slots', (- cost)%R, (Qmatrix (assign self vs')),
         (jump_chains final).
  split; [|split; assumption].
  unfold train_iteration. rewrite Hmin. cbn [bind].
  cbn [assign left_branches right_branches K] in *.
  unfold matrix in *. rewrite Hpl. cbn [bind]. rewrite Hpr. cbn [bind].
  rewrite Hloop. reflexivity.
Qed.

Lemma train_loop_runs (len lo : nat) (vs : Variables) (slots : Slots)
  (h : History) :
  branch_shapes self vs ->
  h_right_branches h = h_left_branches h ->
  exists vs' slots' h',
    train_loop sess self (seq lo len) (vs, slots, h) = Some (vs', slots', h')
    /\ h_right_branches h' = h_left_branches h'
    /\ length (h_elbos h') = length (h_elbos h) + len
    /\ length (h_Qmatrices h') = length (h_Qmatrices h) + len
    /\ length (h_left_branches h') = length (h_left_branches h) + len
    /\ length (h_jump_chain_evolution h')
       = length (h_jump_chain_evolution h) + len.
Proof.
  revert lo vs slots h. induction len as [|len IH]; intros lo vs slots h Hvs Heq.
  - exists vs, slots, h. simpl. repeat split; try lia. exact Heq.
  - destruct (train_iteration_runs lo slots h Hvs)
      as [vs1 [slots1 [cost [Qmat [chains [Hit Hvs1]]]]]].
    match type of Hit with _ = Some (_, _, ?h1) =>
      destruct (IH (S lo) vs1 slots1 h1 Hvs1) as [vs' [slots' [h' [Hl H]]]]
    end.
    { cbn [h_right_branches h_left_branches]. rewrite Heq. reflexivity. }
    exists vs', slots', h'. cbn [seq train_loop]. rewrite Hit. cbn [bind].
    split; [exact Hl|].
    cbn [h_elbos h_Qmatrices h_left_branches h_right_branches
         h_jump_chain_evolution] in H.
    rewrite !length_app in H. simpl in H.
    destruct H as [H1 [H2 [H3 [H4 H5]]]].
    repeat split; try assumption; lia.
Qed.

End Training.

(** X21: with at least two taxa, whatever the optimizer does to the
    variables (as long as the branch lengths keep their shapes), [train]
    returns, each of its records has one entry per iteration, and the
    record saved as [right_branches] equals the one saved as
    [left_branches]. *)
Theorem train_saves_the_left_branches_twice (Slots : Type)
  (sess : Session Slots) (self : VCSMC) (numIters : nat) :
  well_formed self (draws_initial sess) ->
  2 <= n self ->
  (forall i, well_formed self (draws_chains sess i)) ->
  (forall lr w vs slots, branch_shapes self vs ->
     exists vs' slots' cost,
       minimize sess lr w (vs, slots) = Some (vs', slots', cost)
       /\ branch_shapes self vs') ->
  exists res,
    train sess self numIters = Some res
    /\ rd_right_branches res = rd_left_branches res
    /\ length (rd_left_branches res) = numIters
    /\ length (rd_cost res) = numIters
    /\ length (rd_Qmatrices res) = numIters
    /\ length (rd_jump_chain_evolution res) = numIters
    /\ rd_nParticles res = K self /\ rd_nTaxa res = n self.
Proof.
  intros Hwf Hn Hchains Hmin.
  destruct (sample_phylogenies_runs Hwf Hn) as [final [lw [Hs _]]].
  destruct (@train_loop_runs Slots sess self Hchains Hmin numIters 0
              (variables self) (init_slots sess) (mkHistory [] [] [] [] []))
    as [vs' [slots' [h' [Hloop [Heq [H1 [H2 [H3 H4]]]]]]]].
  - split; [exact (wf_left Hwf) | exact (wf_right Hwf)].
  - reflexivity.
  - eexists. unfold train. rewrite Hs. cbn [bind]. rewrite Hloop. cbn [bind].
    split; [reflexivity|]. cbn.
    simpl in H1, H2, H3, H4. repeat split; assumption.
Qed.

Lemma train_saves_the_left_branches_twice_witness :
  exists res,
    train MoreExamples.idle_session Examples.self3 3 = Some res
    /\ rd_right_branches res = rd_left_branches res
    /\ length (rd_right_branches res) = 3.
Proof.
  destruct (@train_saves_the_left_branches_twice unit
              MoreExamples.idle_session Examples.self3 3 well_formed3)
    as [res [Hres [Heq [Hlen _]]]].
  - vm_compute; lia.
  - intros i. exact well_formed3.
  - intros lr w vs slots Hvs. exists vs, slots, 0%R.
    split; [reflexivity | exact Hvs].
  - exists res. split; [exact Hres|]. split; [exact Heq|].
    rewrite Heq. exact Hlen.
Defined.
